(** * FIR extraction engine ([parseFIR] of src/src/CaseSummaryView.js)

    A shallow embedding of the extraction engine and of the part of the
    JavaScript string and regular-expression semantics it relies on.

    - JavaScript strings are sequences of UTF-16 code units: [jstring] is a
      list of code units, each an [N].
    - Regular expressions are an abstract syntax interpreted by a backtracking
      matcher written in the continuation style of ECMA-262 (22.2.2).
    - [parseFIR] follows the source statement by statement.
    - [Run.parseFIR] is the same function on a heap of RegExp objects, with
      the [lastIndex] that the built-in methods read and write; it is shown
      to return what [parseFIR] returns, on every heap. *)

From Stdlib Require Import NArith List String Ascii Bool Arith Lia Sorted.
Import ListNotations.
Local Open Scope N_scope.
Local Open Scope list_scope.

(** ** Strings *)

Abbreviation char := N (only parsing).
Abbreviation jstring := (list N) (only parsing).

(** A string literal of the source, as code units (ASCII literals only). *)
Definition str (s : string) : jstring :=
  map N_of_ascii (list_ascii_of_string s).

Definition char_eqb (a b : char) : bool := N.eqb a b.

Fixpoint jstring_eqb (a b : jstring) : bool :=
  match a, b with
  | [], [] => true
  | x :: a', y :: b' => char_eqb x y && jstring_eqb a' b'
  | _, _ => false
  end.

(** Truthiness of a string: the empty string is the only falsy one. *)
Definition truthy (s : jstring) : bool :=
  match s with [] => false | _ :: _ => true end.

(** [a || b] on strings. *)
Definition or_else (a b : jstring) : jstring := if truthy a then a else b.

(** [a || b] where [a] may be [undefined] (an absent match or group). *)
Definition opt_or (a : option jstring) (b : jstring) : jstring :=
  match a with
  | Some s => or_else s b
  | None => b
  end.

Definition in_range (lo hi ch : char) : bool := (lo <=? ch) && (ch <=? hi).

(** WhiteSpace and LineTerminator code points: the set stripped by
    [String.prototype.trim] and matched by the class escape [\s]. *)
Definition ws_ranges : list (char * char) :=
  [ (9, 13); (32, 32); (160, 160); (5760, 5760); (8192, 8202);
    (8232, 8233); (8239, 8239); (8287, 8287); (12288, 12288); (65279, 65279) ].

Definition in_ranges (A : list (char * char)) (ch : char) : bool :=
  existsb (fun p => in_range (fst p) (snd p) ch) A.

Definition is_ws (ch : char) : bool := in_ranges ws_ranges ch.

Fixpoint trimStart (s : jstring) : jstring :=
  match s with
  | [] => []
  | ch :: s' => if is_ws ch then trimStart s' else s
  end.

Definition trimEnd (s : jstring) : jstring := rev (trimStart (rev s)).

(** [String.prototype.trim]. *)
Definition trim (s : jstring) : jstring := trimEnd (trimStart s).

(** [s.slice(i)] and [s.slice(i, j)] for [0 <= i <= j]. *)
Definition slice_from (i : nat) (s : jstring) : jstring := skipn i s.
Definition slice (i j : nat) (s : jstring) : jstring := firstn (j - i) (skipn i s).

(** [Array.prototype.join]. *)
Fixpoint join (sep : jstring) (l : list jstring) : jstring :=
  match l with
  | [] => []
  | [a] => a
  | a :: l' => a ++ sep ++ join sep l'
  end.

(** [String.prototype.split] with a one-character string separator. *)
Fixpoint split_char (sep : char) (s : jstring) : list jstring :=
  match s with
  | [] => [[]]
  | ch :: s' =>
      if char_eqb ch sep then [] :: split_char sep s'
      else match split_char sep s' with
           | [] => [[ch]]
           | l :: ls => (ch :: l) :: ls
           end
  end.

(** ** Regular expressions *)

(** ASCII case mapping; code units outside ASCII are left alone.  The
    patterns of this program contain ASCII letters only, and under the [i]
    flag without [u] the canonical form of a code unit >= 128 is never an
    ASCII one (ECMA-262, Canonicalize), so such a code unit matches a pattern
    character or class exactly when it is itself a member. *)
Definition to_upper (ch : char) : char :=
  if in_range 97 122 ch then ch - 32 else ch.
Definition to_lower (ch : char) : char :=
  if in_range 65 90 ch then ch + 32 else ch.

(** Membership of [ch] in the character set [A], given as ranges; with
    [ic] (flag [i]) a member whose canonical form is that of [ch] suffices. *)
Definition cs_mem (ic : bool) (A : list (char * char)) (ch : char) : bool :=
  in_ranges A ch || (ic && (in_ranges A (to_upper ch) || in_ranges A (to_lower ch))).

Inductive regex : Type :=
| Empty : regex
| CharSet (A : list (char * char)) (invert : bool) : regex
| Seq (r1 r2 : regex) : regex
| Alt (r1 r2 : regex) : regex
| Quant (min : nat) (max : option nat) (greedy : bool) (r : regex) : regex
| Group (n : nat) (r : regex) : regex
| Look (positive : bool) (r : regex) : regex
| Bol : regex
| Eol : regex
| WordB : regex.

(** Indices of the capture groups of a regex. *)
Fixpoint groups (r : regex) : list nat :=
  match r with
  | Seq a b | Alt a b => groups a ++ groups b
  | Quant _ _ _ a | Look _ a => groups a
  | Group n a => n :: groups a
  | _ => []
  end.

(** A match state: the position [endIndex] in the input, the code unit
    before it ([prev], absent at position 0), the input from it on ([rest]),
    and the captures as (group, (start, end)) pairs, latest first. *)
Record MatchState : Type := mkState {
  prev : option char;
  rest : jstring;
  endIndex : nat;
  captures : list (nat * (nat * nat))
}.

Definition Continuation := MatchState -> option MatchState.

Fixpoint cap_get (n : nat) (caps : list (nat * (nat * nat))) : option (nat * nat) :=
  match caps with
  | [] => None
  | (k, v) :: caps' => if Nat.eqb k n then Some v else cap_get n caps'
  end.

Definition cap_clear (ns : list nat) (caps : list (nat * (nat * nat)))
  : list (nat * (nat * nat)) :=
  filter (fun p => negb (existsb (Nat.eqb (fst p)) ns)) caps.

Definition with_captures (x : MatchState) (caps : list (nat * (nat * nat))) : MatchState :=
  mkState (prev x) (rest x) (endIndex x) caps.

Definition word_ranges : list (char * char) :=
  [ (48, 57); (65, 90); (95, 95); (97, 122) ].

Definition is_word (ch : char) : bool := in_ranges word_ranges ch.

Definition is_word_opt (o : option char) : bool :=
  match o with Some ch => is_word ch | None => false end.

Definition is_zero (n : nat) : bool :=
  match n with O => true | S _ => false end.

Definition max_is_zero (max : option nat) : bool :=
  match max with Some O => true | _ => false end.

(** RepeatMatcher (ECMA-262 22.2.2.3.1) for the atom matcher [m].  Each
    iteration either lowers [min] or consumes input, so [fuel] counts
    iterations; [Quant] below supplies [min + length rest + 1]. *)
Fixpoint repeat_matcher (m : MatchState -> Continuation -> option MatchState)
    (gs : list nat) (greedy : bool) (fuel : nat) (min : nat) (max : option nat)
    (x : MatchState) (c : Continuation) {struct fuel} : option MatchState :=
  match fuel with
  | O => None
  | S fuel' =>
      if max_is_zero max then c x
      else
        let d : Continuation := fun y =>
          if is_zero min && Nat.eqb (endIndex y) (endIndex x) then None
          else repeat_matcher m gs greedy fuel' (Nat.pred min) (option_map Nat.pred max) y c in
        let xr := with_captures x (cap_clear gs (captures x)) in
        if negb (is_zero min) then m xr d
        else if greedy then
          match m xr d with
          | Some z => Some z
          | None => c x
          end
        else
          match c x with
          | Some z => Some z
          | None => m xr d
          end
  end.

(** The matcher of a pattern (ECMA-262 22.2.2); [ic] is the [i] flag. *)
Fixpoint matcher (ic : bool) (r : regex) (x : MatchState) (c : Continuation)
  {struct r} : option MatchState :=
  match r with
  | Empty => c x
  | CharSet A invert =>
      match rest x with
      | [] => None
      | ch :: rest' =>
          if Bool.eqb (cs_mem ic A ch) invert then None
          else c (mkState (Some ch) rest' (S (endIndex x)) (captures x))
      end
  | Seq r1 r2 => matcher ic r1 x (fun y => matcher ic r2 y c)
  | Alt r1 r2 =>
      match matcher ic r1 x c with
      | Some z => Some z
      | None => matcher ic r2 x c
      end
  | Quant min max greedy r' =>
      repeat_matcher (matcher ic r') (groups r') greedy
        (min + List.length (rest x) + 1)%nat min max x c
  | Group n r' =>
      matcher ic r' x (fun y =>
        c (with_captures y ((n, (endIndex x, endIndex y)) :: captures y)))
  | Look true r' =>
      match matcher ic r' x Some with
      | Some y => c (with_captures x (captures y))
      | None => None
      end
  | Look false r' =>
      match matcher ic r' x Some with
      | Some _ => None
      | None => c x
      end
  | Bol => match prev x with None => c x | Some _ => None end
  | Eol => match rest x with [] => c x | _ :: _ => None end
  | WordB =>
      if Bool.eqb (is_word_opt (prev x)) (is_word_opt (hd_error (rest x)))
      then None else c x
  end.

(** ** Regular-expression objects and the string methods that take them *)

Record RegExp : Type := mkRegExp {
  pattern : regex;
  ignoreCase : bool;
  global : bool
}.

(** A successful match: the index it starts at and the final state. *)
Record Match : Type := mkMatch {
  index : nat;
  final : MatchState
}.

Definition state0 (s : jstring) : MatchState := mkState None s 0 [].

(** The state at the same position with no captures. *)
Definition restart (x : MatchState) : MatchState := with_captures x [].

(** The state one code unit further (AdvanceStringIndex), if any. *)
Definition advance (x : MatchState) : option MatchState :=
  match rest x with
  | [] => None
  | ch :: rest' => Some (mkState (Some ch) rest' (S (endIndex x)) [])
  end.

(** RegExpBuiltinExec: the matcher is tried at [lastIndex], then at each
    later index up to the length of the input. *)
Fixpoint exec_loop (re : RegExp) (p : option char) (s : jstring) (i : nat)
  : option Match :=
  match matcher (ignoreCase re) (pattern re) (mkState p s i []) Some with
  | Some y => Some (mkMatch i y)
  | None =>
      match s with
      | [] => None
      | ch :: s' => exec_loop re (Some ch) s' (S i)
      end
  end.

Definition exec (re : RegExp) (x : MatchState) : option Match :=
  exec_loop re (prev x) (rest x) (endIndex x).

(** [m[n]] for a match [m] on the input [s]: the matched text for [n = 0],
    the text of group [n] otherwise, [None] for [undefined]. *)
Definition group_text (s : jstring) (m : Match) (n : nat) : option jstring :=
  match n with
  | O => Some (slice (index m) (endIndex (final m)) s)
  | S _ =>
      match cap_get n (captures (final m)) with
      | Some (i, j) => Some (slice i j s)
      | None => None
      end
  end.

(** [s.search(re)]; [None] stands for -1. *)
Definition search (re : RegExp) (s : jstring) : option nat :=
  option_map index (exec re (state0 s)).

(** [s.match(re)?.[n]] for a regex without the [g] flag. *)
Definition match_group (re : RegExp) (s : jstring) (n : nat) : option jstring :=
  match exec re (state0 s) with
  | Some m => group_text s m n
  | None => None
  end.

(** [re.test(s)]. *)
Definition test (re : RegExp) (s : jstring) : bool :=
  match exec re (state0 s) with Some _ => true | None => false end.

(** The successive matches of a [g] regex, as [matchAll] and [replace]
    enumerate them: after an empty match [lastIndex] moves one further. *)
Fixpoint scan (fuel : nat) (re : RegExp) (x : MatchState) : list Match :=
  match fuel with
  | O => []
  | S fuel' =>
      match exec re x with
      | None => []
      | Some m =>
          m :: (if Nat.eqb (endIndex (final m)) (index m)
                then match advance (final m) with
                     | Some x' => scan fuel' re x'
                     | None => []
                     end
                else scan fuel' re (restart (final m)))
      end
  end.

Definition matchAll (re : RegExp) (s : jstring) : list Match :=
  scan (List.length s + 2) re (state0 s).

(** A replacement text: literal pieces and [$n] references. *)
Inductive repl_item : Type :=
| RLit (s : jstring)
| RRef (n : nat).

Definition substitution (s : jstring) (m : Match) (t : list repl_item) : jstring :=
  flat_map (fun it =>
    match it with
    | RLit l => l
    | RRef n => match group_text s m n with Some g => g | None => [] end
    end) t.

(** The result of [replace], given the matches in order: the text between
    matches is kept, each match gives way to its substitution. *)
Fixpoint replace_matches (s : jstring) (t : list repl_item) (next : nat)
    (ms : list Match) : jstring :=
  match ms with
  | [] => slice_from next s
  | m :: ms' =>
      slice next (index m) s ++ substitution s m t
        ++ replace_matches s t (endIndex (final m)) ms'
  end.

(** [s.replace(re, t)]: every match for a [g] regex, the first otherwise. *)
Definition replace (re : RegExp) (t : list repl_item) (s : jstring) : jstring :=
  if global re then replace_matches s t 0 (matchAll re s)
  else match exec re (state0 s) with
       | Some m => replace_matches s t 0 [m]
       | None => s
       end.

(** [s.split(re)] for a non-empty [s] and a separator without capture
    groups: [x] is the state at the position [q] tried next, [p] the start
    of the piece being cut. *)
Fixpoint split_loop (fuel : nat) (re : RegExp) (s : jstring) (p : nat)
    (x : MatchState) : list jstring :=
  match fuel with
  | O => [slice_from p s]
  | S fuel' =>
      match advance x with
      | None => [slice_from p s]
      | Some x' =>
          match matcher (ignoreCase re) (pattern re) (restart x) Some with
          | None => split_loop fuel' re s p x'
          | Some y =>
              if Nat.eqb (endIndex y) p then split_loop fuel' re s p x'
              else slice p (endIndex x) s :: split_loop fuel' re s (endIndex y) (restart y)
          end
      end
  end.

Definition split (re : RegExp) (s : jstring) : list jstring :=
  match s with
  | [] => match exec re (state0 s) with Some _ => [] | None => [[]] end
  | _ :: _ => split_loop (2 * List.length s + 2) re s 0 (state0 s)
  end.

(** ** Writing patterns *)

Definition rng (a b : ascii) : char * char := (N_of_ascii a, N_of_ascii b).
Definition one (a : ascii) : char * char := (N_of_ascii a, N_of_ascii a).
Arguments rng (a b)%_char.
Arguments one a%_char.

Definition seq (rs : list regex) : regex := fold_right Seq Empty rs.

Fixpoint alt (rs : list regex) : regex :=
  match rs with
  | [] => Empty
  | [r] => r
  | r :: rs' => Alt r (alt rs')
  end.

(** Literal text, one pattern character per code unit. *)
Definition lit (s : string) : regex :=
  seq (map (fun ch => CharSet [(ch, ch)] false) (str s)).

Definition cls (A : list (char * char)) : regex := CharSet A false.
Definition ncls (A : list (char * char)) : regex := CharSet A true.

Definition LF : char := 10.
Definition CR : char := 13.
Definition TAB : char := 9.

(** [.], [\s], [\d]. *)
Definition line_terminators : list (char * char) :=
  [ (LF, LF); (CR, CR); (8232, 8233) ].
Definition dot : regex := ncls line_terminators.
Definition ws : regex := cls ws_ranges.
Definition digit : regex := cls [rng "0" "9"].

Definition star (r : regex) : regex := Quant 0 None true r.
Definition plus (r : regex) : regex := Quant 1 None true r.
Definition opt (r : regex) : regex := Quant 0 (Some 1%nat) true r.
Definition lazy_star (r : regex) : regex := Quant 0 None false r.
Definition lazy_plus (r : regex) : regex := Quant 1 None false r.
Definition times (lo hi : nat) (r : regex) : regex := Quant lo (Some hi) true r.

Definition ahead (r : regex) : regex := Look true r.
Definition not_ahead (r : regex) : regex := Look false r.

Definition re_i (r : regex) : RegExp := mkRegExp r true false.
Definition re_gi (r : regex) : RegExp := mkRegExp r true true.
Definition re_g (r : regex) : RegExp := mkRegExp r false true.
Definition re_plain (r : regex) : RegExp := mkRegExp r false false.

(** ** The patterns of [parseFIR]

    Each definition carries the source pattern it transcribes. *)

Module Pat.

(** [[A-Za-z0-9 .,&'_-]] *)
Definition area_chars : list (char * char) :=
  [ rng "A" "Z"; rng "a" "z"; rng "0" "9"; one " "; one "."; one ",";
    one "&"; one "'"; one "_"; one "-" ].

(** [(?=,|\n|$)] *)
Definition stop_comma_nl : regex :=
  ahead (alt [lit ","; cls [(LF, LF)]; Eol]).

(** [(?=,|\.|\n|$)] *)
Definition stop_comma_dot_nl : regex :=
  ahead (alt [lit ","; lit "."; cls [(LF, LF)]; Eol]).

(** [/\r\n?/g] *)
Definition crlf : RegExp := re_g (seq [cls [(CR, CR)]; opt (cls [(LF, LF)])]).

(** [/[ \t]+/g] *)
Definition blanks : RegExp := re_g (plus (cls [one " "; (TAB, TAB)])).

(** [/\s+/g] *)
Definition spaces : RegExp := re_g (plus ws).

(** [/\bPolice\s*Station\s*[:\-]?\s*([A-Za-z0-9 .,&'_-]+?)(?=,|\n|$)/i] *)
Definition policeStation : RegExp :=
  re_i (seq [WordB; lit "Police"; star ws; lit "Station"; star ws;
             opt (cls [one ":"; one "-"]); star ws;
             Group 1 (lazy_plus (cls area_chars)); stop_comma_nl]).

(** [[A-Za-z0-9\/\-]] *)
Definition fir_chars : list (char * char) :=
  [ rng "A" "Z"; rng "a" "z"; rng "0" "9"; one "/"; one "-" ].

(** [/\bFIR\s*(?:No\.?|Number)\s*[:\-]?\s*([A-Za-z0-9\/\-]+)/i] *)
Definition firNumber1 : RegExp :=
  re_i (seq [WordB; lit "FIR"; star ws;
             alt [seq [lit "No"; opt (lit ".")]; lit "Number"]; star ws;
             opt (cls [one ":"; one "-"]); star ws;
             Group 1 (plus (cls fir_chars))]).

(** [/\bFIR\s*registered\s*No\.?\s*([A-Za-z0-9\/\-]+)/i] *)
Definition firNumber2 : RegExp :=
  re_i (seq [WordB; lit "FIR"; star ws; lit "registered"; star ws;
             lit "No"; opt (lit "."); star ws;
             Group 1 (plus (cls fir_chars))]).

(** [[\/\-\.]] *)
Definition date_sep : regex := cls [one "/"; one "-"; one "."].

(** [/\bDate\s*[:\-]?\s*([0-9]{1,2}[\/\-\.][0-9]{1,2}[\/\-\.][0-9]{2,4})/i] *)
Definition date : RegExp :=
  re_i (seq [WordB; lit "Date"; star ws; opt (cls [one ":"; one "-"]); star ws;
             Group 1 (seq [times 1 2 digit; date_sep; times 1 2 digit;
                           date_sep; times 2 4 digit])]).

(** [[0-9]{1,2}[:.][0-9]{2}] *)
Definition hhmm : regex :=
  seq [times 1 2 digit; cls [one ":"; one "."]; times 2 2 digit].

(** [(?:AM|PM|am|pm)?] *)
Definition ampm : regex := opt (alt [lit "AM"; lit "PM"; lit "am"; lit "pm"]).

(** [/\bTime\s*[:\-]?\s*([0-9]{1,2}[:.][0-9]{2}\s*(?:AM|PM|am|pm)?)/i] *)
Definition time1 : RegExp :=
  re_i (seq [WordB; lit "Time"; star ws; opt (cls [one ":"; one "-"]); star ws;
             Group 1 (seq [hhmm; star ws; ampm])]).

(** [/\b(?:at|around)\s*([0-9]{1,2}[:.][0-9]{2}\s*(?:AM|PM|am|pm)?)/i] *)
Definition time2 : RegExp :=
  re_i (seq [WordB; alt [lit "at"; lit "around"]; star ws;
             Group 1 (seq [hhmm; star ws; ampm])]).

(** [/\b([0-9]{1,2}[:.][0-9]{2})\s*(?:hrs|Hrs|hours)?/i] *)
Definition time3 : RegExp :=
  re_i (seq [WordB; Group 1 hhmm; star ws;
             opt (alt [lit "hrs"; lit "Hrs"; lit "hours"])]).

(** [/1\.\s*Complainant\s*Details/i] and the headings that follow. *)
Definition heading1 : RegExp :=
  re_i (seq [lit "1"; lit "."; star ws; lit "Complainant"; star ws; lit "Details"]).
Definition heading2 : RegExp :=
  re_i (seq [lit "2"; lit "."; star ws; lit "Accused"; star ws; lit "Details"]).
(** [/5\.\s*Witness(?:es)?/i] *)
Definition heading5 : RegExp :=
  re_i (seq [lit "5"; lit "."; star ws; lit "Witness"; opt (lit "es")]).
(** [/7\.\s*Investigating\s*Officer/i] *)
Definition heading7 : RegExp :=
  re_i (seq [lit "7"; lit "."; star ws; lit "Investigating"; star ws; lit "Officer"]).

(** [/2\./i], [/3\./i], [/6\./i], [/8\./i] *)
Definition numbered (n : string) : RegExp := re_i (seq [lit n; lit "."]).

(** [(?:Age|Address|Designation|Contact|Mobile|Phone|Email|Police|Station|FIR|Date|Time)] *)
Definition field_labels : regex :=
  alt [lit "Age"; lit "Address"; lit "Designation"; lit "Contact"; lit "Mobile";
       lit "Phone"; lit "Email"; lit "Police"; lit "Station"; lit "FIR";
       lit "Date"; lit "Time"].

(** [(?=\s+(?:Age|...|Time)\b|,|\n|$)] *)
Definition stop_label : regex :=
  ahead (alt [seq [plus ws; field_labels; WordB]; lit ","; cls [(LF, LF)]; Eol]).

(** [[A-Za-z .'_-]], [[A-Za-z .@'_-]], [[A-Za-z .'-]] *)
Definition name_chars : list (char * char) :=
  [ rng "A" "Z"; rng "a" "z"; one " "; one "."; one "'"; one "_"; one "-" ].
Definition name_chars_at : list (char * char) :=
  [ rng "A" "Z"; rng "a" "z"; one " "; one "."; one "@"; one "'"; one "_"; one "-" ].
Definition person_chars : list (char * char) :=
  [ rng "A" "Z"; rng "a" "z"; one " "; one "."; one "'"; one "-" ].

(** [/Name\s*:\s*([A-Za-z .'_-]+?)(?=\s+(?:Age|...|Time)\b|,|\n|$)/i] *)
Definition complainantName : RegExp :=
  re_i (seq [lit "Name"; star ws; lit ":"; star ws;
             Group 1 (lazy_plus (cls name_chars)); stop_label]).

(** [/\bComplainant(?:\s*Name|\s*Details)?\s*:\s*([A-Za-z .'_-]+)/i] *)
Definition complainantInline : RegExp :=
  re_i (seq [WordB; lit "Complainant";
             opt (alt [seq [star ws; lit "Name"]; seq [star ws; lit "Details"]]);
             star ws; lit ":"; star ws; Group 1 (plus (cls name_chars))]).

(** [/Name\s*:\s*([A-Za-z .@'_-]+?)(?=\s+(?:Age|...|Time)\b|,|\n|$)/i] *)
Definition accusedName : RegExp :=
  re_i (seq [lit "Name"; star ws; lit ":"; star ws;
             Group 1 (lazy_plus (cls name_chars_at)); stop_label]).

(** [/\bAccused(?:\s*Name|\s*Details)?\s*:\s*([A-Za-z .@'_-]+)/i] *)
Definition accusedInline : RegExp :=
  re_i (seq [WordB; lit "Accused";
             opt (alt [seq [star ws; lit "Name"]; seq [star ws; lit "Details"]]);
             star ws; lit ":"; star ws; Group 1 (plus (cls name_chars_at))]).

(** The first pattern of [cleanPerson], flag [i]: [^\s*] followed by an
    optional non-capturing group [Name\s*:\s*]. *)
Definition nameEcho : RegExp :=
  re_i (seq [Bol; star ws; opt (seq [lit "Name"; star ws; lit ":"; star ws])]).

(** [/^(?:SI|ASI|HC|PC|Ct|Inspector|Sub-Inspector)\.?\s+/i] *)
Definition rank : RegExp :=
  re_i (seq [Bol;
             alt [lit "SI"; lit "ASI"; lit "HC"; lit "PC"; lit "Ct";
                  lit "Inspector"; lit "Sub-Inspector"];
             opt (lit "."); plus ws]).

(** [(?:Designation|Rank|Police\s*Station|Address|Age|Contact|Mobile|Phone|Email)] *)
Definition witness_labels : regex :=
  alt [lit "Designation"; lit "Rank"; seq [lit "Police"; star ws; lit "Station"];
       lit "Address"; lit "Age"; lit "Contact"; lit "Mobile"; lit "Phone";
       lit "Email"].

(** [(?=,|\.|\s+(?:Designation|...|Email)\b|$)] *)
Definition stop_witness : regex :=
  ahead (alt [lit ","; lit "."; seq [plus ws; witness_labels; WordB]; Eol]).

(** [/^\s*(?:-|\d+\.)?\s*([A-Za-z .'-]+?)(?=,|\.|\s+(?:Designation|...|Email)\b|$)/i] *)
Definition witnessLine : RegExp :=
  re_i (seq [Bol; star ws; opt (alt [lit "-"; seq [plus digit; lit "."]]); star ws;
             Group 1 (lazy_plus (cls person_chars)); stop_witness]).

(** [/\bWitness(?:es)?[^:]*:\s*([^.\n]+)/i] *)
Definition witnessInline : RegExp :=
  re_i (seq [WordB; lit "Witness"; opt (lit "es"); star (ncls [one ":"]); lit ":";
             star ws; Group 1 (plus (ncls [one "."; (LF, LF)]))]).

(** [/,| and /i] *)
Definition comma_and : RegExp := re_i (alt [lit ","; lit " and "]).

(** [/^\s*([A-Za-z .'-]+?)(?=,|\.|\s+(?:Designation|...|Email)\b|$)/] (no flag) *)
Definition witnessChunk : RegExp :=
  re_plain (seq [Bol; star ws; Group 1 (lazy_plus (cls person_chars)); stop_witness]).

(** [/\bInvestigating\s*Officer\s*Name\s*:\s*([A-Za-z .'-]+?)(?=,|\.|\n|$)/i] *)
Definition io1 : RegExp :=
  re_i (seq [WordB; lit "Investigating"; star ws; lit "Officer"; star ws;
             lit "Name"; star ws; lit ":"; star ws;
             Group 1 (lazy_plus (cls person_chars)); stop_comma_dot_nl]).

(** [/\bIO\s*Name\s*:\s*([A-Za-z .'-]+?)(?=,|\.|\n|$)/i] *)
Definition io2 : RegExp :=
  re_i (seq [WordB; lit "IO"; star ws; lit "Name"; star ws; lit ":"; star ws;
             Group 1 (lazy_plus (cls person_chars)); stop_comma_dot_nl]).

(** [/assigned\s+to\s*([A-Za-z .'-]+?)\s*,\s*Investigating\s*Officer/i] *)
Definition io3 : RegExp :=
  re_i (seq [lit "assigned"; plus ws; lit "to"; star ws;
             Group 1 (lazy_plus (cls person_chars)); star ws; lit ","; star ws;
             lit "Investigating"; star ws; lit "Officer"]).

(** [/Name\s*:\s*([A-Za-z .'-]+?)(?=\s+(?:Age|...|Time)\b|,|\n|$)/i] *)
Definition ioName : RegExp :=
  re_i (seq [lit "Name"; star ws; lit ":"; star ws;
             Group 1 (lazy_plus (cls person_chars)); stop_label]).

(** [/\bIPC\s*Section\s*(\d+)/gi] *)
Definition ipcSection : RegExp :=
  re_gi (seq [WordB; lit "IPC"; star ws; lit "Section"; star ws;
              Group 1 (plus digit)]).

(** [/\bSection\s*(\d+)\s*IPC\b/gi] *)
Definition sectionIpc : RegExp :=
  re_gi (seq [WordB; lit "Section"; star ws; Group 1 (plus digit); star ws;
              lit "IPC"; WordB]).

(** [/\bLocation\s*[:\-]?\s*([A-Za-z0-9 .,&'_-]+?)(?=,|\n|$)/i] *)
Definition location1 : RegExp :=
  re_i (seq [WordB; lit "Location"; star ws; opt (cls [one ":"; one "-"]); star ws;
             Group 1 (lazy_plus (cls area_chars)); stop_comma_nl]).

(** [/\bPolice\s*Station.*?\(\s*([A-Za-z0-9 .,&'_-]+?)\s*\)/i] *)
Definition location2 : RegExp :=
  re_i (seq [WordB; lit "Police"; star ws; lit "Station"; lazy_star dot; lit "(";
             star ws; Group 1 (lazy_plus (cls area_chars)); star ws; lit ")"]).

(** [(?!Survey\s*No\b|FIR\b|First\b|Information\b|Report\b|Police\s*Station\b)] *)
Definition not_boilerplate : regex :=
  not_ahead (alt [seq [lit "Survey"; star ws; lit "No"; WordB];
                  seq [lit "FIR"; WordB]; seq [lit "First"; WordB];
                  seq [lit "Information"; WordB]; seq [lit "Report"; WordB];
                  seq [lit "Police"; star ws; lit "Station"; WordB]]).

(** [/\b(?:at|in)\s+(?!...)([A-Za-z0-9 .,&'_-]+?)(?=,|\n|$)/i] *)
Definition location4 : RegExp :=
  re_i (seq [WordB; alt [lit "at"; lit "in"]; plus ws; not_boilerplate;
             Group 1 (lazy_plus (cls area_chars)); stop_comma_nl]).

(** [/\b(FIR|First|Information|Report)\b/i] *)
Definition reportWord : RegExp :=
  re_i (seq [WordB;
             Group 1 (alt [lit "FIR"; lit "First"; lit "Information"; lit "Report"]);
             WordB]).

(** [[A-Za-z .,&'_-]] *)
Definition locality_chars : list (char * char) :=
  [ rng "A" "Z"; rng "a" "z"; one " "; one "."; one ","; one "&"; one "'";
    one "_"; one "-" ].

(** [/\b(?:at|in)\s+(?!...)([A-Za-z .,&'_-]+?(?:Puram|Nagar|Colony|Road|Street|Layout|Block|Area|District|City))(?=,|\n|$)/i] *)
Definition locality : RegExp :=
  re_i (seq [WordB; alt [lit "at"; lit "in"]; plus ws; not_boilerplate;
             Group 1 (seq [lazy_plus (cls locality_chars);
                           alt [lit "Puram"; lit "Nagar"; lit "Colony"; lit "Road";
                                lit "Street"; lit "Layout"; lit "Block"; lit "Area";
                                lit "District"; lit "City"]]);
             stop_comma_nl]).

(** [/\bSurvey\s*No\b.*$/i] *)
Definition surveyTail : RegExp :=
  re_i (seq [WordB; lit "Survey"; star ws; lit "No"; WordB; star dot; Eol]).

(** [/\b([A-Z])\s*\.\s*([A-Z])\s*\./g] *)
Definition initials : RegExp :=
  re_g (seq [WordB; Group 1 (cls [rng "A" "Z"]); star ws; lit "."; star ws;
             Group 2 (cls [rng "A" "Z"]); star ws; lit "."]).

(** [/\bR\.?\s*S\.?\s*Puram\b/i] *)
Definition rsPuram : RegExp :=
  re_i (seq [WordB; lit "R"; opt (lit "."); star ws; lit "S"; opt (lit ".");
             star ws; lit "Puram"; WordB]).

(** [/\bBharathi\s*Nagar\b/i] *)
Definition bharathiNagar : RegExp :=
  re_i (seq [WordB; lit "Bharathi"; star ws; lit "Nagar"; WordB]).

End Pat.

(** ** The data model *)

Record Entities : Type := mkEntities {
  firNumber : jstring;
  policeStation : jstring;
  date : jstring;
  time : jstring;
  complainant : jstring;
  accused : jstring;
  witnesses : list jstring;
  sections : list jstring;
  location : jstring;
  investigatingOfficer : jstring
}.

Module Timeline.

Record entry : Type := mk {
  time : jstring;
  event : jstring
}.

End Timeline.

Record CaseSummary : Type := mkCaseSummary {
  overview : jstring;
  keyPoints : list jstring;
  entities : Entities;
  timeline : list Timeline.entry
}.

Definition NA : jstring := str "N/A".

(** The [empty] object of [parseFIR]. *)
Definition empty : CaseSummary :=
  mkCaseSummary (str "FIR summary not available.") []
    (mkEntities NA NA NA NA NA NA [] [] NA NA) [].

(** ** Helpers *)

(** [pick(reArr, text, group, fb)] *)
Fixpoint pick (reArr : list RegExp) (text : jstring) (group : nat) (fb : jstring)
  : jstring :=
  match reArr with
  | [] => fb
  | re :: reArr' =>
      match match_group re text group with
      | Some g => if truthy g then trim g else pick reArr' text group fb
      | None => pick reArr' text group fb
      end
  end.

(** A [Set] of strings, in insertion order, and [Array.from] of it. *)
Definition set_add (s : list jstring) (x : jstring) : list jstring :=
  if existsb (jstring_eqb x) s then s else s ++ [x].

Definition set_add_all (s : list jstring) (l : list jstring) : list jstring :=
  fold_left set_add l s.

(** [cond ? [x] : []], for a conditional [push]. *)
Definition push_if (cond : bool) (x : jstring) : list jstring :=
  if cond then [x] else [].

(** ** The extractors of [parseFIR], one per local of the source *)

Module Extract.

(** [raw.replace(/\r\n?/g, "\n")] *)
Definition text (raw : jstring) : jstring := replace Pat.crlf [RLit [LF]] raw.

(** [text.replace(/[ \t]+/g, " ").trim()] *)
Definition flat (text : jstring) : jstring :=
  trim (replace Pat.blanks [RLit (str " ")] text).

Definition policeStation (flat : jstring) : jstring :=
  pick [Pat.policeStation] flat 1 NA.

Definition firNumber (flat : jstring) : jstring :=
  pick [Pat.firNumber1; Pat.firNumber2] flat 1 NA.

Definition date (flat : jstring) : jstring := pick [Pat.date] flat 1 NA.

Definition time (flat : jstring) : jstring :=
  pick [Pat.time1; Pat.time2; Pat.time3] flat 1 NA.

Definition sliceBetween (text : jstring) (startRe endRe : RegExp) : jstring :=
  match search startRe text with
  | None => []
  | Some s =>
      let rest := slice_from s text in
      match search endRe rest with
      | None => rest
      | Some e => slice 0 e rest
      end
  end.

Definition complainantBlock (text : jstring) : jstring :=
  sliceBetween text Pat.heading1 (Pat.numbered "2").

(** The operand of [.trim()] in the initialiser of [complainant]. *)
Definition complainantCaptured (text flat : jstring) : jstring :=
  opt_or (match_group Pat.complainantName (complainantBlock text) 1)
    (or_else (pick [Pat.complainantInline] flat 1 NA) NA).

Definition complainant (text flat : jstring) : jstring :=
  trim (complainantCaptured text flat).

Definition accusedBlock (text : jstring) : jstring :=
  sliceBetween text Pat.heading2 (Pat.numbered "3").

Definition accusedCaptured (text flat : jstring) : jstring :=
  opt_or (match_group Pat.accusedName (accusedBlock text) 1)
    (or_else (pick [Pat.accusedInline] flat 1 NA) NA).

Definition accused (text flat : jstring) : jstring :=
  trim (accusedCaptured text flat).

Definition witnessesBlock (text : jstring) : jstring :=
  sliceBetween text Pat.heading5 (Pat.numbered "6").

Definition cleanPerson (s : jstring) : jstring :=
  trim (replace Pat.spaces [RLit (str " ")]
         (replace Pat.rank []
           (replace Pat.nameEcho [] s))).

(** 5.a: the names pushed by the loop over the lines of the block. *)
Definition witnessesOfBlock (block : jstring) : list jstring :=
  flat_map (fun line =>
    match match_group Pat.witnessLine line 1 with
    | Some g =>
        if truthy g then
          let name := cleanPerson g in push_if (truthy name) name
        else []
    | None => []
    end) (split_char LF block).

(** 5.b: the names pushed by the inline fallback. *)
Definition witnessesInline (flat : jstring) : list jstring :=
  let inline := opt_or (match_group Pat.witnessInline flat 1) [] in
  if truthy inline then
    flat_map (fun chunk =>
      let name := cleanPerson (opt_or (match_group Pat.witnessChunk chunk 1) []) in
      push_if (truthy name) name) (split Pat.comma_and inline)
  else [].

(** The array [witnesses] before de-duplication. *)
Definition witnessesPushed (text flat : jstring) : list jstring :=
  let pushed := witnessesOfBlock (witnessesBlock text) in
  match pushed with
  | [] => witnessesInline flat
  | _ :: _ => pushed
  end.

(** [Array.from(new Set(witnesses))] *)
Definition witnesses (text flat : jstring) : list jstring :=
  set_add_all [] (witnessesPushed text flat).

Definition ioBlock (text : jstring) : jstring :=
  sliceBetween text Pat.heading7 (Pat.numbered "8").

Definition ioInline (flat : jstring) : jstring :=
  pick [Pat.io1; Pat.io2; Pat.io3] flat 1 [].

Definition investigatingOfficerCaptured (text flat : jstring) : jstring :=
  opt_or (match_group Pat.ioName (ioBlock text) 1) (or_else (ioInline flat) NA).

Definition investigatingOfficer (text flat : jstring) : jstring :=
  trim (investigatingOfficerCaptured text flat).

(** The template [`IPC ${m[1]}`]. *)
Definition ipc (s : jstring) (m : Match) : jstring :=
  str "IPC " ++ match group_text s m 1 with
                | Some g => g
                | None => str "undefined"
                end.

Definition sections (text : jstring) : list jstring :=
  let sectionsSet := set_add_all [] (map (ipc text) (matchAll Pat.ipcSection text)) in
  let sectionsSet := set_add_all sectionsSet (map (ipc text) (matchAll Pat.sectionIpc text)) in
  sectionsSet.

Definition location (flat policeStation : jstring) : jstring :=
  let location :=
    or_else (pick [Pat.location1; Pat.location2; Pat.policeStation; Pat.location4]
               flat 1 []) [] in
  let location :=
    if negb (truthy location) || test Pat.reportWord location then
      trim (opt_or (match_group Pat.locality flat 1) [])
    else location in
  let location :=
    trim (replace Pat.initials [RRef 1; RLit (str "."); RRef 2; RLit (str ".")]
           (replace Pat.spaces [RLit (str " ")]
             (replace Pat.surveyTail [] (or_else location [])))) in
  if negb (truthy location) then
    let rs := match_group Pat.rsPuram flat 0 in
    let bn := match_group Pat.bharathiNagar flat 0 in
    trim (opt_or bn (opt_or rs (or_else policeStation NA)))
  else location.

(** [v && v !== "N/A"] *)
Definition found (v : jstring) : bool := truthy v && negb (jstring_eqb v NA).

Definition overview (policeStation location firNumber date time : jstring) : jstring :=
  let overviewParts :=
    [str "FIR registered"]
      ++ push_if (found policeStation) (str "at " ++ policeStation)
      ++ push_if (found location && negb (jstring_eqb location policeStation))
           (str "(" ++ location ++ str ")")
      ++ push_if (found firNumber) (str "FIR No: " ++ firNumber)
      ++ push_if (found date) (str "Date: " ++ date)
      ++ push_if (found time) (str "Time: " ++ time) in
  trim (replace Pat.spaces [RLit (str " ")] (join (str " ") overviewParts)).

(** A key point [`<label> – ${v}`]; the dash is U+2013. *)
Definition keyPoint (label : string) (v : jstring) : jstring :=
  str label ++ [32; 8211; 32] ++ v.

Definition keyPoints (complainant accused location : jstring)
    (sections : list jstring) (investigatingOfficer : jstring) : list jstring :=
  [ keyPoint "Complainant" (or_else complainant NA);
    keyPoint "Accused" (or_else accused NA);
    keyPoint "Location" (or_else location NA);
    keyPoint "Sections"
      (match sections with
       | [] => NA
       | _ :: _ => join (str ", ") sections
       end);
    keyPoint "Investigating Officer" (or_else investigatingOfficer NA) ].

Definition timeline (date time : jstring) : list Timeline.entry :=
  if negb (jstring_eqb date NA) || negb (jstring_eqb time NA) then
    [ Timeline.mk
        (join (str " ")
           (filter truthy
              [ if negb (jstring_eqb date NA) then date else [];
                if negb (jstring_eqb time NA) then time else [] ]))
        (str "FIR registered") ]
  else [].

End Extract.

(** ** [parseFIR] *)

Definition parseFIR (raw : jstring) : CaseSummary :=
  if negb (truthy raw) || negb (truthy (trim raw)) then empty
  else
    let text := Extract.text raw in
    let flat := Extract.flat text in
    let policeStation := Extract.policeStation flat in
    let firNumber := Extract.firNumber flat in
    let date := Extract.date flat in
    let time := Extract.time flat in
    let complainant := Extract.complainant text flat in
    let accused := Extract.accused text flat in
    let witnesses := Extract.witnesses text flat in
    let investigatingOfficer := Extract.investigatingOfficer text flat in
    let sections := Extract.sections text in
    let location := Extract.location flat policeStation in
    let overview := Extract.overview policeStation location firNumber date time in
    let keyPoints :=
      Extract.keyPoints complainant accused location sections investigatingOfficer in
    let timeline := Extract.timeline date time in
    mkCaseSummary overview keyPoints
      (mkEntities
         (or_else firNumber NA)
         (or_else policeStation NA)
         (or_else date NA)
         (or_else time NA)
         (or_else complainant NA)
         (or_else accused NA)
         witnesses
         sections
         (or_else location NA)
         (or_else investigatingOfficer NA))
      timeline.

(** ** Notions used to state the properties *)

(** A blank input: empty, or code units of white space only. *)
Definition blank (s : jstring) : Prop := Forall (fun ch => is_ws ch = true) s.

(** A scalar field of the result is resolved from the value [extracted] its
    extractor computed: it is the sentinel, or it is that value, which is
    then a non-empty string. *)
Definition resolved (field extracted : jstring) : Prop :=
  field = NA \/ (field = extracted /\ extracted <> []).

(** The first index at which [x] occurs in [l]. *)
Fixpoint index_of (x : jstring) (l : list jstring) : option nat :=
  match l with
  | [] => None
  | y :: l' =>
      if jstring_eqb y x then Some O
      else option_map S (index_of x l')
  end.

(** [a] first occurs in [src] before [b] does. *)
Definition occurs_before (src : list jstring) (a b : jstring) : Prop :=
  match index_of a src, index_of b src with
  | Some p, Some q => (p < q)%nat
  | _, _ => False
  end.

(** [res] lists the values of the sequence [src] once each, in the order in
    which they first occur in [src]. *)
Definition first_occurrences (src res : list jstring) : Prop :=
  NoDup res /\ (forall x, In x res <-> In x src) /\
  StronglySorted (occurs_before src) res.





(** The last code unit of a text. *)
Definition last_read_of (s : jstring) : option char :=
  match rev s with
  | [] => None
  | ch :: _ => Some ch
  end.

(** A text that ends with a word character, starts with one, starts with a
    decimal digit. *)
Definition ends_word (s : jstring) : bool := is_word_opt (last_read_of s).
Definition starts_word (s : jstring) : bool := is_word_opt (hd_error s).
Definition starts_digit (s : jstring) : bool :=
  match s with
  | ch :: _ => in_range 48 57 ch
  | [] => false
  end.

(** The text [w] occurs in [s]. *)
Definition occurs (w s : jstring) : Prop := exists a b, s = a ++ w ++ b.

(** The accused block of the example report, and the example's two blocks. *)
Definition accused_lines : jstring :=
  str "2. Accused Details" ++ [LF] ++ str "Name: Unknown" ++ [LF].

Definition parties_block : jstring :=
  str "1. Complainant Details" ++ [LF] ++ str "Name: Rajesh Kumar, Age: 34" ++ [LF]
    ++ accused_lines.
(** ** A relational reading of the matcher

    [span ic r x y]: the pattern [r] can take the matcher from the state [x]
    to the state [y].  It follows [matcher] case by case, without the
    continuation and without the order in which choices are tried. *)

(** [n] iterations of a quantified atom whose single step is [R], as
    RepeatMatcher runs them: an iteration is entered only while [max] is not
    zero, it must consume input once [min] is zero, and the loop is left
    when [min] is zero or [max] is. *)
Fixpoint reps (R : MatchState -> MatchState -> Prop) (n : nat) (min : nat)
    (max : option nat) (x y : MatchState) : Prop :=
  match n with
  | O => y = x /\ (min = O \/ max = Some O)
  | S n' =>
      max <> Some O /\
      exists w, R x w /\ (min = O -> endIndex w <> endIndex x) /\
                reps R n' (Nat.pred min) (option_map Nat.pred max) w y
  end.

Fixpoint span (ic : bool) (r : regex) (x y : MatchState) : Prop :=
  match r with
  | Empty => y = x
  | CharSet A invert =>
      exists ch rest',
        rest x = ch :: rest' /\ Bool.eqb (cs_mem ic A ch) invert = false /\
        y = mkState (Some ch) rest' (S (endIndex x)) (captures x)
  | Seq r1 r2 => exists w, span ic r1 x w /\ span ic r2 w y
  | Alt r1 r2 => span ic r1 x y \/ span ic r2 x y
  | Quant min max _ r' =>
      exists n,
        reps (fun x w =>
                span ic r' (with_captures x (cap_clear (groups r') (captures x))) w)
          n min max x y
  | Group n r' =>
      exists w, span ic r' x w /\
                y = with_captures w ((n, (endIndex x, endIndex w)) :: captures w)
  | Look true r' => exists w, span ic r' x w /\ y = with_captures x (captures w)
  | Look false r' => y = x /\ matcher ic r' x Some = None
  | Bol => y = x /\ prev x = None
  | Eol => y = x /\ rest x = []
  | WordB =>
      y = x /\
      Bool.eqb (is_word_opt (prev x)) (is_word_opt (hd_error (rest x))) = false
  end.

(** The text a pattern can consume, assertions and captures left aside. *)
Fixpoint lang (ic : bool) (r : regex) (u : jstring) : Prop :=
  match r with
  | Empty => u = []
  | CharSet A invert =>
      exists ch, u = [ch] /\ Bool.eqb (cs_mem ic A ch) invert = false
  | Seq r1 r2 => exists u1 u2, u = u1 ++ u2 /\ lang ic r1 u1 /\ lang ic r2 u2
  | Alt r1 r2 => lang ic r1 u \/ lang ic r2 u
  | Quant min max _ r' =>
      exists us, u = List.concat us /\ Forall (lang ic r') us /\
                 (match max with
                  | Some k => (min <= k)%nat
                  | None => True
                  end -> (min <= List.length us)%nat) /\
                 match max with
                 | Some k => (List.length us <= k)%nat
                 | None => True
                 end
  | Group _ r' => lang ic r' u
  | Look _ _ | Bol | Eol | WordB => u = []
  end.

(** The bodies of the groups numbered [n] in a pattern. *)
Fixpoint group_bodies (n : nat) (r : regex) : list regex :=
  match r with
  | Seq a b | Alt a b => group_bodies n a ++ group_bodies n b
  | Quant _ _ _ a | Look _ a => group_bodies n a
  | Group k a => (if Nat.eqb k n then [a] else []) ++ group_bodies n a
  | _ => []
  end.

(** The code unit before the position reached after reading [u] from a
    position whose previous code unit is [p]. *)
Definition last_read (p : option char) (u : jstring) : option char :=
  match rev u with
  | [] => p
  | ch :: _ => Some ch
  end.

(** [y] lies [u] further than [x] in the same input. *)
Definition reads (u : jstring) (x y : MatchState) : Prop :=
  rest x = u ++ rest y /\
  endIndex y = (endIndex x + List.length u)%nat /\
  prev y = last_read (prev x) u.

(** [x] is a position of the input [s]. *)
Definition position_of (s : jstring) (x : MatchState) : Prop :=
  exists u, s = u ++ rest x /\ endIndex x = List.length u /\
            prev x = last_read None u.

(** A capture of the state a span arrives at was already there when it
    started, or delimits a text that the body of its group can consume. *)
Definition capture_from (ic : bool) (r : regex) (s : jstring) (x y : MatchState) : Prop :=
  forall n i j, cap_get n (captures y) = Some (i, j) ->
    cap_get n (captures x) = Some (i, j) \/
    ((i <= j <= List.length s)%nat /\
     exists body, In body (group_bodies n r) /\ lang ic body (slice i j s)).

(** The matcher calls its continuation only at states further in the same
    input; two continuations that agree there give the same result. *)
Definition agree_from (x : MatchState) (c1 c2 : Continuation) : Prop :=
  forall u y, reads u x y -> c1 y = c2 y.


(** The code units a character set accepts. *)
Definition accepts (ic : bool) (A : list (char * char)) (invert : bool) (ch : char)
  : bool :=
  negb (Bool.eqb (cs_mem ic A ch) invert).

(** The state at the position [k] of the input [s], with no capture. *)
Definition state_at (s : jstring) (k : nat) : MatchState :=
  mkState (last_read None (firstn k s)) (skipn k s) k [].

(** The code units that may occur in a text the pattern consumes. *)
Fixpoint may_contain (ic : bool) (r : regex) (ch : char) : bool :=
  match r with
  | CharSet A invert => accepts ic A invert ch
  | Seq a b | Alt a b => may_contain ic a ch || may_contain ic b ch
  | Quant _ _ _ a | Group _ a => may_contain ic a ch
  | _ => false
  end.

(** How many times [x] occurs in [l]. *)
Definition occurrences (x : jstring) (l : list jstring) : nat :=
  List.length (filter (jstring_eqb x) l).

(** The state [x] seen from an input that has [k] more code units before
    it: positions and captures move by [k]. *)
Definition shift_caps (k : nat) (caps : list (nat * (nat * nat)))
  : list (nat * (nat * nat)) :=
  map (fun e => (fst e, (fst (snd e) + k, snd (snd e) + k)%nat)) caps.

Definition shift (k : nat) (x : MatchState) : MatchState :=
  mkState (prev x) (rest x) (endIndex x + k) (shift_caps k (captures x)).

(** A match seen from an input that has [k] more code units before it. *)
Definition shift_match (k : nat) (m : Match) : Match :=
  mkMatch (index m + k) (shift k (final m)).

(** A pattern without assertions: it looks at nothing but what it reads. *)
Fixpoint plain (r : regex) : bool :=
  match r with
  | Empty | CharSet _ _ => true
  | Seq a b | Alt a b => plain a && plain b
  | Quant _ _ _ a | Group _ a => plain a
  | Look _ _ | Bol | Eol | WordB => false
  end.

(** The state [x] in the input that ends [k] code units earlier. *)
Definition cut (k : nat) (x : MatchState) : MatchState :=
  mkState (prev x) (firstn (List.length (rest x) - k) (rest x)) (endIndex x)
    (captures x).
(** ** Replacement, read as a pass over the text *)

(** One pass over [s] that, where [hm] finds a match of [k] code units at
    the head of the text left, writes [l] and skips them, and copies the
    code unit otherwise. *)
Fixpoint rewrite_heads (hm : jstring -> option nat) (l : jstring) (fuel : nat)
    (s : jstring) : jstring :=
  match fuel with
  | O => s
  | S fuel' =>
      match s with
      | [] => []
      | ch :: s' =>
          match hm s with
          | Some k => l ++ rewrite_heads hm l fuel' (skipn k s)
          | None => ch :: rewrite_heads hm l fuel' s'
          end
      end
  end.

(** The longest prefix of code units satisfying [f], and what follows it. *)
Fixpoint take_while (f : char -> bool) (s : jstring) : jstring :=
  match s with
  | [] => []
  | ch :: s' => if f ch then ch :: take_while f s' else []
  end.

Fixpoint drop_while (f : char -> bool) (s : jstring) : jstring :=
  match s with
  | [] => []
  | ch :: s' => if f ch then drop_while f s' else s
  end.

(** The match of a run of code units satisfying [f] at the head of a text. *)
Definition head_run (f : char -> bool) (s : jstring) : option nat :=
  match take_while f s with
  | [] => None
  | run => Some (List.length run)
  end.

(** [s] with every run of code units satisfying [f] replaced by [l];
    [in_run] tells that the code unit before [s] belongs to a run. *)
Fixpoint squeeze_from (f : char -> bool) (l : jstring) (in_run : bool)
    (s : jstring) : jstring :=
  match s with
  | [] => []
  | ch :: s' =>
      if f ch then (if in_run then [] else l) ++ squeeze_from f l true s'
      else ch :: squeeze_from f l false s'
  end.

Definition squeeze (f : char -> bool) (l : jstring) (s : jstring) : jstring :=
  squeeze_from f l false s.

(** [s] with each line end CR LF or CR turned into LF. *)
Fixpoint unix_lines (s : jstring) : jstring :=
  match s with
  | [] => []
  | ch :: s' =>
      if char_eqb ch CR then
        LF :: match s' with
              | ch' :: s'' => if char_eqb ch' LF then unix_lines s'' else unix_lines s'
              | [] => []
              end
      else ch :: unix_lines s'
  end.

(** The match of [\r\n?] at the head of a text. *)
Definition head_crlf (s : jstring) : option nat :=
  match s with
  | [] => None
  | ch :: s' =>
      if char_eqb ch CR then
        Some (match s' with
              | ch' :: _ => if char_eqb ch' LF then 2%nat else 1%nat
              | [] => 1%nat
              end)
      else None
  end.

(** Every white-space code unit of [s] is a space, with a code unit that is
    not white space after it, if any ([loosely_spaced]) or for sure
    ([single_spaced]). *)
Fixpoint loosely_spaced (s : jstring) : Prop :=
  match s with
  | [] => True
  | a :: s' =>
      (is_ws a = true ->
       a = 32 /\ match s' with [] => True | b :: _ => is_ws b = false end) /\
      loosely_spaced s'
  end.

Fixpoint single_spaced (s : jstring) : Prop :=
  match s with
  | [] => True
  | a :: s' =>
      (is_ws a = true ->
       a = 32 /\ match s' with [] => False | b :: _ => is_ws b = false end) /\
      single_spaced s'
  end.

(** [s] does not start with white space. *)
Definition starts_clean (s : jstring) : Prop :=
  match s with [] => True | a :: _ => is_ws a = false end.

(** A tidy name: words separated by single spaces, nothing around them. *)
Definition tidy (s : jstring) : Prop := starts_clean s /\ single_spaced s.

(** A value that [cleanPerson] returned. *)
Definition cleaned (v : jstring) : Prop := exists cap, v = Extract.cleanPerson cap.


(** ** Presentation helpers

    [short] of src/src/CaseSummaryView.js, with which the card shortens the
    values it shows. *)

(** The one-character string "…" (U+2026). *)
Definition ellipsis : jstring := [8230].

(** [short(v, n)]: [v && v.length > n ? v.slice(0, n) + "…" : v || "N/A"]. *)
Definition short (v : jstring) (n : nat) : jstring :=
  if truthy v && Nat.ltb n (List.length v) then slice 0 n v ++ ellipsis
  else or_else v NA.

(** ** The summary card

    [SummaryCard] of src/src/CaseSummaryView.js returns a tree of elements.
    An element is kept with its tag, its [className] and its [key] (absent
    where the source gives none) and its children in order; an expression
    child that is a string is a text; the children of a [map] are spliced
    in with their keys; a child [cond && <element>] is left out when [cond]
    is false, as React renders nothing for [false]; JSX comments give no
    child, and white space between tags that holds a line break gives
    none either. *)
#[warnings="-register-all"]
Inductive node : Type :=
| Text (s : jstring)
| Elem (tag : string) (className : option string) (key : option nat)
       (children : list node).

Arguments Elem tag%_string className key children.

(** [l.map((x, i) => f x i)] *)
Fixpoint mapi_from {A B : Type} (f : A -> nat -> B) (i : nat) (l : list A) : list B :=
  match l with
  | [] => []
  | x :: l' => f x i :: mapi_from f (S i) l'
  end.

Definition mapi {A B : Type} (f : A -> nat -> B) (l : list A) : list B :=
  mapi_from f 0 l.

(** [<div className=...><b>label</b> {value}</div>] *)
Definition tile (className label : string) (value : jstring) : node :=
  Elem "div" (Some className) None
    [Elem "b" None None [Text (str label)]; Text (str " "); Text value].

Arguments tile (className label)%_string value.

Definition SummaryCard (summaryText : jstring) : node :=
  let parsed := parseFIR summaryText in
  Elem "div" (Some "space-y-6 text-gray-100"%string) None
    ([ Elem "section" None None
         [ Elem "h3" (Some "text-blue-400 font-semibold mb-2"%string) None
             [Text (str "Overview")];
           Elem "p" (Some "text-slate-300 leading-relaxed"%string) None
             [Text (overview parsed)] ];
       Elem "section" None None
         [ Elem "h3" (Some "text-purple-400 font-semibold mb-3"%string) None
             [Text (str "Key Points")];
           Elem "ul" (Some "list-decimal pl-5 text-slate-300 space-y-1"%string) None
             (mapi (fun b i => Elem "li" None (Some i) [Text b])
                (keyPoints parsed)) ];
       Elem "section" None None
         [ Elem "h3" (Some "text-green-400 font-semibold mb-3"%string) None
             [Text (str "Extracted Entities")];
           Elem "div" (Some "grid grid-cols-2 gap-3"%string) None
             ([ tile "bg-slate-700/40 rounded-lg p-2" "Complainant:"
                  (short (complainant (entities parsed)) 120);
                tile "bg-slate-700/40 rounded-lg p-2" "Accused:"
                  (short (accused (entities parsed)) 120);
                tile "bg-slate-700/40 rounded-lg p-2" "Sections:"
                  (match sections (entities parsed) with
                   | [] => str "N/A"
                   | _ :: _ => join (str ", ") (sections (entities parsed))
                   end);
                tile "bg-slate-700/40 rounded-lg p-2" "Location:"
                  (short (location (entities parsed)) 120);
                tile "bg-slate-700/40 rounded-lg p-2" "Police Station:"
                  (short (policeStation (entities parsed)) 120);
                tile "bg-slate-700/40 rounded-lg p-2" "FIR No:"
                  (short (firNumber (entities parsed)) 40);
                tile "bg-slate-700/40 rounded-lg p-2" "Date:"
                  (short (date (entities parsed)) 40);
                tile "bg-slate-700/40 rounded-lg p-2" "Time:"
                  (short (time (entities parsed)) 40);
                tile "bg-slate-700/40 rounded-lg p-2 col-span-2"
                  "Investigating Officer:"
                  (short (investigatingOfficer (entities parsed)) 120) ]
              ++ match witnesses (entities parsed) with
                 | [] => []
                 | _ :: _ =>
                     [ tile "bg-slate-700/40 rounded-lg p-2 col-span-2" "Witnesses:"
                         (join (str ", ") (witnesses (entities parsed))) ]
                 end) ] ]
     ++ match timeline parsed with
        | [] => []
        | _ :: _ =>
            [ Elem "section" None None
                [ Elem "h3" (Some "text-yellow-400 font-semibold mb-3"%string) None
                    [Text (str "Timeline")];
                  Elem "div" (Some "space-y-2"%string) None
                    (mapi (fun t i =>
                       Elem "div" (Some "flex items-start gap-3"%string) (Some i)
                         [ Elem "span"
                             (Some "bg-yellow-600 text-white text-xs font-bold rounded px-2 py-1"%string)
                             None [Text (short (Timeline.time t) 24)];
                           Elem "span" (Some "text-slate-300"%string) None
                             [Text (Timeline.event t)] ])
                       (timeline parsed)) ] ]
        end).

(** The texts a tree shows, in order. *)
Fixpoint texts (n : node) : list jstring :=
  match n with
  | Text s => [s]
  | Elem _ _ _ children => flat_map texts children
  end.

(** The titles of the sections of a card: the text of the [h3] that opens
    each [section] child. *)
Definition titles (card : node) : list jstring :=
  match card with
  | Text _ => []
  | Elem _ _ _ children =>
      flat_map (fun c =>
        match c with
        | Elem tag _ _ (Elem tag' _ _ [Text t] :: _) =>
            if String.eqb tag "section"%string && String.eqb tag' "h3"%string then [t] else []
        | _ => []
        end) children
  end.

(** The label and the value of each tile of a card's grid of entities. *)
Definition tile_of (n : node) : list (jstring * jstring) :=
  match n with
  | Elem _ _ _ [Elem _ _ _ [Text label]; Text _; Text value] => [(label, value)]
  | _ => []
  end.

Definition tiles (card : node) : list (jstring * jstring) :=
  match card with
  | Elem _ _ _ (_ :: _ :: Elem _ _ _ [_; Elem _ _ _ grid] :: _) =>
      flat_map tile_of grid
  | _ => []
  end.

(** ** Shapes of extracted values *)

(** Trimming leaves [s] as it is. *)
Definition trimmed (s : jstring) : Prop := trim s = s.

(** Every code unit of [s] belongs to the character set [A]. *)
Definition made_of (A : list (char * char)) (s : jstring) : Prop :=
  Forall (fun ch => in_ranges A ch = true) s.

(** A string of decimal digits. *)
Definition digits (s : jstring) : Prop :=
  Forall (fun ch => in_range 48 57 ch = true) s.

(** The pattern [r] cannot be spanned without its group [n] capturing: the
    group lies on every path through [r], outside any quantifier, and no
    group comes after it. *)
Fixpoint always_sets (n : nat) (r : regex) : bool :=
  match r with
  | Group k a => Nat.eqb k n || always_sets n a
  | Seq a b =>
      always_sets n b
      || (always_sets n a && match groups b with [] => true | _ => false end)
  | Alt a b => always_sets n a && always_sets n b
  | _ => false
  end.

(** A text that starts and ends with code units that are not white space. *)
Definition solid (s : jstring) : Prop :=
  (exists a t, s = a :: t /\ is_ws a = false) /\
  (exists p d, s = p ++ [d] /\ is_ws d = false).
(** ** The cleanup of a name, as the specification words it

    A second reading of [cleanPerson], written on the text itself and
    without regular expressions, against which the source's function is
    compared. *)








(** ** Texts at their places *)




(** ** RegExp objects and their state

    Evaluating a regular-expression literal makes a new RegExp object each
    time; the object has one slot that changes, [lastIndex], which the
    built-in methods read and write (ECMA-262, 22.2.6 and 22.2.7).  This is
    the one kind of object shared between [parseFIR] and the methods it
    calls.  The heap holds the [lastIndex] of every RegExp object made so
    far; a method is a function from the heap to its result and the heap it
    leaves. *)

Module Obj.

Record Heap : Type := mkHeap {
  next : nat;
  lastIndexOf : nat -> nat
}.

Record RegExpObject : Type := mkObject {
  address : nat;
  source : RegExp;
  sticky : bool
}.

Definition M (A : Type) : Type := Heap -> A * Heap.

Definition ret {A : Type} (a : A) : M A := fun h => (a, h).

Definition bind {A B : Type} (m : M A) (f : A -> M B) : M B :=
  fun h => let (a, h') := m h in f a h'.

Declare Scope run_scope.
Delimit Scope run_scope with run.
Notation "x <- m ;; f" := (bind m (fun x => f))
  (at level 61, m at next level, right associativity) : run_scope.
Local Open Scope run_scope.

Definition getLastIndex (R : RegExpObject) : M nat :=
  fun h => (lastIndexOf h (address R), h).

Definition setLastIndex (R : RegExpObject) (v : nat) : M unit :=
  fun h => (tt, mkHeap (next h)
                  (fun a => if Nat.eqb a (address R) then v else lastIndexOf h a)).

(** A new object, its [lastIndex] 0 (RegExpAlloc and RegExpInitialize). *)
Definition alloc (re : RegExp) (y : bool) : M RegExpObject :=
  fun h => (mkObject (next h) re y,
            mkHeap (S (next h))
              (fun a => if Nat.eqb a (next h) then O else lastIndexOf h a)).

(** The evaluation of a regular-expression literal, and of an array of
    literals, left to right. *)
Definition literal (re : RegExp) : M RegExpObject := alloc re false.

Fixpoint literals (res : list RegExp) : M (list RegExpObject) :=
  match res with
  | [] => ret []
  | re :: res' => R <- literal re ;; Rs <- literals res' ;; ret (R :: Rs)
  end.

(** RegExpBuiltinExec (22.2.7.2): [lastIndex] is read only under the flags
    [g] or [y], and then written on the way out. *)
Definition RegExpBuiltinExec (R : RegExpObject) (S : jstring) : M (option Match) :=
  let stateful := global (source R) || sticky R in
  lastIndex <- (if stateful then getLastIndex R else ret O) ;;
  if Nat.ltb (List.length S) lastIndex then
    _ <- (if stateful then setLastIndex R 0 else ret tt) ;;
    ret None
  else
    let r :=
      if sticky R then
        option_map (mkMatch lastIndex)
          (matcher (ignoreCase (source R)) (pattern (source R))
             (state_at S lastIndex) Some)
      else exec (source R) (state_at S lastIndex) in
    match r with
    | None =>
        _ <- (if stateful then setLastIndex R 0 else ret tt) ;;
        ret None
    | Some m =>
        _ <- (if stateful then setLastIndex R (endIndex (final m)) else ret tt) ;;
        ret (Some m)
    end.

(** [R.test(S)] *)
Definition test (R : RegExpObject) (S : jstring) : M bool :=
  r <- RegExpBuiltinExec R S ;;
  ret (match r with Some _ => true | None => false end).

(** The loop of [[@@match]], [[@@replace]] and of the iterator of
    [[@@matchAll]] for a regex with the flag [g]: after an empty match
    [lastIndex] is moved one further. *)
Fixpoint collect (fuel : nat) (R : RegExpObject) (S : jstring) : M (list Match) :=
  match fuel with
  | O => ret []
  | Datatypes.S fuel' =>
      r <- RegExpBuiltinExec R S ;;
      match r with
      | None => ret []
      | Some m =>
          _ <- (if Nat.eqb (endIndex (final m)) (index m) then
                  thisIndex <- getLastIndex R ;;
                  setLastIndex R (Datatypes.S thisIndex)
                else ret tt) ;;
          ms <- collect fuel' R S ;;
          ret (m :: ms)
      end
  end.

(** [S.replace(R, t)] *)
Definition replace (S : jstring) (R : RegExpObject) (t : list repl_item) : M jstring :=
  if global (source R) then
    _ <- setLastIndex R 0 ;;
    ms <- collect (List.length S + 2) R S ;;
    ret (replace_matches S t 0 ms)
  else
    r <- RegExpBuiltinExec R S ;;
    ret (match r with
         | Some m => replace_matches S t 0 [m]
         | None => S
         end).

(** [S.match(R)?.[n]]: with the flag [g] the result is the array of the
    matched texts. *)
Definition match_at (S : jstring) (R : RegExpObject) (n : nat) : M (option jstring) :=
  if global (source R) then
    _ <- setLastIndex R 0 ;;
    ms <- collect (List.length S + 2) R S ;;
    ret (nth_error (map (fun m => slice (index m) (endIndex (final m)) S) ms) n)
  else
    r <- RegExpBuiltinExec R S ;;
    ret (match r with
         | Some m => group_text S m n
         | None => None
         end).

(** [S.search(R)]: [lastIndex] is set to 0 for the search and restored. *)
Definition search (S : jstring) (R : RegExpObject) : M (option nat) :=
  previousLastIndex <- getLastIndex R ;;
  _ <- (if Nat.eqb previousLastIndex 0 then ret tt else setLastIndex R 0) ;;
  r <- RegExpBuiltinExec R S ;;
  currentLastIndex <- getLastIndex R ;;
  _ <- (if Nat.eqb currentLastIndex previousLastIndex then ret tt
        else setLastIndex R previousLastIndex) ;;
  ret (option_map index r).

(** [S.matchAll(R)], run to its end, for a regex with the flag [g] (without
    it the method throws): the iterator works on a copy of [R] that starts
    at the [lastIndex] of [R]. *)
Definition matchAll (S : jstring) (R : RegExpObject) : M (list Match) :=
  matcher <- alloc (source R) (sticky R) ;;
  lastIndex <- getLastIndex R ;;
  _ <- setLastIndex matcher lastIndex ;;
  collect (List.length S + 2) matcher S.

(** [S.split(R)] for a separator without capture groups: the splitter is a
    copy of [R] with the flag [y], tried at each index [q] in turn. *)
Fixpoint split_loop (fuel : nat) (splitter : RegExpObject) (S : jstring) (p q : nat)
  : M (list jstring) :=
  match fuel with
  | O => ret [slice_from p S]
  | Datatypes.S fuel' =>
      if Nat.ltb q (List.length S) then
        _ <- setLastIndex splitter q ;;
        z <- RegExpBuiltinExec splitter S ;;
        match z with
        | None => split_loop fuel' splitter S p (Datatypes.S q)
        | Some _ =>
            lastIndex <- getLastIndex splitter ;;
            let e := Nat.min lastIndex (List.length S) in
            if Nat.eqb e p then split_loop fuel' splitter S p (Datatypes.S q)
            else
              pieces <- split_loop fuel' splitter S e e ;;
              ret (slice p q S :: pieces)
        end
      else ret [slice_from p S]
  end.

Definition split (S : jstring) (R : RegExpObject) : M (list jstring) :=
  splitter <- alloc (source R) true ;;
  match S with
  | [] =>
      z <- RegExpBuiltinExec splitter S ;;
      ret (match z with Some _ => [] | None => [[]] end)
  | _ :: _ => split_loop (2 * List.length S + 2) splitter S 0 0
  end.

(** A loop that pushes to an array what its body returns. *)
Fixpoint for_each {A : Type} (l : list A) (body : A -> M (list jstring))
  : M (list jstring) :=
  match l with
  | [] => ret []
  | a :: l' => pushed <- body a ;; more <- for_each l' body ;; ret (pushed ++ more)
  end.

End Obj.

(** ** [parseFIR] on the heap

    The function once more, statement by statement, with every literal
    evaluated where the source evaluates it and every method run on the
    object it is given. *)

Module Run.

Import Obj.
Local Open Scope run_scope.

(** [pick(reArr, text, group, fb)] *)
Fixpoint pick (reArr : list RegExpObject) (text : jstring) (group : nat) (fb : jstring)
  : M jstring :=
  match reArr with
  | [] => ret fb
  | re :: reArr' =>
      m <- match_at text re group ;;
      match m with
      | Some g => if truthy g then ret (trim g) else pick reArr' text group fb
      | None => pick reArr' text group fb
      end
  end.

Definition text (raw : jstring) : M jstring :=
  R <- literal Pat.crlf ;; replace raw R [RLit [LF]].

Definition flat (text : jstring) : M jstring :=
  R <- literal Pat.blanks ;;
  s <- replace text R [RLit (str " ")] ;;
  ret (trim s).

Definition policeStation (flat : jstring) : M jstring :=
  reArr <- literals [Pat.policeStation] ;; pick reArr flat 1 NA.

Definition firNumber (flat : jstring) : M jstring :=
  reArr <- literals [Pat.firNumber1; Pat.firNumber2] ;; pick reArr flat 1 NA.

Definition date (flat : jstring) : M jstring :=
  reArr <- literals [Pat.date] ;; pick reArr flat 1 NA.

Definition time (flat : jstring) : M jstring :=
  reArr <- literals [Pat.time1; Pat.time2; Pat.time3] ;; pick reArr flat 1 NA.

Definition sliceBetween (text : jstring) (startRe endRe : RegExpObject) : M jstring :=
  s <- search text startRe ;;
  match s with
  | None => ret []
  | Some s =>
      let rest := slice_from s text in
      e <- search rest endRe ;;
      ret (match e with
           | None => rest
           | Some e => slice 0 e rest
           end)
  end.

(** [sliceBetween(/.../i, /.../i)]: both literals, then the call. *)
Definition block (text : jstring) (startRe endRe : RegExp) : M jstring :=
  a <- literal startRe ;; b <- literal endRe ;; sliceBetween text a b.

(** [(block.match(/.../i)?.[1] || inline || "N/A").trim()], the operand
    [inline] being evaluated only when the first one is falsy. *)
Definition captured (block : jstring) (name : RegExp) (inline : M jstring) : M jstring :=
  R <- literal name ;;
  m <- match_at block R 1 ;;
  v <- (match m with
        | Some g => if truthy g then ret g
                    else (i <- inline ;; ret (or_else i NA))
        | None => i <- inline ;; ret (or_else i NA)
        end) ;;
  ret (trim v).

Definition complainantBlock (text : jstring) : M jstring :=
  block text Pat.heading1 (Pat.numbered "2").

Definition complainant (text flat : jstring) : M jstring :=
  b <- complainantBlock text ;;
  captured b Pat.complainantName
    (reArr <- literals [Pat.complainantInline] ;; pick reArr flat 1 NA).

Definition accusedBlock (text : jstring) : M jstring :=
  block text Pat.heading2 (Pat.numbered "3").

Definition accused (text flat : jstring) : M jstring :=
  b <- accusedBlock text ;;
  captured b Pat.accusedName
    (reArr <- literals [Pat.accusedInline] ;; pick reArr flat 1 NA).

Definition witnessesBlock (text : jstring) : M jstring :=
  block text Pat.heading5 (Pat.numbered "6").

Definition cleanPerson (s : jstring) : M jstring :=
  R1 <- literal Pat.nameEcho ;;
  a <- replace s R1 [] ;;
  R2 <- literal Pat.rank ;;
  b <- replace a R2 [] ;;
  R3 <- literal Pat.spaces ;;
  c <- replace b R3 [RLit (str " ")] ;;
  ret (trim c).

(** 5.a *)
Definition witnessesOfBlock (block : jstring) : M (list jstring) :=
  for_each (split_char LF block) (fun line =>
    R <- literal Pat.witnessLine ;;
    m <- match_at line R 1 ;;
    match m with
    | Some g =>
        if truthy g then
          name <- cleanPerson g ;; ret (push_if (truthy name) name)
        else ret []
    | None => ret []
    end).

(** 5.b *)
Definition witnessesInline (flat : jstring) : M (list jstring) :=
  R <- literal Pat.witnessInline ;;
  m <- match_at flat R 1 ;;
  let inline := opt_or m [] in
  if truthy inline then
    S <- literal Pat.comma_and ;;
    chunks <- split inline S ;;
    for_each chunks (fun chunk =>
      C <- literal Pat.witnessChunk ;;
      g <- match_at chunk C 1 ;;
      name <- cleanPerson (opt_or g []) ;;
      ret (push_if (truthy name) name))
  else ret [].

Definition witnesses (text flat : jstring) : M (list jstring) :=
  b <- witnessesBlock text ;;
  pushed <- witnessesOfBlock b ;;
  pushed <- (match pushed with
             | [] => witnessesInline flat
             | _ :: _ => ret pushed
             end) ;;
  ret (set_add_all [] pushed).

Definition ioBlock (text : jstring) : M jstring :=
  block text Pat.heading7 (Pat.numbered "8").

Definition ioInline (flat : jstring) : M jstring :=
  reArr <- literals [Pat.io1; Pat.io2; Pat.io3] ;; pick reArr flat 1 [].

Definition investigatingOfficer (text flat : jstring) : M jstring :=
  b <- ioBlock text ;;
  i <- ioInline flat ;;
  captured b Pat.ioName (ret i).

Definition sections (text : jstring) : M (list jstring) :=
  R1 <- literal Pat.ipcSection ;;
  ms1 <- matchAll text R1 ;;
  let sectionsSet := set_add_all [] (map (Extract.ipc text) ms1) in
  R2 <- literal Pat.sectionIpc ;;
  ms2 <- matchAll text R2 ;;
  ret (set_add_all sectionsSet (map (Extract.ipc text) ms2)).

Definition location (flat policeStation : jstring) : M jstring :=
  reArr <- literals [Pat.location1; Pat.location2; Pat.policeStation; Pat.location4] ;;
  p <- pick reArr flat 1 [] ;;
  let location := or_else p [] in
  again <- (if negb (truthy location) then ret true
            else (R <- literal Pat.reportWord ;; test R location)) ;;
  location <- (if again then
                 R <- literal Pat.locality ;;
                 m <- match_at flat R 1 ;;
                 ret (trim (opt_or m []))
               else ret location) ;;
  R1 <- literal Pat.surveyTail ;;
  a <- replace (or_else location []) R1 [] ;;
  R2 <- literal Pat.spaces ;;
  b <- replace a R2 [RLit (str " ")] ;;
  R3 <- literal Pat.initials ;;
  c <- replace b R3 [RRef 1; RLit (str "."); RRef 2; RLit (str ".")] ;;
  let location := trim c in
  if negb (truthy location) then
    Rs <- literal Pat.rsPuram ;;
    rs <- match_at flat Rs 0 ;;
    Rb <- literal Pat.bharathiNagar ;;
    bn <- match_at flat Rb 0 ;;
    ret (trim (opt_or bn (opt_or rs (or_else policeStation NA))))
  else ret location.

Definition overview (policeStation location firNumber date time : jstring)
  : M jstring :=
  let overviewParts :=
    [str "FIR registered"]
      ++ push_if (Extract.found policeStation) (str "at " ++ policeStation)
      ++ push_if (Extract.found location && negb (jstring_eqb location policeStation))
           (str "(" ++ location ++ str ")")
      ++ push_if (Extract.found firNumber) (str "FIR No: " ++ firNumber)
      ++ push_if (Extract.found date) (str "Date: " ++ date)
      ++ push_if (Extract.found time) (str "Time: " ++ time) in
  R <- literal Pat.spaces ;;
  s <- replace (join (str " ") overviewParts) R [RLit (str " ")] ;;
  ret (trim s).

Definition parseFIR (raw : jstring) : M CaseSummary :=
  if negb (truthy raw) || negb (truthy (trim raw)) then ret empty
  else
    text <- text raw ;;
    flat <- flat text ;;
    policeStation <- policeStation flat ;;
    firNumber <- firNumber flat ;;
    date <- date flat ;;
    time <- time flat ;;
    complainant <- complainant text flat ;;
    accused <- accused text flat ;;
    witnesses <- witnesses text flat ;;
    investigatingOfficer <- investigatingOfficer text flat ;;
    sections <- sections text ;;
    location <- location flat policeStation ;;
    overview <- overview policeStation location firNumber date time ;;
    let keyPoints :=
      Extract.keyPoints complainant accused location sections investigatingOfficer in
    let timeline := Extract.timeline date time in
    ret (mkCaseSummary overview keyPoints
           (mkEntities
              (or_else firNumber NA)
              (or_else policeStation NA)
              (or_else date NA)
              (or_else time NA)
              (or_else complainant NA)
              (or_else accused NA)
              witnesses
              sections
              (or_else location NA)
              (or_else investigatingOfficer NA))
           timeline).

(** The result of a run, whatever heap it leaves. *)
Definition returns {A : Type} (m : M A) (a : A) : Prop := forall h, fst (m h) = a.

End Run.
(** * Properties *)

(** ** Strings *)

Section StringFacts.

Lemma jstring_eqb_eq (a b : jstring) : jstring_eqb a b = true <-> a = b.
Proof.
  revert b; induction a as [|x a IH]; intros [|y b]; simpl; try easy.
  unfold char_eqb. rewrite andb_true_iff, N.eqb_eq, IH.
  split; [intros [-> ->]; reflexivity | intros H; inversion H; auto].
Qed.

Lemma jstring_eqb_refl (a : jstring) : jstring_eqb a a = true.
Proof. apply jstring_eqb_eq; reflexivity. Qed.

Lemma truthy_true (s : jstring) : truthy s = true <-> s <> [].
Proof. destruct s; simpl; split; congruence. Qed.

(** [v || "N/A"] is never the empty string, and is [v] unless [v] is empty. *)
Lemma or_else_NA_cases (v : jstring) :
  (v = [] /\ or_else v NA = NA) \/ (v <> [] /\ or_else v NA = v).
Proof.
  destruct v as [|ch v]; [left | right]; split; try reflexivity; discriminate.
Qed.


Lemma trimStart_all_ws (s : jstring) :
  Forall (fun ch => is_ws ch = true) s -> trimStart s = [].
Proof.
  induction 1 as [|ch s Hch _ IH]; simpl; [reflexivity|]. now rewrite Hch.
Qed.

Lemma trim_all_ws (s : jstring) :
  Forall (fun ch => is_ws ch = true) s -> trim s = [].
Proof. intros H. unfold trim. now rewrite (trimStart_all_ws s H). Qed.

Lemma trimStart_app_nonws (a : jstring) (ch : char) (b : jstring) :
  is_ws ch = false -> exists a', trimStart (a ++ ch :: b) = a' ++ ch :: b.
Proof.
  intros H. induction a as [|x a IH]; simpl.
  - rewrite H. now exists [].
  - destruct (is_ws x); [exact IH | now exists (x :: a)].
Qed.

(** A string with a non-whitespace code unit does not trim to nothing. *)
Lemma trim_keeps_nonws (s : jstring) (ch : char) :
  In ch s -> is_ws ch = false -> In ch (trim s).
Proof.
  intros Hin Hws. apply in_split in Hin as (a & b & ->).
  unfold trim, trimEnd.
  destruct (trimStart_app_nonws a ch b Hws) as [a' ->].
  rewrite rev_app_distr; simpl. rewrite <- app_assoc; simpl.
  destruct (trimStart_app_nonws (rev b) ch (rev a') Hws) as [b' ->].
  rewrite rev_app_distr; simpl. rewrite <- app_assoc. apply in_elt.
Qed.

Lemma trim_nonempty (s : jstring) (ch : char) :
  In ch s -> is_ws ch = false -> trim s <> [].
Proof.
  intros Hin Hws E. pose proof (trim_keeps_nonws s ch Hin Hws) as H.
  rewrite E in H. exact H.
Qed.

End StringFacts.

(** ** The matcher and its relational reading *)

Section MatcherFacts.

Variable ic : bool.

Lemma max_is_zero_true (max : option nat) : max_is_zero max = true -> max = Some O.
Proof. destruct max as [[|k]|]; simpl; congruence. Qed.

Lemma max_is_zero_false (max : option nat) : max_is_zero max = false -> max <> Some O.
Proof. destruct max as [[|k]|]; simpl; congruence. Qed.

Lemma is_zero_true (n : nat) : is_zero n = true -> n = O.
Proof. destruct n; simpl; congruence. Qed.

(** RepeatMatcher succeeds only through a number of iterations of its atom. *)
Lemma repeat_matcher_reps
    (m : MatchState -> Continuation -> option MatchState)
    (R : MatchState -> MatchState -> Prop) (gs : list nat) (greedy : bool) :
  (forall x c z, m x c = Some z -> exists y, R x y /\ c y = Some z) ->
  forall fuel min max x c z,
    repeat_matcher m gs greedy fuel min max x c = Some z ->
    exists n y,
      reps (fun x w => R (with_captures x (cap_clear gs (captures x))) w)
        n min max x y /\ c y = Some z.
Proof.
  intros Hm. induction fuel as [|fuel IH]; intros min max x c z H; [discriminate|].
  cbn [repeat_matcher] in H.
  destruct (max_is_zero max) eqn:Emax.
  { exists O, x. split; [|exact H]. split; [reflexivity|].
    right. now apply max_is_zero_true. }
  apply max_is_zero_false in Emax.
  assert (Hstep :
    m (with_captures x (cap_clear gs (captures x)))
      (fun y => if is_zero min && Nat.eqb (endIndex y) (endIndex x) then None
                else repeat_matcher m gs greedy fuel (Nat.pred min)
                       (option_map Nat.pred max) y c) = Some z ->
    exists n y,
      reps (fun x w => R (with_captures x (cap_clear gs (captures x))) w)
        n min max x y /\ c y = Some z).
  { intros Hs. apply Hm in Hs as (w & Hw & Hd).
    destruct (is_zero min && Nat.eqb (endIndex w) (endIndex x)) eqn:Ez;
      [discriminate|].
    apply IH in Hd as (n & y & Hn & Hc).
    exists (S n), y. split; [|exact Hc].
    split; [exact Emax|]. exists w. split; [exact Hw|]. split; [|exact Hn].
    intros ->. simpl in Ez. now apply Nat.eqb_neq in Ez. }
  assert (Hstop : c x = Some z -> is_zero min = true ->
    exists n y,
      reps (fun x w => R (with_captures x (cap_clear gs (captures x))) w)
        n min max x y /\ c y = Some z).
  { intros Hc Hz. exists O, x. split; [|exact Hc].
    split; [reflexivity|]. left. now apply is_zero_true. }
  destruct (is_zero min) eqn:Ez; cbn [negb] in H.
  - destruct greedy.
    + destruct (m _ _) as [z'|] eqn:E1 in H.
      * injection H as ->. now apply Hstep.
      * now apply Hstop.
    + destruct (c x) as [z'|] eqn:E1.
      * injection H as ->. now apply Hstop.
      * now apply Hstep.
  - now apply Hstep.
Qed.

(** A successful run of the matcher goes through a state that the pattern
    spans to and from which the continuation succeeds. *)
Lemma matcher_span (r : regex) :
  forall x c z, matcher ic r x c = Some z ->
    exists y, span ic r x y /\ c y = Some z.
Proof.
  induction r as [|A inv|r1 IH1 r2 IH2|r1 IH1 r2 IH2|min max greedy r IH
                 |n r IH|positive r IH| | |]; intros x c z H; cbn [matcher] in H.
  - exists x. now split.
  - destruct (rest x) as [|ch rest'] eqn:Er; [discriminate|].
    destruct (Bool.eqb (cs_mem ic A ch) inv) eqn:Em; [discriminate|].
    eexists. split; [|exact H]. cbn [span]. exists ch, rest'. auto.
  - apply IH1 in H as (w & Hw & H). apply IH2 in H as (y & Hy & H).
    exists y. split; [|exact H]. now exists w.
  - destruct (matcher ic r1 x c) as [z'|] eqn:E1.
    + injection H as ->. apply IH1 in E1 as (y & Hy & Hc).
      exists y. split; [now left | exact Hc].
    + apply IH2 in H as (y & Hy & Hc). exists y. split; [now right | exact Hc].
  - apply (repeat_matcher_reps (matcher ic r) (span ic r) (groups r) greedy IH)
      in H as (n & y & Hn & Hc).
    exists y. split; [|exact Hc]. now exists n.
  - apply IH in H as (w & Hw & Hc). eexists. split; [|exact Hc].
    cbn [span]. now exists w.
  - destruct positive.
    + destruct (matcher ic r x Some) as [y|] eqn:E1; [|discriminate].
      apply IH in E1 as (w & Hw & Hs). injection Hs as <-.
      eexists. split; [|exact H]. cbn [span]. now exists w.
    + destruct (matcher ic r x Some) as [y|] eqn:E1; [discriminate|].
      exists x. now split.
  - destruct (prev x) eqn:Ep; [discriminate|]. exists x. now split.
  - destruct (rest x) eqn:Er; [|discriminate]. exists x. now split.
  - destruct (Bool.eqb _ _) eqn:Eb; [discriminate|]. exists x. now split.
Qed.

(** *** What a span reads *)

Lemma last_read_app (p : option char) (u v : jstring) :
  last_read (last_read p u) v = last_read p (u ++ v).
Proof.
  unfold last_read. rewrite rev_app_distr.
  destruct (rev v) as [|ch v']; simpl; [|reflexivity].
  reflexivity.
Qed.

Lemma reads_refl (x : MatchState) : reads [] x x.
Proof. unfold reads. simpl. repeat split. lia. Qed.

Lemma reads_trans (u v : jstring) (x y z : MatchState) :
  reads u x y -> reads v y z -> reads (u ++ v) x z.
Proof.
  intros (H1 & H2 & H3) (K1 & K2 & K3). unfold reads.
  rewrite H1, K1, K2, H2, K3, H3, length_app, <- app_assoc, last_read_app.
  repeat split. lia.
Qed.

Lemma reps_reads (R : MatchState -> MatchState -> Prop) (L : jstring -> Prop) :
  (forall x w, R x w -> exists u, reads u x w /\ L u) ->
  forall n min max x y,
    reps R n min max x y ->
    exists us, reads (List.concat us) x y /\ Forall L us /\ List.length us = n /\
      (match max with Some k => (min <= k)%nat | None => True end -> (min <= n)%nat) /\
      match max with Some k => (n <= k)%nat | None => True end.
Proof.
  intros HR. induction n as [|n IH]; intros min max x y H; cbn [reps] in H.
  - destruct H as (-> & Hz). exists []. split; [apply reads_refl|].
    split; [constructor|]. split; [reflexivity|]. split.
    + destruct Hz as [-> | ->]; [lia | intros; lia].
    + destruct max; [lia | exact I].
  - destruct H as (Hmax & w & Hw & _ & Hn).
    apply HR in Hw as (u & Hu & HL).
    apply IH in Hn as (us & Hus & HLs & Hlen & Hlo & Hhi).
    exists (u :: us). split; [simpl; now apply (reads_trans u (List.concat us) x w y)|].
    split; [now constructor|]. split; [simpl; lia|]. split.
    + destruct max as [k|]; simpl in *; intros; lia.
    + destruct max as [[|k]|]; simpl in *; try congruence; try lia.
Qed.

(** A span reads a text of the language of its pattern. *)
Lemma span_reads (r : regex) :
  forall x y, span ic r x y -> exists u, reads u x y /\ lang ic r u.
Proof.
  induction r as [|A inv|r1 IH1 r2 IH2|r1 IH1 r2 IH2|min max greedy r IH
                 |n r IH|positive r IH| | |]; intros x y H; cbn [span] in H.
  - subst. exists []. split; [apply reads_refl | reflexivity].
  - destruct H as (ch & rest' & Hr & Hm & ->). exists [ch]. split.
    + unfold reads. simpl. rewrite Hr. repeat split. lia.
    + simpl. now exists ch.
  - destruct H as (w & H1 & H2).
    apply IH1 in H1 as (u1 & Hu1 & L1). apply IH2 in H2 as (u2 & Hu2 & L2).
    exists (u1 ++ u2). split; [now apply (reads_trans u1 u2 x w y)|].
    simpl. now exists u1, u2.
  - destruct H as [H | H]; [apply IH1 in H | apply IH2 in H];
      destruct H as (u & Hu & L); exists u; simpl; auto.
  - destruct H as (n & H).
    apply (reps_reads _ (lang ic r)) in H.
    + destruct H as (us & Hus & HL & Hlen & Hlo & Hhi).
      exists (List.concat us). split; [exact Hus|]. simpl. exists us.
      rewrite Hlen. auto.
    + intros x' w Hw. apply IH in Hw as (u & Hu & L). exists u.
      split; [|exact L]. exact Hu.
  - destruct H as (w & Hw & ->). apply IH in Hw as (u & Hu & L).
    exists u. split; [exact Hu | exact L].
  - destruct positive.
    + destruct H as (w & _ & ->). exists []. split; [exact (reads_refl x) | reflexivity].
    + destruct H as (-> & _). exists []. split; [apply reads_refl | reflexivity].
  - destruct H as (-> & _). exists []. split; [apply reads_refl | reflexivity].
  - destruct H as (-> & _). exists []. split; [apply reads_refl | reflexivity].
  - destruct H as (-> & _). exists []. split; [apply reads_refl | reflexivity].
Qed.


(** *** Positions and captures *)

Lemma position_of_state0 (s : jstring) : position_of s (state0 s).
Proof. exists []. repeat split. Qed.

Lemma reads_position (s u : jstring) (x y : MatchState) :
  position_of s x -> reads u x y -> position_of s y.
Proof.
  intros (v & Hs & Hi & Hp) (H1 & H2 & H3). exists (v ++ u).
  rewrite <- app_assoc, <- H1, length_app, H2, H3, Hp, last_read_app. auto.
Qed.

Lemma reads_slice (s u : jstring) (x y : MatchState) :
  position_of s x -> reads u x y ->
  slice (endIndex x) (endIndex y) s = u /\
  (endIndex x <= endIndex y <= List.length s)%nat.
Proof.
  intros (v & Hs & Hi & Hp) (H1 & H2 & H3). unfold slice.
  rewrite H2, Hs, H1, Hi.
  replace (List.length v + List.length u - List.length v)%nat
    with (List.length u) by lia.
  rewrite skipn_app, skipn_all, Nat.sub_diag. simpl.
  rewrite firstn_app, firstn_all, Nat.sub_diag. simpl.
  rewrite app_nil_r, !length_app. split; [reflexivity | lia].
Qed.

Lemma cap_get_clear (n : nat) (gs : list nat) caps v :
  cap_get n (cap_clear gs caps) = Some v -> cap_get n caps = Some v.
Proof.
  induction caps as [|[k w] caps IH]; simpl; [easy|].
  destruct (existsb (Nat.eqb k) gs) eqn:E; simpl.
  - intros H. destruct (Nat.eqb k n) eqn:Ek; [|auto].
    apply Nat.eqb_eq in Ek. subst k. exfalso.
    clear IH. induction caps as [|[k' w'] caps IH]; simpl in H; [discriminate|].
    destruct (existsb (Nat.eqb k') gs) eqn:E'; simpl in H; [auto|].
    destruct (Nat.eqb k' n) eqn:Ek'; [|auto].
    apply Nat.eqb_eq in Ek'. subst. congruence.
  - destruct (Nat.eqb k n); auto.
Qed.

Lemma capture_from_weaken (r r' : regex) (s : jstring) (x y : MatchState) :
  (forall n, incl (group_bodies n r) (group_bodies n r')) ->
  capture_from ic r s x y -> capture_from ic r' s x y.
Proof.
  intros Hincl H n i j Hc. destruct (H n i j Hc) as [Hx | (Hij & body & Hb & HL)];
    [now left | right]. split; [exact Hij|]. exists body. split; [|exact HL].
  now apply (Hincl n).
Qed.

Lemma capture_from_trans (r : regex) (s : jstring) (x w y : MatchState) :
  capture_from ic r s x w -> capture_from ic r s w y -> capture_from ic r s x y.
Proof.
  intros H1 H2 n i j Hc. destruct (H2 n i j Hc) as [Hw | Hs]; [|now right].
  exact (H1 n i j Hw).
Qed.

Lemma reps_captures (r : regex) (s : jstring) :
  (forall x y, position_of s x -> span ic r x y -> capture_from ic r s x y) ->
  forall n min max x y,
    position_of s x ->
    reps (fun x w =>
            span ic r (with_captures x (cap_clear (groups r) (captures x))) w)
      n min max x y ->
    capture_from ic r s x y.
Proof.
  intros Hr. induction n as [|n IH]; intros min max x y Hx H; cbn [reps] in H.
  - destruct H as (-> & _). intros k i j Hc. now left.
  - destruct H as (_ & w & Hw & _ & Hn).
    assert (Hx' : position_of s (with_captures x (cap_clear (groups r) (captures x))))
      by exact Hx.
    pose proof (Hr _ _ Hx' Hw) as Hcw.
    destruct (span_reads r _ _ Hw) as (u & Hu & _).
    pose proof (reads_position s u _ _ Hx' Hu) as Hpw.
    apply (capture_from_trans r s x w y); [|exact (IH _ _ _ _ Hpw Hn)].
    intros k i j Hc. destruct (Hcw k i j Hc) as [Hc' | Hs]; [left | now right].
    cbn [with_captures captures] in Hc'. now apply cap_get_clear in Hc'.
Qed.

Lemma span_captures (r : regex) (s : jstring) :
  forall x y, position_of s x -> span ic r x y -> capture_from ic r s x y.
Proof.
  induction r as [|A inv|r1 IH1 r2 IH2|r1 IH1 r2 IH2|min max greedy r IH
                 |k r IH|positive r IH| | |]; intros x y Hx H; cbn [span] in H.
  - subst. intros n i j Hc. now left.
  - destruct H as (ch & rest' & _ & _ & ->). intros n i j Hc. now left.
  - destruct H as (w & H1 & H2).
    destruct (span_reads r1 _ _ H1) as (u & Hu & _).
    pose proof (reads_position s u _ _ Hx Hu) as Hw.
    apply (capture_from_trans _ s x w y).
    + apply (capture_from_weaken r1); [|now apply IH1].
      intros n. cbn [group_bodies]. apply incl_appl, incl_refl.
    + apply (capture_from_weaken r2); [|now apply IH2].
      intros n. cbn [group_bodies]. apply incl_appr, incl_refl.
  - destruct H as [H | H].
    + apply (capture_from_weaken r1); [|now apply IH1].
      intros n. cbn [group_bodies]. apply incl_appl, incl_refl.
    + apply (capture_from_weaken r2); [|now apply IH2].
      intros n. cbn [group_bodies]. apply incl_appr, incl_refl.
  - destruct H as (n & H). exact (reps_captures r s IH n min max x y Hx H).
  - destruct H as (w & Hw & ->). intros n i j Hc.
    cbn [with_captures captures cap_get] in Hc.
    destruct (Nat.eqb k n) eqn:Ek.
    + injection Hc as <- <-. right.
      destruct (span_reads r _ _ Hw) as (u & Hu & HL).
      destruct (reads_slice s u x w Hx Hu) as (Hsl & Hle).
      split; [exact Hle|]. exists r. split; [|now rewrite Hsl].
      cbn [group_bodies]. rewrite Ek. now left.
    + destruct (IH x w Hx Hw n i j Hc) as [Hc' | (Hij & body & Hb & HL)];
        [now left | right]. split; [exact Hij|]. exists body. split; [|exact HL].
      cbn [group_bodies]. apply in_or_app. now right.
  - destruct positive.
    + destruct H as (w & Hw & ->). exact (IH x w Hx Hw).
    + destruct H as (-> & _). intros n i j Hc. now left.
  - destruct H as (-> & _). intros n i j Hc. now left.
  - destruct H as (-> & _). intros n i j Hc. now left.
  - destruct H as (-> & _). intros n i j Hc. now left.
Qed.

End MatcherFacts.

(** ** Searching for a match *)

Section ExecFacts.

Variable re : RegExp.

Lemma last_read_cons (p : option char) (ch : char) (u : jstring) :
  last_read p (ch :: u) = last_read (Some ch) u.
Proof. exact (eq_sym (last_read_app p [ch] u)). Qed.

(** [exec_loop] returns the first position, from the one it starts at, at
    which the matcher succeeds: [u] is the text skipped. *)
Lemma exec_loop_some (p : option char) (s : jstring) (i : nat) (m : Match) :
  exec_loop re p s i = Some m ->
  exists u v,
    s = u ++ v /\ index m = (i + List.length u)%nat /\
    matcher (ignoreCase re) (pattern re)
      (mkState (last_read p u) v (i + List.length u) []) Some = Some (final m) /\
    forall u1 u2, u = u1 ++ u2 -> u2 <> [] ->
      matcher (ignoreCase re) (pattern re)
        (mkState (last_read p u1) (u2 ++ v) (i + List.length u1) []) Some = None.
Proof.
  revert p i. induction s as [|ch s IH]; intros p i H; cbn [exec_loop] in H.
  - destruct (matcher _ _ _ _) as [y|] eqn:E; [|discriminate].
    injection H as <-. exists [], []. cbn [index final List.length last_read rev].
    rewrite Nat.add_0_r. repeat split; [exact E|].
    intros u1 u2 Hu Hne. destruct u1, u2; simpl in Hu; congruence.
  - destruct (matcher _ _ _ _) as [y|] eqn:E.
    + injection H as <-. exists [], (ch :: s).
      cbn [index final List.length last_read rev]. rewrite Nat.add_0_r.
      repeat split; [exact E|].
      intros u1 u2 Hu Hne. destruct u1, u2; simpl in Hu; congruence.
    + apply IH in H as (u & v & -> & Hi & Hm & Hmin).
      exists (ch :: u), v. rewrite last_read_cons. cbn [List.length].
      replace (i + S (List.length u))%nat with (S i + List.length u)%nat by lia.
      repeat split; [exact Hi | exact Hm |].
      intros u1 u2 Hu Hne. destruct u1 as [|c1 u1].
      * simpl in Hu. subst u2. cbn [last_read rev List.length app].
        rewrite Nat.add_0_r. exact E.
      * injection Hu as <- Hu. rewrite last_read_cons. cbn [List.length].
        replace (i + S (List.length u1))%nat with (S i + List.length u1)%nat by lia.
        now apply Hmin.
Qed.

(** [exec_loop] fails only if the matcher fails at every position. *)
Lemma exec_loop_none (p : option char) (s : jstring) (i : nat) :
  exec_loop re p s i = None ->
  forall u v, s = u ++ v ->
    matcher (ignoreCase re) (pattern re)
      (mkState (last_read p u) v (i + List.length u) []) Some = None.
Proof.
  revert p i. induction s as [|ch s IH]; intros p i H u v Hs; cbn [exec_loop] in H.
  - destruct (matcher _ _ _ _) as [y|] eqn:E; [discriminate|].
    destruct u; [|discriminate]. simpl in Hs. subst v.
    cbn [last_read rev List.length]. now rewrite Nat.add_0_r.
  - destruct (matcher _ _ _ _) as [y|] eqn:E; [discriminate|].
    destruct u as [|c u].
    + simpl in Hs. subst v. cbn [last_read rev List.length].
      now rewrite Nat.add_0_r.
    + injection Hs as <- Hs. rewrite last_read_cons. cbn [List.length].
      replace (i + S (List.length u))%nat with (S i + List.length u)%nat by lia.
      now apply IH.
Qed.

(** A match found in [s] from the position [x]: where it starts, the span
    of the pattern from there, and what it read. *)
Lemma exec_sound (s : jstring) (x : MatchState) (m : Match) :
  position_of s x -> exec re x = Some m ->
  exists x0 u,
    position_of s x0 /\ captures x0 = [] /\ endIndex x0 = index m /\
    (endIndex x <= index m)%nat /\
    span (ignoreCase re) (pattern re) x0 (final m) /\
    reads u x0 (final m) /\ lang (ignoreCase re) (pattern re) u /\
    position_of s (final m).
Proof.
  intros (w & Hs & Hi & Hp) H. unfold exec in H.
  apply exec_loop_some in H as (u & v & Hr & Hidx & Hm & _).
  apply matcher_span in Hm as (y & Hy & Ey). injection Ey as ->.
  destruct (span_reads _ _ _ _ Hy) as (t & Ht & HL).
  assert (Hx0 : position_of s (mkState (last_read (prev x) u) v
                                 (endIndex x + List.length u) [])).
  { exists (w ++ u). cbn [rest endIndex prev].
    rewrite Hs, Hr, <- app_assoc, length_app, Hi, Hp, last_read_app. auto. }
  eexists; exists t. split; [exact Hx0|]. cbn [captures endIndex].
  split; [reflexivity|]. split; [now rewrite Hidx|]. split; [lia|].
  split; [exact Hy|]. split; [exact Ht|]. split; [exact HL|].
  exact (reads_position s t _ _ Hx0 Ht).
Qed.

(** The text of a group of a match is one that the body of a group with
    that number can consume. *)
Lemma match_group_lang (s : jstring) (n : nat) (g : jstring) :
  match_group re s (S n) = Some g ->
  exists body, In body (group_bodies (S n) (pattern re)) /\
               lang (ignoreCase re) body g.
Proof.
  unfold match_group. destruct (exec re (state0 s)) as [m|] eqn:E; [|discriminate].
  destruct (exec_sound s _ m (position_of_state0 s) E)
    as (x0 & u & Hx0 & Hc & _ & _ & Hsp & _).
  cbn [group_text].
  destruct (cap_get (S n) (captures (final m))) as [[i j]|] eqn:Ec; [|discriminate].
  intros H. injection H as <-.
  destruct (span_captures _ _ s x0 (final m) Hx0 Hsp (S n) i j Ec)
    as [Hin | (_ & body & Hb & HL)].
  - rewrite Hc in Hin. discriminate.
  - now exists body.
Qed.

End ExecFacts.

(** ** Global replacement by a pattern that matches at the head of the text *)

Section HeadLocal.

Variable re : RegExp.
Variable hm : jstring -> option nat.

Hypothesis matcher_head : forall p s i,
  matcher (ignoreCase re) (pattern re) (mkState p s i []) Some =
    match hm s with
    | Some k => Some (mkState (last_read p (firstn k s)) (skipn k s) (i + k) [])
    | None => None
    end.

Hypothesis head_bounds : forall s k, hm s = Some k -> (1 <= k <= List.length s)%nat.

Lemma hm_nil : hm [] = None.
Proof.
  destruct (hm []) as [k|] eqn:E; [|reflexivity].
  apply head_bounds in E. simpl in E. lia.
Qed.

Lemma skipn_nth_error (s : jstring) (i : nat) (ch : char) :
  nth_error s i = Some ch -> skipn i s = ch :: skipn (S i) s.
Proof.
  revert i. induction s as [|a s IH]; intros [|i] H; simpl in *; try discriminate.
  - now injection H as ->.
  - now apply IH.
Qed.

(** A code unit before the first match is copied. *)
Lemma replace_matches_skip (s : jstring) (t : list repl_item) (i : nat)
    (ms : list Match) (ch : char) :
  nth_error s i = Some ch ->
  match ms with [] => True | m :: _ => (i < index m)%nat end ->
  replace_matches s t i ms = ch :: replace_matches s t (S i) ms.
Proof.
  intros Hn Hm. destruct ms as [|m ms]; cbn [replace_matches].
  - unfold slice_from. now apply skipn_nth_error.
  - unfold slice. rewrite (skipn_nth_error s i ch Hn).
    replace (index m - i)%nat with (S (index m - S i)) by lia. reflexivity.
Qed.

Lemma scan_first_index (fuel : nat) (x : MatchState) :
  match scan fuel re x with
  | [] => True
  | m :: _ => (endIndex x <= index m)%nat
  end.
Proof.
  destruct fuel as [|fuel]; cbn [scan]; [exact I|].
  destruct (exec re x) as [m|] eqn:E; [|exact I].
  unfold exec in E. apply exec_loop_some in E as (u & v & _ & Hi & _). lia.
Qed.

Lemma scan_rewrite (l : jstring) (n : nat) :
  forall rest done p fuel,
    (List.length rest <= n)%nat -> (List.length rest < fuel)%nat ->
    replace_matches (done ++ rest) [RLit l] (List.length done)
      (scan fuel re (mkState p rest (List.length done) []))
    = rewrite_heads hm l n rest.
Proof.
  induction n as [|n IH]; intros rest done p fuel Hn Hf.
  - destruct rest; [|simpl in Hn; lia]. destruct fuel; [lia|].
    cbn [scan exec exec_loop prev rest endIndex]. rewrite matcher_head, hm_nil.
    cbn [replace_matches rewrite_heads]. unfold slice_from.
    now rewrite skipn_app, skipn_all, Nat.sub_diag.
  - destruct fuel as [|fuel]; [lia|].
    destruct rest as [|ch rest'].
    + cbn [scan exec exec_loop prev rest endIndex]. rewrite matcher_head, hm_nil.
      cbn [replace_matches rewrite_heads]. unfold slice_from.
      now rewrite skipn_app, skipn_all, Nat.sub_diag.
    + cbn [rewrite_heads]. destruct (hm (ch :: rest')) as [k|] eqn:Ek.
      * pose proof (head_bounds _ _ Ek) as Hk.
        cbn [scan exec exec_loop prev rest endIndex]. rewrite matcher_head, Ek.
        cbn [index final endIndex replace_matches restart with_captures
             prev rest captures].
        replace (Nat.eqb (List.length done + k) (List.length done)) with false
          by (symmetry; apply Nat.eqb_neq; lia).
        unfold slice at 1. rewrite Nat.sub_diag. cbn [firstn app substitution flat_map].
        rewrite app_nil_r. f_equal.
        rewrite <- (firstn_skipn k (ch :: rest')) at 1. rewrite app_assoc.
        replace (List.length done + k)%nat
          with (List.length (done ++ firstn k (ch :: rest'))).
        2:{ rewrite length_app, length_firstn. cbn [List.length] in *. lia. }
        apply IH.
        -- rewrite length_skipn. cbn [List.length] in *. lia.
        -- rewrite length_skipn. cbn [List.length] in *. lia.
      * assert (Hscan : scan (S fuel) re (mkState p (ch :: rest') (List.length done) [])
                        = scan (S fuel) re
                            (mkState (Some ch) rest' (S (List.length done)) [])).
        { cbn [scan exec exec_loop prev rest endIndex].
          now rewrite matcher_head, Ek. }
        rewrite Hscan.
        rewrite (replace_matches_skip _ _ _ _ ch).
        -- f_equal.
           replace (done ++ ch :: rest') with ((done ++ [ch]) ++ rest')
             by now rewrite <- app_assoc.
           replace (S (List.length done)) with (List.length (done ++ [ch]))
             by (rewrite length_app; simpl; lia).
           apply IH; simpl in *; lia.
        -- rewrite nth_error_app2, Nat.sub_diag by lia. reflexivity.
        -- generalize (scan_first_index (S fuel)
                         (mkState (Some ch) rest' (S (List.length done)) [])).
           cbn [endIndex].
           destruct (scan (S fuel) re
                       (mkState (Some ch) rest' (S (List.length done)) []))
             as [|m ms]; [easy | intros H; lia].
Qed.

(** [s.replace(re, l)] for such a pattern with the [g] flag. *)
Lemma replace_rewrite (l s : jstring) :
  global re = true ->
  replace re [RLit l] s = rewrite_heads hm l (List.length s) s.
Proof.
  intros Hg. unfold replace, matchAll, state0. rewrite Hg.
  apply (scan_rewrite l (List.length s) s [] None); lia.
Qed.

End HeadLocal.

(** ** Runs of a character set *)

Section Runs.

Variable ic : bool.

Lemma cap_clear_nil caps : cap_clear [] caps = caps.
Proof.
  induction caps as [|a caps IH]; [reflexivity|].
  unfold cap_clear in *. simpl. now f_equal.
Qed.

Lemma with_captures_same (x : MatchState) : with_captures x (captures x) = x.
Proof. now destruct x. Qed.

Lemma matcher_charset (A : list (char * char)) (inv : bool) (p : option char)
    (ch : char) (s : jstring) (i : nat) caps (c : Continuation) :
  matcher ic (CharSet A inv) (mkState p (ch :: s) i caps) c =
    if accepts ic A inv ch then c (mkState (Some ch) s (S i) caps) else None.
Proof.
  cbn [matcher rest endIndex captures]. unfold accepts.
  now destruct (Bool.eqb (cs_mem ic A ch) inv).
Qed.

Lemma matcher_charset_nil (A : list (char * char)) (inv : bool) (p : option char)
    (i : nat) caps (c : Continuation) :
  matcher ic (CharSet A inv) (mkState p [] i caps) c = None.
Proof. reflexivity. Qed.

Lemma skipn_take_while (f : char -> bool) (s : jstring) :
  skipn (List.length (take_while f s)) s = drop_while f s.
Proof.
  induction s as [|ch s IH]; simpl; [reflexivity|].
  destruct (f ch); simpl; [exact IH | reflexivity].
Qed.

Lemma firstn_take_while (f : char -> bool) (s : jstring) :
  firstn (List.length (take_while f s)) s = take_while f s.
Proof.
  induction s as [|ch s IH]; simpl; [reflexivity|].
  destruct (f ch); simpl; [now rewrite IH | reflexivity].
Qed.

Lemma length_take_while (f : char -> bool) (s : jstring) :
  (List.length (take_while f s) <= List.length s)%nat.
Proof.
  induction s as [|ch s IH]; simpl; [lia|]. destruct (f ch); simpl; lia.
Qed.

(** A greedy quantifier over a character set, followed by nothing that can
    fail, takes the longest run. *)
Lemma greedy_run (A : list (char * char)) (inv : bool) :
  forall s fuel min p i caps,
    (List.length s < fuel)%nat ->
    repeat_matcher (matcher ic (CharSet A inv)) [] true fuel min None
      (mkState p s i caps) Some =
    let run := take_while (accepts ic A inv) s in
    if Nat.ltb (List.length run) min then None
    else Some (mkState (last_read p run) (drop_while (accepts ic A inv) s)
                 (i + List.length run) caps).
Proof.
  induction s as [|ch s IH]; intros fuel min p i caps Hf;
    (destruct fuel as [|fuel]; [simpl in Hf; lia|]);
    cbn [repeat_matcher max_is_zero with_captures prev rest endIndex captures
         take_while drop_while]; rewrite cap_clear_nil; cbv zeta;
    unfold with_captures; cbn [prev rest endIndex captures].
  - rewrite matcher_charset_nil. cbn [List.length last_read rev].
    rewrite Nat.add_0_r. destruct min; reflexivity.
  - rewrite matcher_charset. destruct (accepts ic A inv ch) eqn:Ea.
    + cbn [endIndex]. replace (Nat.eqb (S i) i) with false
        by (symmetry; apply Nat.eqb_neq; lia).
      rewrite andb_false_r.
      rewrite IH by (simpl in Hf; lia). cbv zeta.
      cbn [List.length option_map]. rewrite last_read_cons.
      replace (i + S (List.length (take_while (accepts ic A inv) s)))%nat
        with (S i + List.length (take_while (accepts ic A inv) s))%nat by lia.
      destruct min as [|min]; cbn [is_zero negb Nat.pred].
      * reflexivity.
      * change (Nat.ltb (S ?a) (S min)) with (Nat.ltb a min). reflexivity.
    + cbn [List.length last_read rev]. rewrite Nat.add_0_r.
      destruct min; reflexivity.
Qed.

Lemma matcher_quant (min : nat) (max : option nat) (greedy : bool) (r : regex)
    (x : MatchState) (c : Continuation) :
  matcher ic (Quant min max greedy r) x c =
    repeat_matcher (matcher ic r) (groups r) greedy
      (min + List.length (rest x) + 1) min max x c.
Proof. reflexivity. Qed.

Lemma matcher_seq (r1 r2 : regex) (x : MatchState) (c : Continuation) :
  matcher ic (Seq r1 r2) x c = matcher ic r1 x (fun y => matcher ic r2 y c).
Proof. reflexivity. Qed.

Lemma matcher_empty (x : MatchState) (c : Continuation) :
  matcher ic Empty x c = c x.
Proof. reflexivity. Qed.

Lemma eqb_succ_false (i : nat) : Nat.eqb (S i) i = false.
Proof. apply Nat.eqb_neq. lia. Qed.

(** An optional code unit of a character set. *)
Lemma matcher_opt_cls (A : list (char * char)) (inv : bool) (p : option char)
    (ch : char) (s : jstring) (i : nat) caps (c : Continuation) :
  matcher ic (opt (CharSet A inv)) (mkState p (ch :: s) i caps) c =
    if accepts ic A inv ch then
      match c (mkState (Some ch) s (S i) caps) with
      | Some z => Some z
      | None => c (mkState p (ch :: s) i caps)
      end
    else c (mkState p (ch :: s) i caps).
Proof.
  unfold opt. rewrite matcher_quant. cbn [groups rest List.length Nat.add].
  rewrite Nat.add_1_r.
  cbn [repeat_matcher max_is_zero is_zero negb andb].
  unfold with_captures at 1 2. cbn [prev rest endIndex captures].
  rewrite cap_clear_nil, matcher_charset.
  destruct (accepts ic A inv ch); [|reflexivity].
  cbn [endIndex]. rewrite eqb_succ_false. reflexivity.
Qed.

Lemma matcher_opt_cls_nil (A : list (char * char)) (inv : bool) (p : option char)
    (i : nat) caps (c : Continuation) :
  matcher ic (opt (CharSet A inv)) (mkState p [] i caps) c = c (mkState p [] i caps).
Proof.
  unfold opt. rewrite matcher_quant. cbn [groups rest List.length Nat.add].
  cbn [repeat_matcher max_is_zero is_zero negb andb].
  unfold with_captures. cbn [prev rest endIndex captures].
  now rewrite cap_clear_nil, matcher_charset_nil.
Qed.

(** [A+] at the head of a text. *)
Lemma matcher_plus_cls (A : list (char * char)) (p : option char) (s : jstring)
    (i : nat) :
  matcher ic (plus (cls A)) (mkState p s i []) Some =
    match head_run (accepts ic A false) s with
    | Some k => Some (mkState (last_read p (firstn k s)) (skipn k s) (i + k) [])
    | None => None
    end.
Proof.
  unfold plus, cls. rewrite matcher_quant. cbn [groups rest].
  rewrite greedy_run by lia. cbv zeta. unfold head_run.
  rewrite <- (skipn_take_while (accepts ic A false) s).
  rewrite <- (firstn_take_while (accepts ic A false) s) at 2.
  destruct (take_while (accepts ic A false) s) as [|ch run] eqn:E; reflexivity.
Qed.

Lemma head_run_bounds (f : char -> bool) (s : jstring) (k : nat) :
  head_run f s = Some k -> (1 <= k <= List.length s)%nat.
Proof.
  unfold head_run. pose proof (length_take_while f s) as H.
  destruct (take_while f s) as [|ch run]; [discriminate|].
  intros E. injection E as <-. simpl in *. lia.
Qed.

Lemma squeeze_from_run (f : char -> bool) (l s : jstring) :
  squeeze_from f l true s = squeeze_from f l false (drop_while f s).
Proof.
  induction s as [|ch s IH]; simpl; [reflexivity|].
  destruct (f ch) eqn:E; simpl; [exact IH | now rewrite E].
Qed.

Lemma length_drop_while (f : char -> bool) (s : jstring) :
  (List.length (drop_while f s) <= List.length s)%nat.
Proof.
  induction s as [|ch s IH]; simpl; [lia|]. destruct (f ch); simpl; lia.
Qed.

Lemma rewrite_heads_squeeze (f : char -> bool) (l : jstring) (n : nat) :
  forall s, (List.length s <= n)%nat ->
    rewrite_heads (head_run f) l n s = squeeze f l s.
Proof.
  unfold squeeze. induction n as [|n IH]; intros s Hn.
  - destruct s; [reflexivity | simpl in Hn; lia].
  - destruct s as [|ch s]; [reflexivity|].
    cbn [rewrite_heads squeeze_from]. unfold head_run. cbn [take_while].
    destruct (f ch) eqn:E.
    + cbn [List.length skipn]. rewrite skipn_take_while, squeeze_from_run.
      rewrite IH; [reflexivity|].
      pose proof (length_drop_while f s). simpl in Hn. lia.
    + rewrite IH; [reflexivity | simpl in Hn; lia].
Qed.

End Runs.

Section Normalisation.

(** [s.replace(/A+/g, l)] replaces each run of [A] by [l]. *)
Lemma replace_runs (ic : bool) (A : list (char * char)) (l s : jstring) :
  replace (mkRegExp (plus (cls A)) ic true) [RLit l] s
  = squeeze (accepts ic A false) l s.
Proof.
  rewrite (replace_rewrite (mkRegExp (plus (cls A)) ic true)
             (head_run (accepts ic A false))).
  - now apply rewrite_heads_squeeze.
  - intros p t i. apply matcher_plus_cls.
  - apply head_run_bounds.
  - reflexivity.
Qed.

Lemma accepts_ws (ch : char) : accepts false ws_ranges false ch = is_ws ch.
Proof.
  unfold accepts, cs_mem, is_ws. cbn [andb]. rewrite orb_false_r.
  now destruct (in_ranges ws_ranges ch).
Qed.

Lemma squeeze_ext (f g : char -> bool) (l s : jstring) :
  (forall ch, f ch = g ch) -> squeeze f l s = squeeze g l s.
Proof.
  intros H. unfold squeeze. generalize false.
  induction s as [|ch s IH]; intros b; simpl; [reflexivity|].
  now rewrite H, !IH.
Qed.

(** [s.replace(/\s+/g, " ")] *)
Lemma replace_spaces (s : jstring) :
  replace Pat.spaces [RLit (str " ")] s = squeeze is_ws [32] s.
Proof.
  unfold Pat.spaces, re_g, ws. rewrite replace_runs.
  apply squeeze_ext, accepts_ws.
Qed.

(** A blank of a line: a space or a tab. *)
Lemma accepts_blank (ch : char) :
  accepts false [one " "; (TAB, TAB)] false ch = (char_eqb ch 32 || char_eqb ch 9).
Proof.
  unfold accepts, cs_mem, in_ranges, in_range, char_eqb, TAB.
  cbn [existsb fst snd one andb]. change (N_of_ascii " ") with 32.
  rewrite !orb_false_r.
  destruct (N.eqb_spec ch 32) as [-> | H1]; [reflexivity|].
  destruct (N.eqb_spec ch 9) as [-> | H2]; [reflexivity|].
  destruct (N.leb_spec 32 ch), (N.leb_spec ch 32), (N.leb_spec 9 ch),
    (N.leb_spec ch 9); simpl; try reflexivity; lia.
Qed.

End Normalisation.

(** ** Line ends, collapsed white space and trimming *)

Section Tidy.

Lemma char_eqb_eq (a b : char) : char_eqb a b = true <-> a = b.
Proof. apply N.eqb_eq. Qed.

Lemma accepts_single (ic : bool) (a ch : char) :
  (a < 65 \/ 122 < a) ->
  accepts ic [(a, a)] false ch = char_eqb ch a.
Proof.
  intros Ha. unfold accepts, cs_mem, in_ranges, in_range, to_upper, to_lower,
    in_range, char_eqb. cbn [existsb fst snd].
  rewrite !orb_false_r.
  destruct (N.eqb_spec ch a) as [-> | Hne].
  - rewrite !N.leb_refl. reflexivity.
  - assert (E : (a <=? ch) && (ch <=? a) = false).
    { apply andb_false_iff.
      destruct (N.leb_spec a ch); [right; apply N.leb_gt; lia | now left]. }
    rewrite E. destruct ic; [|reflexivity]. cbn [orb andb Bool.eqb negb].
    destruct ((97 <=? ch) && (ch <=? 122)) eqn:E1;
      destruct ((65 <=? ch) && (ch <=? 90)) eqn:E2;
      rewrite ?E; cbn [orb];
      try (apply andb_true_iff in E1 as [E1a E1b]; apply N.leb_le in E1a, E1b);
      try (apply andb_true_iff in E2 as [E2a E2b]; apply N.leb_le in E2a, E2b);
      try reflexivity;
      repeat match goal with
             | |- context [(?x <=? ?y)] => destruct (N.leb_spec x y)
             end; cbn [andb orb negb Bool.eqb]; try reflexivity; lia.
Qed.

Lemma matcher_crlf (p : option char) (s : jstring) (i : nat) :
  matcher (ignoreCase Pat.crlf) (pattern Pat.crlf) (mkState p s i []) Some =
    match head_crlf s with
    | Some k => Some (mkState (last_read p (firstn k s)) (skipn k s) (i + k) [])
    | None => None
    end.
Proof.
  unfold Pat.crlf, re_g, seq, cls. cbn [ignoreCase pattern fold_right].
  rewrite matcher_seq. destruct s as [|ch s]; [reflexivity|].
  rewrite matcher_charset, (accepts_single false CR ch) by (unfold CR; lia).
  cbn [head_crlf]. destruct (char_eqb ch CR) eqn:E; [|reflexivity].
  apply char_eqb_eq in E. subst ch. rewrite matcher_seq.
  destruct s as [|ch' s].
  - rewrite matcher_opt_cls_nil, matcher_empty.
    cbn [firstn skipn last_read rev app]. now rewrite Nat.add_1_r.
  - rewrite matcher_opt_cls, (accepts_single false LF ch') by (unfold LF; lia).
    rewrite !matcher_empty. destruct (char_eqb ch' LF).
    + cbn [firstn skipn last_read rev app].
      replace (i + 2)%nat with (S (S i)) by lia. reflexivity.
    + cbn [firstn skipn last_read rev app]. now rewrite Nat.add_1_r.
Qed.

Lemma head_crlf_bounds (s : jstring) (k : nat) :
  head_crlf s = Some k -> (1 <= k <= List.length s)%nat.
Proof.
  destruct s as [|ch [|ch' s]]; simpl; try discriminate;
    destruct (char_eqb ch CR); try discriminate.
  - intros E; injection E as <-. lia.
  - destruct (char_eqb ch' LF); intros E; injection E as <-; lia.
Qed.

Lemma rewrite_heads_unix_lines (n : nat) :
  forall s, (List.length s <= n)%nat ->
    rewrite_heads head_crlf [LF] n s = unix_lines s.
Proof.
  induction n as [|n IH]; intros s Hn.
  - destruct s; [reflexivity | simpl in Hn; lia].
  - destruct s as [|ch s]; [reflexivity|].
    cbn [rewrite_heads head_crlf unix_lines].
    destruct (char_eqb ch CR).
    + destruct s as [|ch' s]; cbn [skipn app].
      * destruct n; reflexivity.
      * destruct (char_eqb ch' LF); cbn [skipn];
          (rewrite IH; [reflexivity | cbn [List.length] in *; lia]).
    + rewrite IH; [reflexivity | cbn [List.length] in *; lia].
Qed.

(** [raw.replace(/\r\n?/g, "\n")] turns every line end into LF. *)
Lemma text_unix_lines (raw : jstring) : Extract.text raw = unix_lines raw.
Proof.
  unfold Extract.text.
  rewrite (replace_rewrite Pat.crlf head_crlf matcher_crlf head_crlf_bounds)
    by reflexivity.
  now apply rewrite_heads_unix_lines.
Qed.

(** [text.replace(/[ \t]+/g, " ").trim()] *)
Lemma flat_squeeze (text : jstring) :
  Extract.flat text =
    trim (squeeze (fun ch => char_eqb ch 32 || char_eqb ch 9) [32] text).
Proof.
  unfold Extract.flat, Pat.blanks, re_g. rewrite replace_runs.
  f_equal. apply squeeze_ext, accepts_blank.
Qed.

(** *** Trimming *)

Lemma trimStart_app (u v : jstring) :
  trimStart (u ++ v) =
    match trimStart u with
    | [] => trimStart v
    | w => w ++ v
    end.
Proof.
  induction u as [|a u IH]; [reflexivity|]. simpl.
  destruct (is_ws a); [exact IH | reflexivity].
Qed.

Lemma trimEnd_cons (a : char) (s : jstring) :
  trimEnd (a :: s) =
    match trimEnd s with
    | [] => if is_ws a then [] else [a]
    | t => a :: t
    end.
Proof.
  unfold trimEnd. cbn [rev]. rewrite trimStart_app.
  destruct (trimStart (rev s)) as [|b w] eqn:E.
  - simpl. now destruct (is_ws a).
  - cbn [rev]. rewrite rev_app_distr. simpl.
    destruct (rev w ++ [b]) eqn:E'; [|reflexivity].
    now destruct (rev w).
Qed.

Lemma trimEnd_head (a : char) (s : jstring) :
  trimEnd (a :: s) = [] \/ exists t, trimEnd (a :: s) = a :: t.
Proof.
  rewrite trimEnd_cons. destruct (trimEnd s).
  - destruct (is_ws a); [now left | right; now exists []].
  - right. eauto.
Qed.

Lemma trimStart_starts_clean (s : jstring) : starts_clean (trimStart s).
Proof.
  induction s as [|a s IH]; cbn [trimStart]; [exact I|].
  destruct (is_ws a) eqn:E; [exact IH | exact E].
Qed.

Lemma loosely_spaced_trimStart (s : jstring) :
  loosely_spaced s -> loosely_spaced (trimStart s).
Proof.
  induction s as [|a s IH]; cbn [trimStart]; [easy|].
  intros H. destruct (is_ws a) eqn:E; [apply IH, H | exact H].
Qed.

Lemma single_spaced_trimEnd (s : jstring) :
  loosely_spaced s -> single_spaced (trimEnd s).
Proof.
  induction s as [|a s IH]; [easy|].
  intros [Ha Hs]. rewrite trimEnd_cons. specialize (IH Hs).
  destruct (trimEnd s) as [|b t] eqn:E.
  - destruct (is_ws a) eqn:Ea; [exact I|]. split; [congruence | exact I].
  - split; [|exact IH]. intros Hw. destruct (Ha Hw) as [-> Hnext].
    split; [reflexivity|].
    destruct s as [|b' s']; [discriminate|].
    destruct (trimEnd_head b' s') as [E0 | (t' & E')]; rewrite E in *;
      [discriminate|]. injection E' as -> _. exact Hnext.
Qed.

Lemma starts_clean_trimEnd (s : jstring) :
  starts_clean s -> starts_clean (trimEnd s).
Proof.
  destruct s as [|a s]; [easy|]. intros H.
  destruct (trimEnd_head a s) as [-> | (t & ->)]; [exact I | exact H].
Qed.

Lemma tidy_trim (s : jstring) : loosely_spaced s -> tidy (trim s).
Proof.
  intros H. unfold trim. split.
  - apply starts_clean_trimEnd, trimStart_starts_clean.
  - now apply single_spaced_trimEnd, loosely_spaced_trimStart.
Qed.

Lemma loosely_spaced_squeeze (s : jstring) (b : bool) :
  loosely_spaced (squeeze_from is_ws [32] b s) /\
  (b = true -> starts_clean (squeeze_from is_ws [32] b s)).
Proof.
  revert b. induction s as [|a s IH]; intros b; [now split|].
  cbn [squeeze_from]. destruct (is_ws a) eqn:Ea.
  - destruct (IH true) as [Hl Hc]. destruct b; cbn [app].
    + split; [exact Hl | exact Hc].
    + split; [|discriminate]. split; [|exact Hl].
      intros _. split; [reflexivity|]. specialize (Hc eq_refl).
      destruct (squeeze_from is_ws [32] true s); [exact I | exact Hc].
  - destruct (IH false) as [Hl _]. split; [|intros _; exact Ea].
    split; [congruence | exact Hl].
Qed.


End Tidy.

(** ** The fuel of RepeatMatcher is never exhausted *)

Section Fuel.

Variable ic : bool.


Lemma repeat_matcher_agree
    (m : MatchState -> Continuation -> option MatchState) (gs : list nat)
    (greedy : bool) :
  (forall x c1 c2, agree_from x c1 c2 -> m x c1 = m x c2) ->
  forall fuel min max x c1 c2,
    agree_from x c1 c2 ->
    repeat_matcher m gs greedy fuel min max x c1
    = repeat_matcher m gs greedy fuel min max x c2.
Proof.
  intros Hm. induction fuel as [|fuel IH]; intros min max x c1 c2 Hc;
    [reflexivity|].
  cbn [repeat_matcher].
  rewrite (Hc [] x (reads_refl x)).
  assert (E : m (with_captures x (cap_clear gs (captures x)))
                (fun y => if is_zero min && Nat.eqb (endIndex y) (endIndex x)
                          then None
                          else repeat_matcher m gs greedy fuel (Nat.pred min)
                                 (option_map Nat.pred max) y c1)
              = m (with_captures x (cap_clear gs (captures x)))
                  (fun y => if is_zero min && Nat.eqb (endIndex y) (endIndex x)
                            then None
                            else repeat_matcher m gs greedy fuel (Nat.pred min)
                                   (option_map Nat.pred max) y c2)).
  { apply Hm. intros u y Hu.
    destruct (is_zero min && Nat.eqb (endIndex y) (endIndex x)); [reflexivity|].
    apply IH. intros v z Hv. apply (Hc (u ++ v)).
    exact (reads_trans u v x y z Hu Hv). }
  now rewrite E.
Qed.

Lemma matcher_agree (r : regex) :
  forall x c1 c2, agree_from x c1 c2 -> matcher ic r x c1 = matcher ic r x c2.
Proof.
  induction r as [|A inv|r1 IH1 r2 IH2|r1 IH1 r2 IH2|min max greedy r IH
                 |n r IH|positive r IH| | |]; intros x c1 c2 Hc; cbn [matcher].
  - exact (Hc [] x (reads_refl x)).
  - destruct (rest x) as [|ch s] eqn:Er; [reflexivity|].
    destruct (Bool.eqb (cs_mem ic A ch) inv); [reflexivity|].
    apply (Hc [ch]). unfold reads. cbn [rest endIndex prev List.length app].
    rewrite Er. repeat split. lia.
  - apply IH1. intros u y Hu. apply IH2. intros v z Hv.
    apply (Hc (u ++ v)). exact (reads_trans u v x y z Hu Hv).
  - now rewrite (IH1 x c1 c2 Hc), (IH2 x c1 c2 Hc).
  - now apply repeat_matcher_agree.
  - apply IH. intros u y Hu. apply (Hc u). exact Hu.
  - destruct positive.
    + destruct (matcher ic r x Some) as [w|]; [|reflexivity].
      apply (Hc []). exact (reads_refl x).
    + destruct (matcher ic r x Some); [reflexivity|].
      exact (Hc [] x (reads_refl x)).
  - destruct (prev x); [reflexivity | exact (Hc [] x (reads_refl x))].
  - destruct (rest x); [exact (Hc [] x (reads_refl x)) | reflexivity].
  - destruct (Bool.eqb _ _); [reflexivity | exact (Hc [] x (reads_refl x))].
Qed.

Lemma repeat_matcher_S (m : MatchState -> Continuation -> option MatchState)
    (gs : list nat) (greedy : bool) (fuel min : nat) (max : option nat)
    (x : MatchState) (c : Continuation) :
  repeat_matcher m gs greedy (S fuel) min max x c =
    if max_is_zero max then c x
    else if negb (is_zero min) then
      m (with_captures x (cap_clear gs (captures x)))
        (fun y => if is_zero min && Nat.eqb (endIndex y) (endIndex x) then None
                  else repeat_matcher m gs greedy fuel (Nat.pred min)
                         (option_map Nat.pred max) y c)
    else if greedy then
      match m (with_captures x (cap_clear gs (captures x)))
              (fun y => if is_zero min && Nat.eqb (endIndex y) (endIndex x) then None
                        else repeat_matcher m gs greedy fuel (Nat.pred min)
                               (option_map Nat.pred max) y c) with
      | Some z => Some z
      | None => c x
      end
    else
      match c x with
      | Some z => Some z
      | None =>
          m (with_captures x (cap_clear gs (captures x)))
            (fun y => if is_zero min && Nat.eqb (endIndex y) (endIndex x) then None
                      else repeat_matcher m gs greedy fuel (Nat.pred min)
                             (option_map Nat.pred max) y c)
      end.
Proof. reflexivity. Qed.



End Fuel.

(** ** Enumerating the matches of a pattern *)

Section Scan.

Variable re : RegExp.

Lemma state_at_shift (T u v : jstring) (i : nat) :
  (i <= List.length T)%nat -> skipn i T = u ++ v ->
  mkState (last_read (last_read None (firstn i T)) u) v (i + List.length u) []
  = state_at T (i + List.length u).
Proof.
  intros Hi Hs. unfold state_at.
  assert (HT : T = (firstn i T ++ u) ++ v).
  { rewrite <- app_assoc, <- Hs. now rewrite firstn_skipn. }
  assert (Hl : (i + List.length u)%nat = List.length (firstn i T ++ u)).
  { rewrite length_app, length_firstn. lia. }
  rewrite last_read_app.
  assert (E1 : firstn (i + List.length u) T = firstn i T ++ u).
  { rewrite HT at 1. rewrite Hl, firstn_app, firstn_all, Nat.sub_diag.
    cbn [firstn]. now rewrite app_nil_r. }
  assert (E2 : skipn (i + List.length u) T = v).
  { rewrite HT at 1. rewrite Hl, skipn_app, skipn_all, Nat.sub_diag. reflexivity. }
  now rewrite E1, E2.
Qed.

Lemma state_at_position (T : jstring) (k : nat) :
  (k <= List.length T)%nat -> position_of T (state_at T k).
Proof.
  intros Hk. exists (firstn k T). cbn [state_at rest endIndex prev].
  rewrite firstn_skipn, length_firstn. repeat split. lia.
Qed.

Lemma position_restart (T : jstring) (y : MatchState) :
  position_of T y -> restart y = state_at T (endIndex y).
Proof.
  intros (w & HT & Hi & Hp). unfold restart, with_captures, state_at.
  rewrite Hi, Hp, HT, firstn_app, firstn_all, Nat.sub_diag.
  cbn [firstn]. rewrite app_nil_r, skipn_app, skipn_all, Nat.sub_diag. reflexivity.
Qed.

Lemma state_at_0 (T : jstring) : state_at T 0 = state0 T.
Proof. reflexivity. Qed.

(** [exec] from the position [i] finds the first position, from [i] on, at
    which the matcher succeeds. *)
Lemma exec_first (T : jstring) (i k0 : nat) (y0 : MatchState) :
  (i <= k0 <= List.length T)%nat ->
  matcher (ignoreCase re) (pattern re) (state_at T k0) Some = Some y0 ->
  exists m,
    exec re (state_at T i) = Some m /\ (i <= index m <= k0)%nat /\
    matcher (ignoreCase re) (pattern re) (state_at T (index m)) Some
      = Some (final m) /\
    (index m = k0 -> final m = y0).
Proof.
  intros Hik Hm. unfold exec. cbn [state_at prev rest endIndex].
  assert (Hi : (i <= List.length T)%nat) by lia.
  destruct (exec_loop re (last_read None (firstn i T)) (skipn i T) i) as [m|] eqn:E.
  - apply exec_loop_some in E as (u & v & Hs & Hidx & Hmm & Hmin).
    rewrite (state_at_shift T u v i Hi Hs), <- Hidx in Hmm.
    exists m. split; [reflexivity|].
    assert (Hle : (index m <= k0)%nat).
    { destruct (Nat.le_gt_cases (index m) k0) as [H | H]; [exact H|]. exfalso.
      assert (Hu : (k0 - i < List.length u)%nat) by lia.
      specialize (Hmin (firstn (k0 - i) u) (skipn (k0 - i) u)
                    (eq_sym (firstn_skipn _ _))).
      assert (Hne : skipn (k0 - i) u <> []).
      { intros E0. apply (f_equal (@List.length char)) in E0.
        rewrite length_skipn in E0. simpl in E0. lia. }
      specialize (Hmin Hne).
      assert (Hs' : skipn i T = firstn (k0 - i) u ++ (skipn (k0 - i) u ++ v)).
      { now rewrite app_assoc, firstn_skipn. }
      rewrite (state_at_shift T _ _ i Hi Hs'), length_firstn in Hmin.
      replace (i + Nat.min (k0 - i) (List.length u))%nat with k0 in Hmin by lia.
      congruence. }
    split; [lia|]. split; [exact Hmm|].
    intros Hk. rewrite Hk in Hmm. congruence.
  - exfalso.
    pose proof (exec_loop_none re _ _ _ E (firstn (k0 - i) (skipn i T))
                  (skipn (k0 - i) (skipn i T)) (eq_sym (firstn_skipn _ _))) as Hn.
    rewrite (state_at_shift T _ _ i Hi (eq_sym (firstn_skipn _ _))) in Hn.
    rewrite length_firstn, length_skipn in Hn.
    replace (i + Nat.min (k0 - i) (List.length T - i))%nat with k0 in Hn by lia.
    congruence.
Qed.

(** A match at the position [k0] is enumerated when no earlier match
    reaches beyond [k0]. *)
Lemma scan_finds (T : jstring) (k0 : nat) (y0 : MatchState) :
  (k0 <= List.length T)%nat ->
  matcher (ignoreCase re) (pattern re) (state_at T k0) Some = Some y0 ->
  (forall k y, (k < k0)%nat ->
     matcher (ignoreCase re) (pattern re) (state_at T k) Some = Some y ->
     (k < endIndex y <= k0)%nat) ->
  forall n i fuel,
    (k0 - i <= n)%nat -> (i <= k0)%nat -> (k0 - i < fuel)%nat ->
    In (mkMatch k0 y0) (scan fuel re (state_at T i)).
Proof.
  intros Hk0 Hm Hno. induction n as [|n IH]; intros i fuel Hn Hi Hf;
    (destruct fuel as [|fuel]; [lia|]); cbn [scan];
    destruct (exec_first T i k0 y0 (conj Hi Hk0) Hm) as (m & -> & Hidx & Hmm & Heq).
  - assert (Hk : index m = k0) by lia. left.
    destruct m as [j y]. cbn [index final] in *. subst j. now rewrite (Heq eq_refl).
  - destruct (Nat.eq_dec (index m) k0) as [Hk | Hk].
    + left. destruct m as [j y]. cbn [index final] in *. subst j.
      now rewrite (Heq eq_refl).
    + right.
      assert (Hlt : (index m < k0)%nat) by lia.
      destruct (Hno _ _ Hlt Hmm) as [He1 He2].
      replace (Nat.eqb (endIndex (final m)) (index m)) with false
        by (symmetry; apply Nat.eqb_neq; lia).
      assert (Hpos : position_of T (final m)).
      { apply matcher_span in Hmm as (y & Hy & Ey). injection Ey as ->.
        destruct (span_reads _ _ _ _ Hy) as (u & Hu & _).
        apply (reads_position T u (state_at T (index m))); [|exact Hu].
        apply state_at_position. lia. }
      rewrite (position_restart T _ Hpos). apply IH; lia.
Qed.

Lemma matchAll_finds (T : jstring) (k0 : nat) (y0 : MatchState) :
  (k0 <= List.length T)%nat ->
  matcher (ignoreCase re) (pattern re) (state_at T k0) Some = Some y0 ->
  (forall k y, (k < k0)%nat ->
     matcher (ignoreCase re) (pattern re) (state_at T k) Some = Some y ->
     (k < endIndex y <= k0)%nat) ->
  In (mkMatch k0 y0) (matchAll re T).
Proof.
  intros Hk0 Hm Hno. unfold matchAll. rewrite <- state_at_0.
  apply (scan_finds T k0 y0 Hk0 Hm Hno k0); lia.
Qed.

(** The text read by a successful run of the matcher at a position. *)
Lemma matcher_reads (T : jstring) (k : nat) (y : MatchState) :
  (k <= List.length T)%nat ->
  matcher (ignoreCase re) (pattern re) (state_at T k) Some = Some y ->
  exists u, lang (ignoreCase re) (pattern re) u /\
            endIndex y = (k + List.length u)%nat /\
            skipn k T = u ++ rest y.
Proof.
  intros Hk Hm. apply matcher_span in Hm as (y' & Hy & Ey). injection Ey as ->.
  destruct (span_reads _ _ _ _ Hy) as (u & (H1 & H2 & _) & HL).
  exists u. cbn [state_at rest endIndex] in H1, H2. auto.
Qed.




End Scan.

Section MayContain.

Lemma lang_may_contain (ic : bool) (r : regex) :
  forall u, lang ic r u -> Forall (fun ch => may_contain ic r ch = true) u.
Proof.
  induction r as [|A inv|r1 IH1 r2 IH2|r1 IH1 r2 IH2|min max greedy r IH
                 |n r IH|positive r IH| | |]; intros u H; cbn [lang] in H;
    cbn [may_contain]; try (subst; constructor).
  - destruct H as (ch & -> & Ha). constructor; [|constructor].
    unfold accepts. now rewrite Ha.
  - destruct H as (u1 & u2 & -> & H1 & H2). apply Forall_app. split.
    + eapply Forall_impl; [|exact (IH1 _ H1)]. intros ch ->. reflexivity.
    + eapply Forall_impl; [|exact (IH2 _ H2)]. intros ch ->. apply orb_true_r.
  - destruct H as [H | H].
    + eapply Forall_impl; [|exact (IH1 _ H)]. intros ch ->. reflexivity.
    + eapply Forall_impl; [|exact (IH2 _ H)]. intros ch ->. apply orb_true_r.
  - destruct H as (us & -> & Hus & _). induction Hus as [|a us Ha _ IHus];
      [constructor|]. cbn [List.concat]. apply Forall_app. split; [now apply IH | exact IHus].
  - now apply IH.
Qed.

Lemma occurrences_once (x : jstring) (l : list jstring) :
  NoDup l -> In x l -> occurrences x l = 1%nat.
Proof.
  unfold occurrences. induction 1 as [|a l Ha Hl IH]; [easy|].
  intros Hin. cbn [filter]. destruct (jstring_eqb x a) eqn:E.
  - apply jstring_eqb_eq in E. subst a. cbn [List.length]. f_equal.
    assert (Hnone : forall l', ~ In x l' -> filter (jstring_eqb x) l' = []).
    { induction l' as [|b l' IHl']; [easy|]. intros Hn. cbn [filter].
      destruct (jstring_eqb x b) eqn:Eb.
      - apply jstring_eqb_eq in Eb. subst. exfalso. apply Hn. now left.
      - apply IHl'. intros H. apply Hn. now right. }
    now rewrite Hnone.
  - apply IH. destruct Hin as [-> | Hin]; [|exact Hin].
    now rewrite jstring_eqb_refl in E.
Qed.

End MayContain.

(** ** The matcher does not depend on where the input starts *)

Section Shift.

Variable ic : bool.

(** What is done to the result of the continuation can be done to the
    result of the matcher. *)
Lemma repeat_matcher_map
    (m : MatchState -> Continuation -> option MatchState) (gs : list nat)
    (greedy : bool) (g : MatchState -> MatchState) :
  (forall x c, m x (fun y => option_map g (c y)) = option_map g (m x c)) ->
  (forall x c1 c2, agree_from x c1 c2 -> m x c1 = m x c2) ->
  forall fuel min max x c,
    repeat_matcher m gs greedy fuel min max x (fun y => option_map g (c y))
    = option_map g (repeat_matcher m gs greedy fuel min max x c).
Proof.
  intros Hm Hag. induction fuel as [|fuel IH]; intros min max x c; [reflexivity|].
  rewrite !repeat_matcher_S.
  assert (E : m (with_captures x (cap_clear gs (captures x)))
                (fun y => if is_zero min && Nat.eqb (endIndex y) (endIndex x)
                          then None
                          else repeat_matcher m gs greedy fuel (Nat.pred min)
                                 (option_map Nat.pred max) y
                                 (fun y0 => option_map g (c y0)))
              = option_map g
                  (m (with_captures x (cap_clear gs (captures x)))
                     (fun y => if is_zero min && Nat.eqb (endIndex y) (endIndex x)
                               then None
                               else repeat_matcher m gs greedy fuel (Nat.pred min)
                                      (option_map Nat.pred max) y c))).
  { rewrite <- Hm. apply Hag. intros u y _.
    destruct (is_zero min && Nat.eqb (endIndex y) (endIndex x)); [reflexivity|].
    apply IH. }
  rewrite E. destruct (max_is_zero max); [reflexivity|].
  destruct (negb (is_zero min)); [reflexivity|].
  destruct greedy.
  - match goal with
    | |- context [option_map g (m ?a ?b)] => destruct (m a b)
    end; reflexivity.
  - destruct (c x); reflexivity.
Qed.

Lemma matcher_map (g : MatchState -> MatchState) (r : regex) :
  forall x c,
    matcher ic r x (fun y => option_map g (c y)) = option_map g (matcher ic r x c).
Proof.
  induction r as [|A inv|r1 IH1 r2 IH2|r1 IH1 r2 IH2|min max greedy r IH
                 |n r IH|positive r IH| | |]; intros x c; cbn [matcher].
  - reflexivity.
  - destruct (rest x); [reflexivity|]. destruct (Bool.eqb _ _); reflexivity.
  - rewrite <- IH1. apply matcher_agree. intros u y _. apply IH2.
  - rewrite IH1, IH2. destruct (matcher ic r1 x c); reflexivity.
  - apply repeat_matcher_map; [exact IH | apply matcher_agree].
  - rewrite <- IH. reflexivity.
  - destruct positive; destruct (matcher ic r x Some); reflexivity.
  - destruct (prev x); reflexivity.
  - destruct (rest x); reflexivity.
  - destruct (Bool.eqb _ _); reflexivity.
Qed.

Lemma shift_caps_clear (k : nat) (gs : list nat) caps :
  cap_clear gs (shift_caps k caps) = shift_caps k (cap_clear gs caps).
Proof.
  unfold cap_clear, shift_caps. induction caps as [|a caps IH]; [reflexivity|].
  cbn [map filter fst]. destruct (negb (existsb (Nat.eqb (fst a)) gs));
    cbn [map]; now rewrite IH.
Qed.

Lemma shift_with_captures (k : nat) (x : MatchState) caps :
  with_captures (shift k x) (shift_caps k caps) = shift k (with_captures x caps).
Proof. reflexivity. Qed.

Lemma repeat_matcher_shift
    (m : MatchState -> Continuation -> option MatchState) (gs : list nat)
    (greedy : bool) (k : nat) :
  (forall x c, m (shift k x) c = m x (fun y => c (shift k y))) ->
  (forall x c1 c2, agree_from x c1 c2 -> m x c1 = m x c2) ->
  forall fuel min max x c,
    repeat_matcher m gs greedy fuel min max (shift k x) c
    = repeat_matcher m gs greedy fuel min max x (fun y => c (shift k y)).
Proof.
  intros Hm Hag. induction fuel as [|fuel IH]; intros min max x c; [reflexivity|].
  rewrite !repeat_matcher_S.
  assert (E : m (with_captures (shift k x) (cap_clear gs (captures (shift k x))))
                (fun y => if is_zero min && Nat.eqb (endIndex y) (endIndex (shift k x))
                          then None
                          else repeat_matcher m gs greedy fuel (Nat.pred min)
                                 (option_map Nat.pred max) y c)
              = m (with_captures x (cap_clear gs (captures x)))
                  (fun y => if is_zero min && Nat.eqb (endIndex y) (endIndex x)
                            then None
                            else repeat_matcher m gs greedy fuel (Nat.pred min)
                                   (option_map Nat.pred max) y
                                   (fun y0 => c (shift k y0)))).
  { cbn [shift captures]. rewrite shift_caps_clear, shift_with_captures, Hm.
    apply Hag. intros u y _. cbn [shift endIndex].
    replace (Nat.eqb (endIndex y + k) (endIndex x + k))
      with (Nat.eqb (endIndex y) (endIndex x)).
    2:{ destruct (Nat.eqb_spec (endIndex y) (endIndex x)) as [-> | Hne].
        - symmetry. apply Nat.eqb_refl.
        - symmetry. apply Nat.eqb_neq. lia. }
    destruct (is_zero min && Nat.eqb (endIndex y) (endIndex x)); [reflexivity|].
    apply IH. }
  now rewrite E.
Qed.

(** Matching from a state moved by [k] is matching from the state and
    moving the result. *)
Lemma matcher_shift (k : nat) (r : regex) :
  forall x c, matcher ic r (shift k x) c = matcher ic r x (fun y => c (shift k y)).
Proof.
  induction r as [|A inv|r1 IH1 r2 IH2|r1 IH1 r2 IH2|min max greedy r IH
                 |n r IH|positive r IH| | |]; intros x c; cbn [matcher].
  - reflexivity.
  - cbn [shift rest]. destruct (rest x); [reflexivity|].
    destruct (Bool.eqb _ _); reflexivity.
  - rewrite IH1. apply matcher_agree. intros u y _. apply IH2.
  - now rewrite IH1, IH2.
  - cbn [shift rest].
    apply (repeat_matcher_shift (matcher ic r) (groups r) greedy k IH
             (matcher_agree ic r)).
  - rewrite IH. reflexivity.
  - rewrite IH.
    change (fun y : MatchState => Some (shift k y))
      with (fun y : MatchState => option_map (shift k) (Some y)).
    rewrite matcher_map.
    destruct positive; destruct (matcher ic r x Some); reflexivity.
  - cbn [shift prev]. destruct (prev x); reflexivity.
  - cbn [shift rest]. destruct (rest x); reflexivity.
  - cbn [shift prev rest]. destruct (Bool.eqb _ _); reflexivity.
Qed.

(** A run from the position [i] with no capture, in terms of the run from
    the position 0. *)
Lemma matcher_from_zero (r : regex) (p : option char) (s : jstring) (i : nat)
    (c : Continuation) :
  matcher ic r (mkState p s i []) c
  = matcher ic r (mkState p s 0 []) (fun y => c (shift i y)).
Proof. exact (matcher_shift i r (mkState p s 0 []) c). Qed.

End Shift.

(** ** Completeness of the matcher for patterns without assertions *)

Section Completeness.

Variable ic : bool.

Lemma max_not_zero (max : option nat) : max <> Some O -> max_is_zero max = false.
Proof. destruct max as [[|k]|]; simpl; congruence. Qed.

(** RepeatMatcher finds a result wherever some number of iterations of its
    atom leads to a state from which the continuation succeeds. *)
Lemma repeat_matcher_complete
    (m : MatchState -> Continuation -> option MatchState)
    (R : MatchState -> MatchState -> Prop) (gs : list nat) (greedy : bool) :
  (forall x y c, R x y -> c y <> None -> m x c <> None) ->
  (forall x y, R x y -> exists u, reads u x y) ->
  forall n fuel min max x y c,
    reps (fun x w => R (with_captures x (cap_clear gs (captures x))) w)
      n min max x y ->
    c y <> None ->
    (min + List.length (rest x) < fuel)%nat ->
    repeat_matcher m gs greedy fuel min max x c <> None.
Proof.
  intros Hm Hreads. induction n as [|n IH]; intros fuel min max x y c H Hc Hfuel;
    (destruct fuel as [|fuel]; [lia|]); cbn [repeat_matcher]; cbn [reps] in H.
  - destruct H as (-> & Hz).
    destruct (max_is_zero max) eqn:Emax; [exact Hc|].
    destruct Hz as [-> | ->]; [|discriminate]. cbn [is_zero negb].
    destruct greedy.
    + destruct (m _ _); [discriminate | exact Hc].
    + destruct (c x); [discriminate | congruence].
  - destruct H as (Hmax & w & Hw & Hprog & Hn).
    rewrite (max_not_zero max Hmax).
    assert (Hstep :
      m (with_captures x (cap_clear gs (captures x)))
        (fun y => if is_zero min && Nat.eqb (endIndex y) (endIndex x) then None
                  else repeat_matcher m gs greedy fuel (Nat.pred min)
                         (option_map Nat.pred max) y c) <> None).
    { apply (Hm _ w); [exact Hw|].
      destruct (Hreads _ _ Hw) as (u & Hr & Hi & _).
      cbn [with_captures rest endIndex] in Hr, Hi.
      assert (Hlen : List.length (rest x) = (List.length u + List.length (rest w))%nat)
        by (rewrite Hr; apply length_app).
      destruct min as [|min]; cbn [is_zero andb].
      - specialize (Hprog eq_refl).
        destruct (Nat.eqb (endIndex w) (endIndex x)) eqn:E;
          [apply Nat.eqb_eq in E; congruence|].
        apply (IH fuel _ _ w y c Hn Hc). cbn [Nat.pred]. lia.
      - apply (IH fuel _ _ w y c Hn Hc). cbn [Nat.pred]. lia. }
    destruct (is_zero min); cbn [negb]; [|exact Hstep].
    destruct greedy.
    + destruct (m _ _); [discriminate | congruence].
    + destruct (c x); [discriminate | exact Hstep].
Qed.

(** Wherever a pattern without assertions spans to a state from which the
    continuation succeeds, the matcher finds a result. *)
Lemma span_matcher (r : regex) :
  plain r = true ->
  forall x y c, span ic r x y -> c y <> None -> matcher ic r x c <> None.
Proof.
  induction r as [|A inv|r1 IH1 r2 IH2|r1 IH1 r2 IH2|min max greedy r IH
                 |n r IH|positive r IH| | |]; intros Hp x y c H Hc;
    cbn [plain] in Hp; try discriminate; cbn [span] in H; cbn [matcher].
  - now subst.
  - destruct H as (ch & rest' & -> & -> & ->). exact Hc.
  - apply andb_true_iff in Hp. destruct Hp as [Hp1 Hp2].
    destruct H as (w & H1 & H2).
    apply (IH1 Hp1 x w); [exact H1|]. now apply (IH2 Hp2 w y).
  - apply andb_true_iff in Hp. destruct Hp as [Hp1 Hp2].
    destruct (matcher ic r1 x c) eqn:E1; [discriminate|].
    destruct H as [H | H].
    + exfalso. now apply (IH1 Hp1 x y c H Hc).
    + now apply (IH2 Hp2 x y c).
  - destruct H as (n & H).
    apply (repeat_matcher_complete (matcher ic r) (span ic r) (groups r) greedy
             (IH Hp)) with (n := n) (y := y).
    + intros x' y' Hs. destruct (span_reads ic r x' y' Hs) as (u & Hu & _).
      now exists u.
    + exact H.
    + exact Hc.
    + lia.
  - destruct H as (w & Hw & ->). now apply (IH Hp x w).
Qed.

(** *** The same span in a shorter input *)

Lemma reps_cut (R : MatchState -> MatchState -> Prop) (k : nat) :
  (forall x y, R x y -> exists u, reads u x y) ->
  (forall x y, R x y -> (k <= List.length (rest y))%nat -> R (cut k x) (cut k y)) ->
  forall gs n min max x y,
    reps (fun x w => R (with_captures x (cap_clear gs (captures x))) w)
      n min max x y ->
    (k <= List.length (rest y))%nat ->
    reps (fun x w => R (with_captures x (cap_clear gs (captures x))) w)
      n min max (cut k x) (cut k y).
Proof.
  intros Hreads Hcut gs. induction n as [|n IH]; intros min max x y H Hk;
    cbn [reps] in *.
  - destruct H as (-> & Hz). now split.
  - destruct H as (Hmax & w & Hw & Hprog & Hn).
    split; [exact Hmax|].
    assert (Hkw : (k <= List.length (rest w))%nat).
    { assert (HR : forall x w,
                R (with_captures x (cap_clear gs (captures x))) w ->
                exists u, reads u x w /\ True).
      { intros x' w' Hxw. destruct (Hreads _ _ Hxw) as (u & Hu).
        exists u. split; [exact Hu | exact I]. }
      destruct (reps_reads _ (fun _ => True) HR n _ _ w y Hn) as (us & (Hr & _) & _).
      rewrite Hr, length_app. lia. }
    exists (cut k w). split; [|split].
    + apply (Hcut _ _ Hw Hkw).
    + exact Hprog.
    + now apply IH.
Qed.

(** A span of a pattern without assertions is a span in every input that
    still holds what it read. *)
Lemma span_cut (r : regex) (k : nat) :
  plain r = true ->
  forall x y, span ic r x y -> (k <= List.length (rest y))%nat ->
    span ic r (cut k x) (cut k y).
Proof.
  induction r as [|A inv|r1 IH1 r2 IH2|r1 IH1 r2 IH2|min max greedy r IH
                 |n r IH|positive r IH| | |]; intros Hp x y H Hk;
    cbn [plain] in Hp; try discriminate; cbn [span] in *.
  - now subst.
  - destruct H as (ch & rest' & Hr & Hm & ->). cbn [rest] in Hk.
    exists ch, (firstn (List.length rest' - k) rest'). split; [|split].
    + unfold cut. cbn [rest]. rewrite Hr. cbn [List.length].
      replace (S (List.length rest') - k)%nat with (S (List.length rest' - k)) by lia.
      reflexivity.
    + exact Hm.
    + reflexivity.
  - apply andb_true_iff in Hp. destruct Hp as [Hp1 Hp2].
    destruct H as (w & H1 & H2).
    exists (cut k w). split; [|now apply IH2].
    apply IH1; [exact Hp1 | exact H1|].
    destruct (span_reads ic r2 w y H2) as (u & (Hr & _) & _).
    rewrite Hr, length_app. lia.
  - apply andb_true_iff in Hp. destruct Hp as [Hp1 Hp2].
    destruct H as [H | H]; [left; now apply IH1 | right; now apply IH2].
  - destruct H as (n & H). exists n.
    apply (reps_cut (span ic r) k); try assumption.
    + intros x' y' Hs. destruct (span_reads ic r x' y' Hs) as (u & Hu & _).
      now exists u.
    + intros x' y' Hs Hk'. now apply IH.
  - destruct H as (w & Hw & ->). exists (cut k w). split; [|reflexivity].
    now apply IH.
Qed.

Lemma cut_app (p : option char) (s X : jstring) (i : nat) caps :
  cut (List.length X) (mkState p (s ++ X) i caps) = mkState p s i caps.
Proof.
  unfold cut. cbn [prev rest endIndex captures].
  rewrite length_app, Nat.add_sub, firstn_app, firstn_all, Nat.sub_diag.
  cbn [firstn]. now rewrite app_nil_r.
Qed.

(** A match that ends before [X] is found without [X] as well: the matcher
    finds something at the same position of the input without [X]. *)
Lemma matcher_without (r : regex) (p : option char) (s X : jstring) (i : nat)
    (y : MatchState) :
  plain r = true ->
  matcher ic r (mkState p (s ++ X) i []) Some = Some y ->
  (List.length X <= List.length (rest y))%nat ->
  matcher ic r (mkState p s i []) Some <> None.
Proof.
  intros Hp H Hk.
  destruct (matcher_span ic r _ _ _ H) as (y' & Hs & E). injection E as ->.
  pose proof (span_cut r (List.length X) Hp _ _ Hs Hk) as Hc.
  rewrite cut_app in Hc.
  apply (span_matcher r Hp _ _ Some Hc). discriminate.
Qed.

End Completeness.

(** ** The shape of the result *)

Section Summary.

Lemma blank_trim (raw : jstring) : blank raw -> trim raw = [].
Proof. apply trim_all_ws. Qed.

Lemma not_blank_trim (raw : jstring) : ~ blank raw -> trim raw <> [].
Proof.
  intros H. unfold blank in H.
  assert (Hex : Exists (fun ch => is_ws ch <> true) raw).
  { apply neg_Forall_Exists_neg; [|exact H].
    intros ch. destruct (is_ws ch); [left | right]; congruence. }
  apply Exists_exists in Hex as (ch & Hin & Hch).
  apply (trim_nonempty raw ch Hin). now destruct (is_ws ch).
Qed.

(** The guard [!raw || !raw.trim()] of [parseFIR]. *)
Lemma guard_blank (raw : jstring) :
  blank raw -> negb (truthy raw) || negb (truthy (trim raw)) = true.
Proof.
  intros H. rewrite (blank_trim raw H). simpl. apply orb_true_r.
Qed.

Lemma guard_not_blank (raw : jstring) :
  ~ blank raw -> negb (truthy raw) || negb (truthy (trim raw)) = false.
Proof.
  intros H. pose proof (not_blank_trim raw H) as Ht.
  destruct raw as [|ch raw]; [exfalso; apply H; constructor|].
  destruct (trim (ch :: raw)); [congruence | reflexivity].
Qed.

Lemma blank_gives_empty (raw : jstring) : blank raw -> parseFIR raw = empty.
Proof. intros H. unfold parseFIR. now rewrite (guard_blank raw H). Qed.

Lemma resolved_or_else (v : jstring) : resolved (or_else v NA) v.
Proof.
  destruct (or_else_NA_cases v) as [[_ E]|[Hv E]]; rewrite E;
    [left | right]; auto.
Qed.

Lemma resolved_NA (v : jstring) : resolved NA v.
Proof. now left. Qed.

(** C2: for an empty or whitespace-only input [parseFIR] returns the
    canonical empty summary: the overview "FIR summary not available.", no
    key points, every scalar entity "N/A", no witnesses, no sections and an
    empty timeline. *)
Theorem parseFIR_blank (raw : jstring) :
  blank raw ->
  parseFIR raw =
    mkCaseSummary (str "FIR summary not available.") []
      (mkEntities (str "N/A") (str "N/A") (str "N/A") (str "N/A") (str "N/A")
         (str "N/A") [] [] (str "N/A") (str "N/A")) [].
Proof. intros H. rewrite (blank_gives_empty raw H). reflexivity. Qed.

Lemma parseFIR_blank_witness :
  blank [32; 9; 10; 13; 160] /\
  parseFIR [32; 9; 10; 13; 160] =
    mkCaseSummary (str "FIR summary not available.") []
      (mkEntities (str "N/A") (str "N/A") (str "N/A") (str "N/A") (str "N/A")
         (str "N/A") [] [] (str "N/A") (str "N/A")) [].
Proof.
  assert (H : blank [32; 9; 10; 13; 160]) by (repeat constructor).
  split; [exact H | exact (parseFIR_blank _ H)].
Defined.

(** C1: [parseFIR] is total, and in the summary it returns every scalar
    entity is a string that is the sentinel "N/A" or the non-empty value
    its extractor found; witnesses and sections are the (possibly empty)
    lists of the list extractors, or empty. *)
Theorem parseFIR_total (raw : jstring) :
  exists s : CaseSummary,
    parseFIR raw = s /\
    let text := Extract.text raw in
    let flat := Extract.flat text in
    let e := entities s in
    resolved (firNumber e) (Extract.firNumber flat) /\
    resolved (policeStation e) (Extract.policeStation flat) /\
    resolved (date e) (Extract.date flat) /\
    resolved (time e) (Extract.time flat) /\
    resolved (complainant e) (Extract.complainant text flat) /\
    resolved (accused e) (Extract.accused text flat) /\
    resolved (investigatingOfficer e) (Extract.investigatingOfficer text flat) /\
    resolved (location e) (Extract.location flat (Extract.policeStation flat)) /\
    (witnesses e = [] \/ witnesses e = Extract.witnesses text flat) /\
    (sections e = [] \/ sections e = Extract.sections text).
Proof.
  eexists; split; [reflexivity|].
  unfold parseFIR.
  destruct (negb (truthy raw) || negb (truthy (trim raw))); cbv zeta.
  - unfold empty; cbn [entities firNumber policeStation date time complainant
      accused investigatingOfficer location witnesses sections].
    repeat split; try apply resolved_NA; now left.
  - cbn [entities firNumber policeStation date time complainant
      accused investigatingOfficer location witnesses sections].
    repeat split; try apply resolved_or_else; now right.
Qed.



End Summary.

(** ** Sets in insertion order *)

Section OrderedSets.

Lemma existsb_eqb_In (x : jstring) (s : list jstring) :
  existsb (jstring_eqb x) s = true <-> In x s.
Proof.
  rewrite existsb_exists. split.
  - intros (y & Hy & E). apply jstring_eqb_eq in E. now subst.
  - intros H. exists x. split; [exact H | apply jstring_eqb_refl].
Qed.

Lemma index_of_app_in (x : jstring) (a b : list jstring) :
  In x a -> index_of x (a ++ b) = index_of x a.
Proof.
  induction a as [|y a IH]; simpl; [easy|].
  intros [-> | H].
  - now rewrite jstring_eqb_refl.
  - destruct (jstring_eqb y x); [reflexivity|]. now rewrite IH.
Qed.

Lemma index_of_in (x : jstring) (l : list jstring) :
  In x l -> exists p, index_of x l = Some p /\ (p < List.length l)%nat.
Proof.
  induction l as [|y l IH]; simpl; [easy|].
  intros H. destruct (jstring_eqb y x) eqn:E.
  - exists O. split; [reflexivity | lia].
  - destruct H as [-> | H]; [now rewrite jstring_eqb_refl in E|].
    destruct (IH H) as (p & -> & Hp). exists (S p). split; [reflexivity | lia].
Qed.

Lemma index_of_fresh (x : jstring) (a : list jstring) :
  ~ In x a -> index_of x (a ++ [x]) = Some (List.length a).
Proof.
  induction a as [|y a IH]; simpl; intros H.
  - now rewrite jstring_eqb_refl.
  - destruct (jstring_eqb y x) eqn:E.
    + apply jstring_eqb_eq in E. subst. exfalso. apply H. now left.
    + rewrite IH; [reflexivity | tauto].
Qed.

Lemma StronglySorted_weaken (R R' : jstring -> jstring -> Prop) (l : list jstring) :
  (forall a b, In a l -> In b l -> R a b -> R' a b) ->
  StronglySorted R l -> StronglySorted R' l.
Proof.
  intros HR H. induction H as [|a l Hl IH Ha]; constructor.
  - apply IH. intros x y Hx Hy. apply HR; now right.
  - rewrite Forall_forall in *. intros b Hb.
    apply HR; [now left | now right | now apply Ha].
Qed.

Lemma StronglySorted_snoc (R : jstring -> jstring -> Prop) (l : list jstring)
    (x : jstring) :
  StronglySorted R l -> Forall (fun a => R a x) l -> StronglySorted R (l ++ [x]).
Proof.
  intros H. induction H as [|a l Hl IH Ha]; intros Hx; simpl.
  - repeat constructor.
  - inversion Hx as [|? ? Hax Hlx]; subst. constructor; [now apply IH|].
    apply Forall_app. split; [exact Ha | now constructor].
Qed.

(** Adding the values of [l] one by one to a set that holds the first
    occurrences of [done] yields the first occurrences of [done ++ l]. *)
Lemma set_add_all_first_occurrences (l done acc : list jstring) :
  first_occurrences done acc ->
  first_occurrences (done ++ l) (set_add_all acc l).
Proof.
  revert done acc. induction l as [|x l IH]; intros done acc Hacc.
  - now rewrite app_nil_r.
  - simpl. replace (done ++ x :: l) with ((done ++ [x]) ++ l)
      by now rewrite <- app_assoc.
    apply IH. destruct Hacc as (Hnd & Hin & Hs).
    unfold set_add. destruct (existsb (jstring_eqb x) acc) eqn:E.
    + apply existsb_eqb_In in E. repeat split.
      * exact Hnd.
      * intros H. apply in_or_app. left. now apply Hin.
      * intros H. apply in_app_or in H as [H | [<- | []]]; [now apply Hin | exact E].
      * apply (StronglySorted_weaken (occurs_before done)); [|exact Hs].
        intros a b Ha Hb. unfold occurs_before.
        rewrite !index_of_app_in by now apply Hin. auto.
    + assert (Hx : ~ In x acc).
      { intros H. apply existsb_eqb_In in H. congruence. }
      assert (Hxd : ~ In x done) by (intros H; apply Hx; now apply Hin).
      repeat split.
      * apply NoDup_app; [exact Hnd | repeat constructor; easy |].
        intros a Ha [<- | []]. contradiction.
      * intros H. apply in_app_or in H as [H | H]; apply in_or_app;
          [left; now apply Hin | now right].
      * intros H. apply in_app_or in H as [H | H]; apply in_or_app;
          [left; now apply Hin | now right].
      * apply StronglySorted_snoc.
        -- apply (StronglySorted_weaken (occurs_before done)); [|exact Hs].
           intros a b Ha Hb. unfold occurs_before.
           rewrite !index_of_app_in by now apply Hin. auto.
        -- apply Forall_forall. intros a Ha. unfold occurs_before.
           apply Hin in Ha. rewrite (index_of_app_in a done [x] Ha).
           destruct (index_of_in a done Ha) as (p & -> & Hp).
           now rewrite (index_of_fresh x done Hxd).
Qed.

(** [Array.from(new Set(l))] lists the values of [l] once each, in the order
    of their first occurrence in [l]. *)
Lemma array_from_set_first_occurrences (l : list jstring) :
  first_occurrences l (set_add_all [] l).
Proof.
  apply (set_add_all_first_occurrences l [] []).
  repeat split; try constructor; auto.
Qed.

Lemma in_array_from_set (x : jstring) (l : list jstring) :
  In x l -> In x (set_add_all [] l).
Proof.
  destruct (array_from_set_first_occurrences l) as (_ & Hin & _). apply Hin.
Qed.

Lemma nodup_array_from_set (l : list jstring) : NoDup (set_add_all [] l).
Proof. exact (proj1 (array_from_set_first_occurrences l)). Qed.

Lemma set_add_all_app (s a b : list jstring) :
  set_add_all (set_add_all s a) b = set_add_all s (a ++ b).
Proof. unfold set_add_all. now rewrite fold_left_app. Qed.

End OrderedSets.

(** ** Witnesses and sections *)

Section ListFields.

(** The two lists of citations that [sections] inserts, in insertion order. *)
Lemma sections_insertions (text : jstring) :
  Extract.sections text =
    set_add_all []
      (map (Extract.ipc text) (matchAll Pat.ipcSection text)
         ++ map (Extract.ipc text) (matchAll Pat.sectionIpc text)).
Proof. unfold Extract.sections. apply set_add_all_app. Qed.


(** C7: on the witness block of the specification the heading line itself
    yields a name, so the list starts with "Witnesses". *)
Lemma witness_block_heading_listed :
  witnesses (entities (parseFIR
    (str "5. Witnesses" ++ [LF] ++ str "1. SI Amit Singh, Designation: Security"
       ++ [LF] ++ str "2. Priya Rao" ++ [LF] ++ str "6. Sections")))
  = [str "Witnesses"; str "Amit Singh"; str "Priya Rao"].
Proof. vm_compute. reflexivity. Qed.

End ListFields.

(** ** Date, time and the timeline *)

Section TimelineFacts.

Lemma in_range_true (lo hi ch : char) :
  in_range lo hi ch = true <-> lo <= ch <= hi.
Proof. unfold in_range. rewrite andb_true_iff, !N.leb_le. tauto. Qed.

Lemma in_range_false (lo hi ch : char) :
  ch < lo \/ hi < ch -> in_range lo hi ch = false.
Proof.
  intros H. unfold in_range. apply andb_false_iff.
  destruct H; [left | right]; apply N.leb_gt; assumption.
Qed.

(** A code unit accepted by [[0-9]], with or without the [i] flag, is a
    decimal digit. *)
Lemma digit_class (ic : bool) (ch : char) :
  cs_mem ic [rng "0" "9"] ch = true -> 48 <= ch <= 57.
Proof.
  unfold cs_mem, in_ranges, to_upper, to_lower. cbn [existsb rng fst snd].
  change (N_of_ascii "0") with 48. change (N_of_ascii "9") with 57.
  rewrite !orb_false_r.
  destruct (in_range 48 57 ch) eqn:E; [intros _; now apply in_range_true|].
  destruct ic; cbn [orb andb]; [|discriminate].
  destruct (in_range 97 122 ch) eqn:E1; destruct (in_range 65 90 ch) eqn:E2;
    rewrite ?E; try discriminate;
    try apply in_range_true in E1; try apply in_range_true in E2;
    rewrite ?orb_true_iff, !in_range_true; lia.
Qed.

Lemma digit_not_ws (ch : char) : 48 <= ch <= 57 -> is_ws ch = false.
Proof.
  intros H. unfold is_ws, in_ranges, ws_ranges. cbn [existsb fst snd].
  rewrite !in_range_false by lia. reflexivity.
Qed.

(** The text of [[0-9]{1,2}] followed by anything starts with a digit. *)
Lemma lang_digits_start (ic : bool) (r : regex) (u : jstring) :
  lang ic (Seq (times 1 2 digit) r) u ->
  exists d u', u = d :: u' /\ 48 <= d <= 57.
Proof.
  cbn [lang times]. intros (u1 & u2 & -> & (us & -> & Hus & Hmin & _) & _).
  destruct us as [|a us]; [simpl in Hmin; lia|].
  inversion Hus as [|? ? Ha _]; subst. unfold digit, cls in Ha. cbn [lang] in Ha.
  destruct Ha as (d & -> & Hd). exists d. eexists. split; [reflexivity|].
  apply (digit_class ic). now destruct (cs_mem ic [rng "0" "9"] d).
Qed.

Lemma lang_hhmm_start (ic : bool) (r : regex) (u : jstring) :
  lang ic (Seq Pat.hhmm r) u -> exists d u', u = d :: u' /\ 48 <= d <= 57.
Proof.
  intros (u1 & u2 & -> & H1 & _).
  apply lang_digits_start in H1 as (d & u' & -> & Hd).
  exists d. eexists. split; [reflexivity | exact Hd].
Qed.

Lemma starts_with_digit_trim (u : jstring) :
  (exists d u', u = d :: u' /\ 48 <= d <= 57) -> trim u <> [].
Proof.
  intros (d & u' & -> & Hd). apply (trim_nonempty _ d); [now left|].
  now apply digit_not_ws.
Qed.

(** What [pick] returns: the fallback, or the trimmed text of the group of
    one of the patterns. *)
Lemma pick_cases (reArr : list RegExp) (text : jstring) (n : nat) (fb : jstring) :
  pick reArr text n fb = fb \/
  exists re g, In re reArr /\ match_group re text n = Some g /\ g <> [] /\
               pick reArr text n fb = trim g.
Proof.
  induction reArr as [|re reArr IH]; cbn [pick]; [now left|].
  destruct (match_group re text n) as [g|] eqn:E.
  - destruct g as [|ch g]; cbn [truthy].
    + destruct IH as [-> | (re' & g' & Hin & Hm & Hg & ->)]; [now left | right].
      exists re', g'. repeat split; auto. now right.
    + right. exists re, (ch :: g). repeat split; auto; [now left | discriminate].
  - destruct IH as [-> | (re' & g' & Hin & Hm & Hg & ->)]; [now left | right].
    exists re', g'. repeat split; auto. now right.
Qed.

(** The date found is never the empty string. *)
Lemma date_nonempty (flat : jstring) : Extract.date flat <> [].
Proof.
  unfold Extract.date.
  destruct (pick_cases [Pat.date] flat 1 NA) as [-> | (re & g & Hin & Hm & _ & ->)];
    [discriminate|].
  destruct Hin as [<- | []].
  apply match_group_lang in Hm as (body & Hb & HL).
  cbn in Hb. destruct Hb as [<- | []].
  apply starts_with_digit_trim. exact (lang_digits_start _ _ _ HL).
Qed.

(** The time found is never the empty string. *)
Lemma time_nonempty (flat : jstring) : Extract.time flat <> [].
Proof.
  unfold Extract.time.
  destruct (pick_cases [Pat.time1; Pat.time2; Pat.time3] flat 1 NA)
    as [-> | (re & g & Hin & Hm & _ & ->)]; [discriminate|].
  apply starts_with_digit_trim.
  destruct Hin as [<- | [<- | [<- | []]]];
    apply match_group_lang in Hm as (body & Hb & HL);
    cbn in Hb; destruct Hb as [<- | []].
  - exact (lang_hhmm_start _ _ _ HL).
  - exact (lang_hhmm_start _ _ _ HL).
  - exact (lang_digits_start _ _ _ HL).
Qed.

Lemma or_else_nonempty (v d : jstring) : v <> [] -> or_else v d = v.
Proof. destruct v; [congruence | reflexivity]. Qed.

(** C5: the timeline has an entry only if the date or the time of the
    entities is not "N/A"; the entry is then alone, its event is
    "FIR registered" and its time joins with a space those of the date and
    the time that are not "N/A"; with neither, the timeline is empty. *)
Theorem timeline_from_date_time (raw : jstring) :
  let s := parseFIR raw in
  let d := date (entities s) in
  let t := time (entities s) in
  timeline s =
    if jstring_eqb d NA && jstring_eqb t NA then []
    else [ Timeline.mk
             (join (str " ")
                ((if jstring_eqb d NA then [] else [d])
                   ++ (if jstring_eqb t NA then [] else [t])))
             (str "FIR registered") ].
Proof.
  cbv zeta. unfold parseFIR.
  destruct (negb (truthy raw) || negb (truthy (trim raw))); [reflexivity|].
  cbn [entities timeline date time].
  pose proof (date_nonempty (Extract.flat (Extract.text raw))) as Hd.
  pose proof (time_nonempty (Extract.flat (Extract.text raw))) as Ht.
  rewrite (or_else_nonempty _ NA Hd), (or_else_nonempty _ NA Ht).
  set (d := Extract.date _) in *. set (t := Extract.time _) in *.
  unfold Extract.timeline.
  destruct (jstring_eqb d NA), (jstring_eqb t NA); cbn [negb orb andb];
    try reflexivity.
  - cbn [filter truthy]. destruct t; [congruence | reflexivity].
  - cbn [filter truthy]. destruct d; [congruence | reflexivity].
  - cbn [filter truthy]. destruct d; [congruence|]. destruct t; [congruence|].
    reflexivity.
Qed.

End TimelineFacts.

(** ** Names *)

Section Names.

Lemma in_push_if (cond : bool) (x w : jstring) :
  In w (push_if cond x) -> cond = true /\ w = x.
Proof. destruct cond; simpl; [intros [<- | []]; auto | easy]. Qed.

(** Every name pushed to [witnesses] is a non-empty result of [cleanPerson]. *)
Lemma witnessesPushed_cleaned (text flat w : jstring) :
  In w (Extract.witnessesPushed text flat) -> w <> [] /\ cleaned w.
Proof.
  unfold Extract.witnessesPushed.
  assert (Hblock : forall block, In w (Extract.witnessesOfBlock block) ->
                                 w <> [] /\ cleaned w).
  { intros block H. unfold Extract.witnessesOfBlock in H.
    apply in_flat_map in H as (line & _ & H).
    destruct (match_group Pat.witnessLine line 1) as [g|]; [|easy].
    destruct (truthy g); [|easy]. cbv zeta in H.
    apply in_push_if in H as [Ht ->]. split; [now apply truthy_true|].
    now exists g. }
  assert (Hinline : In w (Extract.witnessesInline flat) -> w <> [] /\ cleaned w).
  { unfold Extract.witnessesInline. cbv zeta.
    destruct (truthy _); [|easy]. intros H.
    apply in_flat_map in H as (chunk & _ & H). cbv zeta in H.
    apply in_push_if in H as [Ht ->]. split; [now apply truthy_true|].
    eexists. reflexivity. }
  destruct (Extract.witnessesOfBlock (Extract.witnessesBlock text)) as [|a l] eqn:E.
  - exact Hinline.
  - rewrite <- E. apply Hblock.
Qed.

End Names.

(** ** Line ends and the text around a token *)

Section Lines.

Lemma last_read_nonempty (p q : option char) (s : jstring) :
  s <> [] -> last_read p s = last_read q s.
Proof.
  intros H. unfold last_read. destruct (rev s) eqn:E; [|reflexivity].
  apply (f_equal (@rev char)) in E. rewrite rev_involutive in E. now subst.
Qed.

Lemma unix_lines_cons_other (ch : char) (s : jstring) :
  char_eqb ch CR = false -> unix_lines (ch :: s) = ch :: unix_lines s.
Proof. intros H. cbn [unix_lines]. now rewrite H. Qed.

(** A code unit other than LF starts afresh after any text. *)
Lemma unix_lines_app (n : nat) :
  forall a c s, (List.length a <= n)%nat -> char_eqb c LF = false ->
    unix_lines (a ++ c :: s) = unix_lines a ++ unix_lines (c :: s).
Proof.
  induction n as [|n IH]; intros a c s Hn Hc.
  - destruct a; [reflexivity | simpl in Hn; lia].
  - destruct a as [|x a]; [reflexivity|].
    cbn [app]. cbn [unix_lines]. destruct (char_eqb x CR) eqn:Ex.
    + destruct a as [|y a].
      * cbn [app]. rewrite Hc. reflexivity.
      * cbn [app]. destruct (char_eqb y LF) eqn:Ey.
        -- cbn [app]. f_equal. apply IH; [cbn [List.length] in *; lia | exact Hc].
        -- cbn [app]. f_equal. apply (IH (y :: a)); [cbn [List.length] in *; lia | exact Hc].
    + cbn [app]. f_equal. apply IH; [cbn [List.length] in *; lia | exact Hc].
Qed.

(** Turning line ends into LF keeps a text from ending with a word
    character. *)
Lemma unix_lines_last (n : nat) :
  forall s p, (List.length s <= n)%nat ->
    is_word_opt (last_read p s) = false ->
    is_word_opt (last_read p (unix_lines s)) = false.
Proof.
  induction n as [|n IH]; intros s p Hn H.
  - destruct s; [exact H | simpl in Hn; lia].
  - destruct s as [|x s]; [exact H|].
    rewrite last_read_cons in H. cbn [unix_lines].
    destruct (char_eqb x CR) eqn:Ex.
    + apply char_eqb_eq in Ex. subst x. rewrite last_read_cons.
      destruct s as [|y s]; [reflexivity|].
      destruct (char_eqb y LF) eqn:Ey.
      * apply char_eqb_eq in Ey. subst y. rewrite last_read_cons in H.
        apply IH; [cbn [List.length] in *; lia | exact H].
      * destruct (unix_lines (y :: s)) as [|z t] eqn:Eu; [reflexivity|].
        rewrite (last_read_nonempty (Some LF) (Some CR)) by discriminate.
        rewrite <- Eu. apply IH; [cbn [List.length] in *; lia | exact H].
    + rewrite last_read_cons. apply IH; [cbn [List.length] in *; lia | exact H].
Qed.

Lemma unix_lines_ends_word (s : jstring) :
  ends_word s = false -> ends_word (unix_lines s) = false.
Proof. unfold ends_word. apply (unix_lines_last (List.length s)). lia. Qed.

Lemma unix_lines_starts_word (s : jstring) :
  starts_word s = false -> starts_word (unix_lines s) = false.
Proof.
  destruct s as [|x s]; [easy|]. unfold starts_word. cbn [unix_lines hd_error].
  destruct (char_eqb x CR); [reflexivity | easy].
Qed.

Lemma unix_lines_starts_digit (s : jstring) :
  starts_digit s = false -> starts_digit (unix_lines s) = false.
Proof.
  destruct s as [|x s]; [easy|]. unfold starts_digit. cbn [unix_lines].
  destruct (char_eqb x CR); [reflexivity | easy].
Qed.

(** An input with a code unit that is not white space is not blank. *)
Lemma not_blank_with (a b : jstring) (ch : char) :
  is_ws ch = false -> ~ blank (a ++ ch :: b).
Proof.
  intros Hch H. unfold blank in H. rewrite Forall_forall in H.
  specialize (H ch (in_elt ch a b)). congruence.
Qed.

Lemma slice_app_shift (P X : jstring) (a b : nat) :
  slice (List.length P + a) (List.length P + b) (P ++ X) = slice a b X.
Proof.
  unfold slice. rewrite skipn_app, skipn_all2 by lia. cbn [app].
  replace (List.length P + a - List.length P)%nat with a by lia.
  f_equal. lia.
Qed.

Lemma state_at_app (P X : jstring) :
  state_at (P ++ X) (List.length P) = mkState (last_read None P) X (List.length P) [].
Proof.
  unfold state_at. rewrite firstn_app, firstn_all, Nat.sub_diag.
  cbn [firstn]. rewrite app_nil_r, skipn_app, skipn_all, Nat.sub_diag. reflexivity.
Qed.

End Lines.

(** ** Citations of sections *)

Section Citations.

Lemma matcher_wordb (ic : bool) (x : MatchState) (c : Continuation) :
  matcher ic WordB x c =
    if Bool.eqb (is_word_opt (prev x)) (is_word_opt (hd_error (rest x)))
    then None else c x.
Proof. reflexivity. Qed.

Lemma matcher_group (ic : bool) (n : nat) (r : regex) (x : MatchState)
    (c : Continuation) :
  matcher ic (Group n r) x c =
    matcher ic r x (fun y =>
      c (with_captures y ((n, (endIndex x, endIndex y)) :: captures y))).
Proof. reflexivity. Qed.

(** A continuation that cannot fail. *)
Lemma matcher_total (ic : bool) (r : regex) (x : MatchState)
    (f : MatchState -> MatchState) :
  matcher ic r x (fun y => Some (f y)) = option_map f (matcher ic r x Some).
Proof. exact (matcher_map ic f r x Some). Qed.

Lemma accepts_digit (ic : bool) (ch : char) :
  accepts ic [rng "0" "9"] false ch = in_range 48 57 ch.
Proof.
  unfold accepts. destruct (cs_mem ic [rng "0" "9"] ch) eqn:E; cbn [Bool.eqb negb].
  - symmetry. apply in_range_true. now apply (digit_class ic).
  - unfold cs_mem, in_ranges in E. cbn [existsb rng fst snd] in E.
    change (N_of_ascii "0") with 48 in E. change (N_of_ascii "9") with 57 in E.
    destruct (in_range 48 57 ch); [discriminate | reflexivity].
Qed.

(** The digits of a citation, read up to a text that starts with no digit. *)
Lemma digits_379 (ic : bool) (p : option char) (Q : jstring) (i : nat) :
  starts_digit Q = false ->
  matcher ic (plus digit) (mkState p (51 :: 55 :: 57 :: Q) i []) Some
  = Some (mkState (Some 57) Q (i + 3) []).
Proof.
  intros HQ. unfold digit. rewrite matcher_plus_cls. unfold head_run.
  cbn [take_while]. rewrite !accepts_digit.
  change (in_range 48 57 51) with true. change (in_range 48 57 55) with true.
  change (in_range 48 57 57) with true. cbv iota.
  assert (E : take_while (accepts ic [rng "0" "9"] false) Q = []).
  { destruct Q as [|q Q]; [reflexivity|]. cbn [take_while].
    rewrite accepts_digit. cbn [starts_digit] in HQ. now rewrite HQ. }
  rewrite E. reflexivity.
Qed.

(** "IPC Section " read at the head of a text, whatever follows. *)
Lemma ipc_section_prefix (c : Continuation) (p : option char) (Q : jstring)
    (z : MatchState) :
  c (mkState (Some (32 : char)) ((51 : char) :: (55 : char) :: (57 : char) :: Q)
       12 []) = Some z ->
  matcher true (seq [lit "IPC"; star ws; lit "Section"; star ws])
    (mkState p (str "IPC Section 379" ++ Q) 0 []) c = Some z.
Proof. intros H. vm_compute. rewrite H. reflexivity. Qed.

(** The first citation pattern matches "IPC Section 379" where it stands
    as a token. *)
Lemma ipcSection_at (p : option char) (Q : jstring) (i : nat) :
  is_word_opt p = false -> starts_digit Q = false ->
  matcher (ignoreCase Pat.ipcSection) (pattern Pat.ipcSection)
    (mkState p (str "IPC Section 379" ++ Q) i []) Some
  = Some (mkState (Some 57) Q (15 + i) [(1%nat, (12 + i, 15 + i)%nat)]).
Proof.
  intros Hp HQ. rewrite matcher_from_zero.
  change (pattern Pat.ipcSection)
    with (Seq WordB (seq [lit "IPC"; star ws; lit "Section"; star ws;
                          Group 1 (plus digit)])).
  change (ignoreCase Pat.ipcSection) with true.
  rewrite matcher_seq, matcher_wordb. cbn [prev rest hd_error str
    list_ascii_of_string map app].
  rewrite Hp. change (is_word_opt (Some (N_of_ascii "I"))) with true.
  cbn [Bool.eqb].
  change (matcher true
            (seq [lit "IPC"; star ws; lit "Section"; star ws; Group 1 (plus digit)])
            ?x ?c)
    with (matcher true (seq [lit "IPC"; star ws; lit "Section"; star ws]) x
            (fun y => matcher true (Group 1 (plus digit)) y c)).
  apply ipc_section_prefix.
  rewrite matcher_group. cbn [endIndex captures]. cbv beta.
  rewrite (matcher_total true (plus digit) _
             (fun y => shift i (with_captures y
                                  ((1%nat, (12%nat, endIndex y)) :: captures y)))).
  rewrite (digits_379 true _ Q 12 HQ). reflexivity.
Qed.


(** *** No match reaches into a citation that starts later *)

Lemma lang_seq_ends (ic : bool) (D : char -> Prop) (a b : regex) (u : jstring) :
  lang ic (Seq a b) u ->
  (forall v, lang ic b v -> exists v' d, v = v' ++ [d] /\ D d) ->
  exists u' d, u = u' ++ [d] /\ D d.
Proof.
  intros (u1 & u2 & -> & _ & H2) Hb. destruct (Hb u2 H2) as (v' & d & -> & Hd).
  exists (u1 ++ v'), d. now rewrite app_assoc.
Qed.

Lemma lang_digits_end (ic : bool) (n : nat) (v : jstring) :
  lang ic (Seq (Group n (plus digit)) Empty) v ->
  exists v' d, v = v' ++ [d] /\ in_range 48 57 d = true.
Proof.
  intros (g & e & -> & Hg & ->). rewrite app_nil_r.
  cbn [lang plus] in Hg. destruct Hg as (us & -> & Hus & Hmin & _).
  specialize (Hmin I).
  destruct (exists_last (l := us)) as (us' & a & ->).
  { intros ->. simpl in Hmin. lia. }
  apply Forall_app in Hus as [_ Ha]. inversion Ha as [|? ? Hd _]; subst.
  unfold digit, cls in Hd. cbn [lang] in Hd. destruct Hd as (d & -> & Hd).
  exists (List.concat us'), d. rewrite concat_app. cbn [List.concat].
  rewrite app_nil_r. split; [reflexivity|].
  rewrite <- (accepts_digit ic d). unfold accepts. now rewrite Hd.
Qed.

Lemma app_eq_app_longer (a X u r : jstring) :
  a ++ X = u ++ r -> (List.length a < List.length u)%nat ->
  exists b, b <> [] /\ u = a ++ b /\ X = b ++ r.
Proof.
  revert u. induction a as [|x a IH]; intros u H Hl.
  - exists u. repeat split; [|exact H]. intros ->. simpl in Hl. lia.
  - destruct u as [|x' u]; [simpl in Hl; lia|].
    injection H as <- H. destruct (IH u H) as (b & Hb & -> & ->);
      [simpl in Hl; lia|]. exists b. auto.
Qed.

(** What the first citation pattern reads: two code units, then no "P",
    and a digit at the end. *)
Lemma ipcSection_lang (u : jstring) :
  lang (ignoreCase Pat.ipcSection) (pattern Pat.ipcSection) u ->
  (exists c1 c2 tail, u = c1 :: c2 :: tail /\ ~ In 80 tail) /\
  (exists v d, u = v ++ [d] /\ in_range 48 57 d = true).
Proof.
  change (pattern Pat.ipcSection)
    with (Seq WordB (Seq (Seq (cls [(73, 73)]) (Seq (cls [(80, 80)])
            (Seq (cls [(67, 67)]) Empty)))
          (Seq (star ws) (Seq (lit "Section") (Seq (star ws)
            (Seq (Group 1 (plus digit)) Empty)))))).
  change (ignoreCase Pat.ipcSection) with true.
  intros H. split.
  - destruct H as (u0 & u1 & -> & -> & (w & u2 & -> & Hw & H2)).
    destruct Hw as (w1 & w2 & -> & (c1 & -> & _) & (w3 & w4 & -> & (c2 & -> & _)
                    & (w5 & w6 & -> & Hc3 & ->))).
    exists c1, c2, (w5 ++ [] ++ u2). split; [now rewrite <- !app_assoc|].
    intros Hin.
    assert (HL : lang true (Seq (cls [(67, 67)])
                   (Seq (star ws) (Seq (lit "Section") (Seq (star ws)
                      (Seq (Group 1 (plus digit)) Empty))))) (w5 ++ [] ++ u2)).
    { exists w5, u2. auto. }
    apply lang_may_contain in HL. rewrite Forall_forall in HL.
    specialize (HL 80 Hin). vm_compute in HL. discriminate.
  - apply (lang_seq_ends true _ _ _ _ H). intros v1 H1.
    apply (lang_seq_ends true _ _ _ _ H1). intros v2 H2.
    apply (lang_seq_ends true _ _ _ _ H2). intros v3 H3.
    apply (lang_seq_ends true _ _ _ _ H3). intros v4 H4.
    apply (lang_seq_ends true _ _ _ _ H4). intros v5 H5.
    exact (lang_digits_end true 1 v5 H5).
Qed.

Lemma ipcSection_no_overlap (P Q : jstring) (k : nat) (y : MatchState) :
  (k < List.length P)%nat ->
  matcher (ignoreCase Pat.ipcSection) (pattern Pat.ipcSection)
    (state_at (P ++ str "IPC Section 379" ++ Q) k) Some = Some y ->
  (k < endIndex y <= List.length P)%nat.
Proof.
  intros Hk Hm.
  assert (HkT : (k <= List.length (P ++ str "IPC Section 379" ++ Q))%nat)
    by (rewrite length_app; lia).
  destruct (matcher_reads Pat.ipcSection _ k y HkT Hm) as (u & HL & He & Hs).
  destruct (ipcSection_lang u HL) as ((c1 & c2 & tail & Hu & Htail) & (v & d & Hv & Hd)).
  split; [rewrite He, Hu; simpl; lia|].
  destruct (Nat.le_gt_cases (endIndex y) (List.length P)) as [Hle | Hgt];
    [exact Hle | exfalso].
  rewrite skipn_app in Hs. replace (k - List.length P)%nat with O in Hs by lia.
  cbn [skipn] in Hs.
  destruct (app_eq_app_longer _ _ _ _ Hs) as (b & Hb & Eu & EX).
  { rewrite length_skipn. lia. }
  assert (Ha : skipn k P <> []).
  { intros E. apply (f_equal (@List.length char)) in E.
    rewrite length_skipn in E. simpl in E. lia. }
  destruct b as [|b0 b1]; [congruence|].
  cbn [str list_ascii_of_string map app] in EX. injection EX as <- EX.
  destruct b1 as [|b1 b2].
  - rewrite Eu in Hv. apply app_inj_tail in Hv as [_ <-].
    vm_compute in Hd. discriminate.
  - injection EX as <- _. apply Htail.
    destruct (skipn k P) as [|a1 a'] eqn:Ea; [congruence|].
    rewrite Hu in Eu. injection Eu as _ Eu.
    destruct a' as [|a2 a'']; injection Eu as _ ->.
    + now left.
    + apply in_or_app. right. right. now left.
Qed.

(** The citation "IPC Section 379", standing as a token, is listed. *)
Lemma sections_has_ipcSection (pre post : jstring) :
  ends_word pre = false -> starts_digit post = false ->
  In (str "IPC 379")
    (Extract.sections (Extract.text (pre ++ str "IPC Section 379" ++ post))).
Proof.
  intros Hpre Hpost. rewrite text_unix_lines.
  cbn [str list_ascii_of_string map app].
  rewrite (unix_lines_app (List.length pre)) by (reflexivity || lia).
  rewrite !unix_lines_cons_other by reflexivity.
  set (P := unix_lines pre). set (Q := unix_lines post).
  assert (HP : is_word_opt (last_read None P) = false)
    by exact (unix_lines_ends_word pre Hpre).
  assert (HQ : starts_digit Q = false) by exact (unix_lines_starts_digit post Hpost).
  change (N_of_ascii "I" :: N_of_ascii "P" :: N_of_ascii "C" :: N_of_ascii " "
            :: N_of_ascii "S" :: N_of_ascii "e" :: N_of_ascii "c" :: N_of_ascii "t"
            :: N_of_ascii "i" :: N_of_ascii "o" :: N_of_ascii "n" :: N_of_ascii " "
            :: N_of_ascii "3" :: N_of_ascii "7" :: N_of_ascii "9" :: Q)
    with (str "IPC Section 379" ++ Q).
  rewrite sections_insertions. apply in_array_from_set, in_or_app. left.
  apply in_map_iff.
  exists (mkMatch (List.length P)
            (mkState (Some 57) Q (15 + List.length P)
               [(1%nat, (12 + List.length P, 15 + List.length P)%nat)])).
  split.
  - unfold Extract.ipc, group_text. cbn [final captures cap_get Nat.eqb].
    rewrite (Nat.add_comm 12), (Nat.add_comm 15), slice_app_shift. reflexivity.
  - apply matchAll_finds.
    + rewrite length_app. lia.
    + rewrite state_at_app. now apply ipcSection_at.
    + intros k y. apply ipcSection_no_overlap.
Qed.


(** *** The second citation shape *)

(** "Section 379 IPC" read at the head of a text, whatever follows. *)
Lemma section_ipc_prefix (c : Continuation) (p : option char) (Q : jstring)
    (z : MatchState) :
  c (mkState (Some (67 : char)) Q 15 [(1%nat, (8%nat, 11%nat))]) = Some z ->
  matcher true (seq [lit "Section"; star ws; Group 1 (plus digit); star ws; lit "IPC"])
    (mkState p (str "Section 379 IPC" ++ Q) 0 []) c = Some z.
Proof. intros H. vm_compute. rewrite H. reflexivity. Qed.

(** The second citation pattern matches "Section 379 IPC" where it stands
    as a token. *)
Lemma sectionIpc_at (p : option char) (Q : jstring) (i : nat) :
  is_word_opt p = false -> starts_word Q = false ->
  matcher (ignoreCase Pat.sectionIpc) (pattern Pat.sectionIpc)
    (mkState p (str "Section 379 IPC" ++ Q) i []) Some
  = Some (mkState (Some 67) Q (15 + i) [(1%nat, (8 + i, 11 + i)%nat)]).
Proof.
  intros Hp HQ. rewrite matcher_from_zero.
  change (pattern Pat.sectionIpc)
    with (Seq WordB (seq [lit "Section"; star ws; Group 1 (plus digit); star ws;
                          lit "IPC"; WordB])).
  change (ignoreCase Pat.sectionIpc) with true.
  rewrite matcher_seq, matcher_wordb. cbn [prev rest hd_error str
    list_ascii_of_string map app].
  rewrite Hp. change (is_word_opt (Some (N_of_ascii "S"))) with true.
  cbn [Bool.eqb].
  change (matcher true
            (seq [lit "Section"; star ws; Group 1 (plus digit); star ws; lit "IPC";
                  WordB]) ?x ?c)
    with (matcher true
            (seq [lit "Section"; star ws; Group 1 (plus digit); star ws; lit "IPC"]) x
            (fun y => matcher true WordB y c)).
  apply section_ipc_prefix.
  rewrite matcher_wordb. cbn [prev rest].
  unfold starts_word in HQ. rewrite HQ. reflexivity.
Qed.

(** What the second citation pattern reads: a code unit, then no "S". *)
Lemma sectionIpc_lang (u : jstring) :
  lang (ignoreCase Pat.sectionIpc) (pattern Pat.sectionIpc) u ->
  exists c1 tail, u = c1 :: tail /\ ~ In 83 tail.
Proof.
  change (pattern Pat.sectionIpc)
    with (Seq WordB (Seq (Seq (cls [(83, 83)]) (lit "ection"))
            (Seq (star ws) (Seq (Group 1 (plus digit)) (Seq (star ws)
               (Seq (lit "IPC") (Seq WordB Empty))))))).
  change (ignoreCase Pat.sectionIpc) with true.
  intros (u0 & u1 & -> & -> & (w & u2 & -> & Hw & H2)).
  destruct Hw as (w1 & w2 & -> & (c1 & -> & _) & Hw2).
  exists c1, (w2 ++ u2). split; [now rewrite <- app_assoc|].
  intros Hin.
  assert (HL : lang true (Seq (lit "ection")
                 (Seq (star ws) (Seq (Group 1 (plus digit)) (Seq (star ws)
                    (Seq (lit "IPC") (Seq WordB Empty)))))) (w2 ++ u2)).
  { exists w2, u2. auto. }
  apply lang_may_contain in HL. rewrite Forall_forall in HL.
  specialize (HL 83 Hin). vm_compute in HL. discriminate.
Qed.

Lemma sectionIpc_no_overlap (P Q : jstring) (k : nat) (y : MatchState) :
  (k < List.length P)%nat ->
  matcher (ignoreCase Pat.sectionIpc) (pattern Pat.sectionIpc)
    (state_at (P ++ str "Section 379 IPC" ++ Q) k) Some = Some y ->
  (k < endIndex y <= List.length P)%nat.
Proof.
  intros Hk Hm.
  assert (HkT : (k <= List.length (P ++ str "Section 379 IPC" ++ Q))%nat)
    by (rewrite length_app; lia).
  destruct (matcher_reads Pat.sectionIpc _ k y HkT Hm) as (u & HL & He & Hs).
  destruct (sectionIpc_lang u HL) as (c1 & tail & Hu & Htail).
  split; [rewrite He, Hu; simpl; lia|].
  destruct (Nat.le_gt_cases (endIndex y) (List.length P)) as [Hle | Hgt];
    [exact Hle | exfalso].
  rewrite skipn_app in Hs. replace (k - List.length P)%nat with O in Hs by lia.
  cbn [skipn] in Hs.
  destruct (app_eq_app_longer _ _ _ _ Hs) as (b & Hb & Eu & EX).
  { rewrite length_skipn. lia. }
  assert (Ha : skipn k P <> []).
  { intros E. apply (f_equal (@List.length char)) in E.
    rewrite length_skipn in E. simpl in E. lia. }
  destruct b as [|b0 b1]; [congruence|].
  cbn [str list_ascii_of_string map app] in EX. injection EX as <- _.
  apply Htail.
  destruct (skipn k P) as [|a1 a'] eqn:Ea; [congruence|].
  rewrite Hu in Eu. injection Eu as _ ->. apply in_elt.
Qed.

(** The citation "Section 379 IPC", standing as a token, is listed. *)
Lemma sections_has_sectionIpc (pre post : jstring) :
  ends_word pre = false -> starts_word post = false ->
  In (str "IPC 379")
    (Extract.sections (Extract.text (pre ++ str "Section 379 IPC" ++ post))).
Proof.
  intros Hpre Hpost. rewrite text_unix_lines.
  cbn [str list_ascii_of_string map app].
  rewrite (unix_lines_app (List.length pre)) by (reflexivity || lia).
  rewrite !unix_lines_cons_other by reflexivity.
  set (P := unix_lines pre). set (Q := unix_lines post).
  assert (HP : is_word_opt (last_read None P) = false)
    by exact (unix_lines_ends_word pre Hpre).
  assert (HQ : starts_word Q = false) by exact (unix_lines_starts_word post Hpost).
  change (N_of_ascii "S" :: N_of_ascii "e" :: N_of_ascii "c" :: N_of_ascii "t"
            :: N_of_ascii "i" :: N_of_ascii "o" :: N_of_ascii "n" :: N_of_ascii " "
            :: N_of_ascii "3" :: N_of_ascii "7" :: N_of_ascii "9" :: N_of_ascii " "
            :: N_of_ascii "I" :: N_of_ascii "P" :: N_of_ascii "C" :: Q)
    with (str "Section 379 IPC" ++ Q).
  rewrite sections_insertions. apply in_array_from_set, in_or_app. right.
  apply in_map_iff.
  exists (mkMatch (List.length P)
            (mkState (Some 67) Q (15 + List.length P)
               [(1%nat, (8 + List.length P, 11 + List.length P)%nat)])).
  split.
  - unfold Extract.ipc, group_text. cbn [final captures cap_get Nat.eqb].
    rewrite (Nat.add_comm 8), (Nat.add_comm 11), slice_app_shift. reflexivity.
  - apply matchAll_finds.
    + rewrite length_app. lia.
    + rewrite state_at_app. now apply sectionIpc_at.
    + intros k y. apply sectionIpc_no_overlap.
Qed.

Lemma sections_of_parseFIR (raw : jstring) :
  ~ blank raw ->
  sections (entities (parseFIR raw)) = Extract.sections (Extract.text raw).
Proof.
  intros H. unfold parseFIR. now rewrite (guard_not_blank raw H).
Qed.

Lemma sections_nodup (text : jstring) : NoDup (Extract.sections text).
Proof. rewrite sections_insertions. apply nodup_array_from_set. Qed.

(** C9, as stated, fails: a text can contain both citations as parts of
    longer tokens, and then "IPC 379" is not listed. *)
Lemma citations_inside_tokens :
  let raw := str "IPC Section 3790 and ASection 379 IPC" in
  (exists a b, raw = a ++ str "IPC Section 379" ++ b) /\
  (exists a b, raw = a ++ str "Section 379 IPC" ++ b) /\
  sections (entities (parseFIR raw)) = [str "IPC 3790"] /\
  occurrences (str "IPC 379") (sections (entities (parseFIR raw))) = 0%nat.
Proof.
  cbv zeta. split; [|split; [|split]].
  - exists [], (str "0 and ASection 379 IPC"). reflexivity.
  - exists (str "IPC Section 3790 and A"), []. reflexivity.
  - vm_compute. reflexivity.
  - vm_compute. reflexivity.
Qed.

(** C9, amended: when the input contains the citation "IPC Section 379"
    after no word character and before no digit, or the citation
    "Section 379 IPC" after no word character and before none, "IPC 379" is
    listed in the sections exactly once. *)
Theorem sections_lists_379_once (pre post : jstring) :
  ends_word pre = false ->
  (starts_digit post = false ->
   occurrences (str "IPC 379")
     (sections (entities (parseFIR (pre ++ str "IPC Section 379" ++ post)))) = 1%nat) /\
  (starts_word post = false ->
   occurrences (str "IPC 379")
     (sections (entities (parseFIR (pre ++ str "Section 379 IPC" ++ post)))) = 1%nat).
Proof.
  intros Hpre. split; intros Hpost.
  - rewrite sections_of_parseFIR.
    + apply occurrences_once; [apply sections_nodup|].
      now apply sections_has_ipcSection.
    + cbn [str list_ascii_of_string map app]. now apply not_blank_with.
  - rewrite sections_of_parseFIR.
    + apply occurrences_once; [apply sections_nodup|].
      now apply sections_has_sectionIpc.
    + cbn [str list_ascii_of_string map app]. now apply not_blank_with.
Qed.

Lemma sections_lists_379_once_witness :
  occurrences (str "IPC 379")
    (sections (entities (parseFIR
       (str "Theft under " ++ str "IPC Section 379" ++ str " and Section 379 IPC.")))) = 1%nat /\
  occurrences (str "IPC 379")
    (sections (entities (parseFIR
       (str "Theft under " ++ str "Section 379 IPC" ++ str ", reported.")))) = 1%nat.
Proof.
  split.
  - apply (proj1 (sections_lists_379_once (str "Theft under ")
                    (str " and Section 379 IPC.") eq_refl)). reflexivity.
  - apply (proj2 (sections_lists_379_once (str "Theft under ")
                    (str ", reported.") eq_refl)). reflexivity.
Defined.

End Citations.

(** ** Heading-delimited blocks *)

Section Blocks.

(** A pattern without groups leaves the captures as they are. *)
Lemma reps_no_groups (R : MatchState -> MatchState -> Prop) :
  (forall x y, R x y -> captures y = captures x) ->
  forall n min max x y,
    reps (fun x w => R (with_captures x (cap_clear [] (captures x))) w) n min max x y ->
    captures y = captures x.
Proof.
  intros HR. induction n as [|n IH]; intros min max x y H; cbn [reps] in H.
  - now destruct H as (-> & _).
  - destruct H as (_ & w & Hw & _ & Hn). apply HR in Hw. apply IH in Hn.
    rewrite Hn, Hw. cbn [with_captures captures]. apply cap_clear_nil.
Qed.

Lemma span_no_groups (ic : bool) (r : regex) :
  groups r = [] -> forall x y, span ic r x y -> captures y = captures x.
Proof.
  induction r as [|A inv|r1 IH1 r2 IH2|r1 IH1 r2 IH2|min max greedy r IH
                 |n r IH|positive r IH| | |]; intros Hg x y H;
    cbn [span groups] in *.
  - now subst.
  - now destruct H as (ch & s & _ & _ & ->).
  - apply app_eq_nil in Hg as [Hg1 Hg2]. destruct H as (w & H1 & H2).
    rewrite (IH2 Hg2 _ _ H2). now apply IH1.
  - apply app_eq_nil in Hg as [Hg1 Hg2]. destruct H as [H | H]; auto.
  - destruct H as (n & H). rewrite Hg in H.
    exact (reps_no_groups (span ic r) (IH Hg) n min max x y H).
  - discriminate.
  - destruct positive.
    + destruct H as (w & Hw & ->). cbn [with_captures captures]. now apply IH.
    + now destruct H as (-> & _).
  - now destruct H as (-> & _).
  - now destruct H as (-> & _).
  - now destruct H as (-> & _).
Qed.

(** A lookahead without groups only tests. *)
Lemma lookahead_test (ic : bool) (r : regex) (x : MatchState) (c : Continuation) :
  groups r = [] ->
  matcher ic (Look true r) x c =
    match matcher ic r x Some with
    | Some _ => c x
    | None => None
    end.
Proof.
  intros Hg. cbn [matcher]. destruct (matcher ic r x Some) as [y|] eqn:E;
    [|reflexivity].
  apply matcher_span in E as (y' & Hy & Ey). injection Ey as ->.
  rewrite (span_no_groups ic r Hg x y Hy). now rewrite with_captures_same.
Qed.

Lemma accepts_ws_ic (ch : char) : accepts true ws_ranges false ch = is_ws ch.
Proof.
  unfold accepts, cs_mem, is_ws. cbn [andb].
  destruct (in_ranges ws_ranges ch) eqn:E; [reflexivity|]. cbn [orb].
  assert (Hup : in_ranges ws_ranges (to_upper ch) = false).
  { unfold to_upper. destruct (in_range 97 122 ch) eqn:E1; [|exact E].
    apply in_range_true in E1. unfold in_ranges, ws_ranges. cbn [existsb fst snd].
    rewrite !in_range_false by lia. reflexivity. }
  assert (Hlo : in_ranges ws_ranges (to_lower ch) = false).
  { unfold to_lower. destruct (in_range 65 90 ch) eqn:E1; [|exact E].
    apply in_range_true in E1. unfold in_ranges, ws_ranges. cbn [existsb fst snd].
    rewrite !in_range_false by lia. reflexivity. }
  now rewrite Hup, Hlo.
Qed.

Lemma not_ws_not_lf (ch : char) : is_ws ch = false -> char_eqb ch LF = false.
Proof.
  intros H. destruct (char_eqb ch LF) eqn:E; [|reflexivity].
  apply char_eqb_eq in E. subst ch. discriminate.
Qed.

(** The lookahead that ends a name fails before a code unit that is
    neither white space nor a comma... *)
Lemma stop_label_no (p : option char) (ch : char) (s : jstring) (i : nat) caps
    (c : Continuation) :
  is_ws ch || char_eqb ch 44 = false ->
  matcher true Pat.stop_label (mkState p (ch :: s) i caps) c = None.
Proof.
  intros H. apply orb_false_iff in H as [Hws Hcomma].
  unfold Pat.stop_label, ahead. rewrite lookahead_test by reflexivity.
  assert (E : matcher true
                (alt [seq [plus ws; Pat.field_labels; WordB]; lit ",";
                      cls [(LF, LF)]; Eol])
                (mkState p (ch :: s) i caps) Some = None).
  { cbn [alt]. cbn [matcher].
    fold (matcher true (seq [plus ws; Pat.field_labels; WordB])).
    fold (matcher true (lit ",")). fold (matcher true (cls [(LF, LF)])).
    assert (E1 : matcher true (seq [plus ws; Pat.field_labels; WordB])
                   (mkState p (ch :: s) i caps) Some = None).
    { unfold seq. cbn [fold_right]. rewrite matcher_seq. unfold plus, ws, cls.
      rewrite matcher_quant. cbn [rest List.length Nat.add groups].
      rewrite repeat_matcher_S. cbn [max_is_zero is_zero negb].
      unfold with_captures. cbn [prev rest endIndex captures].
      now rewrite cap_clear_nil, matcher_charset, accepts_ws_ic, Hws. }
    rewrite E1.
    assert (E2 : matcher true (lit ",") (mkState p (ch :: s) i caps) Some = None).
    { change (lit ",") with (Seq (CharSet [(44, 44)] false) Empty).
      rewrite matcher_seq, matcher_charset.
      rewrite (accepts_single true 44 ch) by lia. now rewrite Hcomma. }
    rewrite E2. unfold cls. rewrite matcher_charset.
    rewrite (accepts_single true LF ch) by (unfold LF; lia).
    now rewrite (not_ws_not_lf ch Hws). }
  now rewrite E.
Qed.

(** ... and succeeds before a line end. *)
Lemma stop_label_newline (p : option char) (s : jstring) (i : nat) caps
    (c : Continuation) :
  matcher true Pat.stop_label (mkState p (LF :: s) i caps) c
  = c (mkState p (LF :: s) i caps).
Proof.
  unfold Pat.stop_label, ahead. rewrite lookahead_test by reflexivity.
  cbn [alt]. cbn [matcher].
  fold (matcher true (seq [plus ws; Pat.field_labels; WordB])).
  destruct (matcher true (seq [plus ws; Pat.field_labels; WordB])
              (mkState p (LF :: s) i caps) Some); reflexivity.
Qed.

(** *** Searching from a later position *)

Lemma shift_shift (j k : nat) (x : MatchState) :
  shift k (shift j x) = shift (j + k) x.
Proof.
  unfold shift. cbn [prev rest endIndex captures]. f_equal; [lia|].
  unfold shift_caps. rewrite map_map. apply map_ext. intros [n [a b]].
  cbn [fst snd]. apply f_equal2; [reflexivity|]. apply f_equal2; lia.
Qed.

Lemma exec_loop_shift (re : RegExp) :
  forall s p i,
    exec_loop re p s i = option_map (shift_match i) (exec_loop re p s 0).
Proof.
  induction s as [|ch s IH]; intros p i; cbn [exec_loop];
    rewrite (matcher_from_zero (ignoreCase re) (pattern re) p _ i),
      (matcher_total (ignoreCase re) (pattern re) _ (shift i));
    destruct (matcher (ignoreCase re) (pattern re) _ Some) as [y|];
    cbn [option_map]; try reflexivity.
  rewrite (IH (Some ch) (S i)), (IH (Some ch) 1%nat).
  destruct (exec_loop re (Some ch) s 0) as [m|]; cbn [option_map]; [|reflexivity].
  unfold shift_match. cbn [index final]. rewrite shift_shift.
  f_equal. f_equal. lia.
Qed.

End Blocks.

(** ** The complainant and accused blocks *)

Section Parties.

(** A pattern that starts with a character set consumes at least one
    code unit, and what follows the first one is consumed by the rest. *)
Lemma lang_head_tail (ic : bool) (A : list (char * char)) (invert : bool)
    (R : regex) (w : jstring) :
  lang ic (Seq (Seq (CharSet A invert) Empty) R) w ->
  exists ch w', w = ch :: w' /\ accepts ic A invert ch = true /\ lang ic R w'.
Proof.
  intros (u1 & u2 & -> & (a & b & -> & (ch & -> & Hch) & ->) & HR).
  exists ch, u2. cbn [app]. repeat split; [|exact HR].
  unfold accepts. now rewrite Hch.
Qed.

(** Where the pattern finds nothing in the text before, and the text after
    starts with a code unit that only the first position of the pattern
    could consume, the search goes on to the text after. *)
Lemma exec_loop_before (re : RegExp) (A : list (char * char)) (invert : bool)
    (R : regex) (x0 : char) (X : jstring) :
  pattern re = Seq (Seq (CharSet A invert) Empty) R ->
  plain R = true ->
  may_contain (ignoreCase re) R x0 = false ->
  hd_error X = Some x0 ->
  forall P p i,
    exec_loop re p P i = None ->
    exec_loop re p (P ++ X) i = exec_loop re (last_read p P) X (i + List.length P).
Proof.
  intros Hpat Hplain Hx0 HX. induction P as [|ch P IH]; intros p i Hno.
  - cbn [app List.length last_read rev]. now rewrite Nat.add_0_r.
  - cbn [exec_loop] in Hno.
    destruct (matcher (ignoreCase re) (pattern re) (mkState p (ch :: P) i []) Some)
      as [y0|] eqn:E0; [discriminate|].
    cbn [app exec_loop].
    destruct (matcher (ignoreCase re) (pattern re)
                (mkState p (ch :: P ++ X) i []) Some) as [y|] eqn:E.
    + exfalso.
      destruct (le_lt_dec (List.length X) (List.length (rest y))) as [Hk|Hk].
      * apply (matcher_without (ignoreCase re) (pattern re) p (ch :: P) X i y);
          [rewrite Hpat; cbn [plain]; now rewrite Hplain | exact E | exact Hk
          | exact E0].
      * destruct (matcher_span (ignoreCase re) (pattern re) _ _ _ E)
          as (y' & Hs & Ey). injection Ey as ->.
        destruct (span_reads (ignoreCase re) (pattern re) _ _ Hs)
          as (w & (Hr & _) & Hw).
        cbn [rest] in Hr. rewrite Hpat in Hw.
        destruct (lang_head_tail _ _ _ _ _ Hw) as (c1 & w' & -> & _ & HR).
        change (ch :: P ++ X) with ((ch :: P) ++ X) in Hr.
        destruct (app_eq_app_longer (ch :: P) X (c1 :: w') (rest y) Hr)
          as (b & Hb & E1 & E2).
        { apply (f_equal (@List.length _)) in Hr. rewrite !length_app in Hr. lia. }
        destruct b as [|b0 b]; [congruence|].
        rewrite E2 in HX. cbn [app hd_error] in HX. injection HX as ->.
        cbn [app] in E1. injection E1 as _ E1.
        pose proof (lang_may_contain _ _ _ HR) as HF.
        rewrite Forall_forall in HF.
        assert (Hin : In x0 w') by (rewrite E1; apply in_elt).
        specialize (HF _ Hin). congruence.
    + rewrite IH by exact Hno.
      rewrite last_read_cons. cbn [List.length].
      replace (i + S (List.length P))%nat with (S i + List.length P)%nat by lia.
      reflexivity.
Qed.

(** A search does not stop inside a text none of whose code units the
    pattern can consume. *)
Lemma exec_loop_after (re : RegExp) (A : list (char * char)) (invert : bool)
    (R : regex) (P X : jstring) (p : option char) (i : nat) (m : Match) :
  pattern re = Seq (Seq (CharSet A invert) Empty) R ->
  forallb (fun ch => negb (accepts (ignoreCase re) A invert ch)) P = true ->
  exec_loop re p (P ++ X) i = Some m ->
  exists u v, X = u ++ v /\ index m = (i + List.length P + List.length u)%nat.
Proof.
  intros Hpat HP E.
  destruct (exec_loop_some re p _ i m E) as (u & v & Euv & Hi & Hm & _).
  destruct (matcher_span (ignoreCase re) (pattern re) _ _ _ Hm) as (y' & Hs & _).
  destruct (span_reads (ignoreCase re) (pattern re) _ _ Hs) as (w & (Hr & _) & Hw).
  cbn [rest] in Hr. rewrite Hpat in Hw.
  destruct (lang_head_tail _ _ _ _ _ Hw) as (c1 & w' & -> & Hc1 & _).
  apply app_eq_app in Euv. destruct Euv as (l & [[E1 E2] | [E1 E2]]).
  - destruct l as [|l0 l].
    + rewrite app_nil_r in E1. cbn [app] in E2. subst u v.
      exists [], X. split; [reflexivity|]. rewrite Hi. cbn [List.length]. lia.
    + exfalso. rewrite Hr in E2. cbn [app] in E2. injection E2 as <- _.
      rewrite forallb_forall in HP.
      assert (Hin : In c1 P) by (rewrite E1; apply in_elt).
      specialize (HP _ Hin). rewrite Hc1 in HP. discriminate.
  - exists l, v. split; [exact E2|]. rewrite Hi, E1, length_app. lia.
Qed.

(** Only CR starts a line end that is rewritten. *)
Lemma unix_lines_plain (a s : jstring) :
  forallb (fun ch => negb (char_eqb ch CR)) a = true ->
  unix_lines (a ++ s) = a ++ unix_lines s.
Proof.
  induction a as [|ch a IH]; intros H; [reflexivity|].
  cbn [forallb] in H. apply andb_true_iff in H. destruct H as [H1 H2].
  cbn [app]. rewrite unix_lines_cons_other by now destruct (char_eqb ch CR).
  now rewrite IH.
Qed.

Lemma text_parties (pre post : jstring) :
  Extract.text (pre ++ parties_block ++ post)
  = unix_lines pre ++ parties_block ++ unix_lines post.
Proof.
  rewrite text_unix_lines.
  change (parties_block ++ post) with (49 :: tl parties_block ++ post).
  rewrite (unix_lines_app (List.length pre)) by (reflexivity || lia).
  change (49 :: tl parties_block ++ post) with (parties_block ++ post).
  now rewrite unix_lines_plain.
Qed.

Lemma slice_from_app (P X : jstring) (k : nat) :
  slice_from (k + List.length P) (P ++ X) = slice_from k X.
Proof.
  unfold slice_from. rewrite skipn_app, skipn_all2 by lia. cbn [app].
  f_equal. lia.
Qed.

Lemma index_shift_match (k : nat) (o : option Match) :
  option_map index (option_map (shift_match k) o)
  = option_map (fun i => (i + k)%nat) (option_map index o).
Proof. now destruct o. Qed.

(** The search for a heading that is not found before the example's
    blocks. *)
Lemma search_before_parties (re : RegExp) (A : list (char * char)) (invert : bool)
    (R : regex) (P Q : jstring) :
  pattern re = Seq (Seq (CharSet A invert) Empty) R ->
  plain R = true ->
  may_contain (ignoreCase re) R 49 = false ->
  test re P = false ->
  search re (P ++ parties_block ++ Q)
  = option_map (fun i => (i + List.length P)%nat)
      (option_map index (exec_loop re (last_read None P) (parties_block ++ Q) 0)).
Proof.
  intros Hpat Hplain HR Hno. unfold search, exec, state0. cbn [prev rest endIndex].
  assert (Hnone : exec_loop re None P 0 = None).
  { unfold test, exec, state0 in Hno. cbn [prev rest endIndex] in Hno.
    now destruct (exec_loop re None P 0). }
  rewrite (exec_loop_before re A invert R 49 (parties_block ++ Q) Hpat Hplain HR
             eq_refl P None 0%nat Hnone).
  rewrite exec_loop_shift. apply index_shift_match.
Qed.

Lemma heading1_parties (p : option char) (Q : jstring) :
  option_map index (exec_loop Pat.heading1 p (parties_block ++ Q) 0) = Some 0%nat.
Proof. vm_compute. reflexivity. Qed.

Lemma heading2_parties (p : option char) (Q : jstring) :
  option_map index (exec_loop Pat.heading2 p (parties_block ++ Q) 0) = Some 51%nat.
Proof. vm_compute. reflexivity. Qed.

Lemma complainantBlock_parties (P Q : jstring) :
  test Pat.heading1 P = false ->
  Extract.complainantBlock (P ++ parties_block ++ Q)
  = match search (Pat.numbered "2") (parties_block ++ Q) with
    | None => parties_block ++ Q
    | Some e => slice 0 e (parties_block ++ Q)
    end.
Proof.
  intros Hno. unfold Extract.complainantBlock, Extract.sliceBetween.
  rewrite (search_before_parties Pat.heading1 _ _ _ P Q eq_refl eq_refl eq_refl Hno).
  rewrite heading1_parties. cbn [option_map]. cbv zeta.
  now rewrite (slice_from_app P (parties_block ++ Q) 0).
Qed.

Lemma complainantName_parties (Q : jstring) :
  match_group Pat.complainantName
    match search (Pat.numbered "2") (parties_block ++ Q) with
    | None => parties_block ++ Q
    | Some e => slice 0 e (parties_block ++ Q)
    end 1
  = Some (str "Rajesh Kumar").
Proof. vm_compute. reflexivity. Qed.

Lemma accusedBlock_parties (P Q : jstring) :
  test Pat.heading2 P = false ->
  Extract.accusedBlock (P ++ parties_block ++ Q)
  = match search (Pat.numbered "3") (accused_lines ++ Q) with
    | None => accused_lines ++ Q
    | Some e => slice 0 e (accused_lines ++ Q)
    end.
Proof.
  intros Hno. unfold Extract.accusedBlock, Extract.sliceBetween.
  rewrite (search_before_parties Pat.heading2 _ _ _ P Q eq_refl eq_refl eq_refl Hno).
  rewrite heading2_parties. cbn [option_map]. cbv zeta.
  now rewrite (slice_from_app P (parties_block ++ Q) 51).
Qed.

(** The accused block keeps the two lines of the example whatever follows. *)
Lemma accusedBlock_lines (Q : jstring) :
  exists Q', match search (Pat.numbered "3") (accused_lines ++ Q) with
             | None => accused_lines ++ Q
             | Some e => slice 0 e (accused_lines ++ Q)
             end = accused_lines ++ Q'.
Proof.
  unfold search, exec, state0. cbn [prev rest endIndex].
  destruct (exec_loop (Pat.numbered "3") None (accused_lines ++ Q) 0) as [m|] eqn:E;
    cbn [option_map]; [|now exists Q].
  destruct (exec_loop_after (Pat.numbered "3") _ _ _ accused_lines Q None 0%nat m
              eq_refl eq_refl E) as (u & v & -> & ->).
  exists u. unfold slice. cbn [skipn]. rewrite Nat.sub_0_r.
  rewrite firstn_app.
  replace (0 + List.length accused_lines + List.length u - List.length accused_lines)%nat
    with (List.length u) by lia.
  rewrite firstn_all2 by lia.
  now rewrite firstn_app, firstn_all, Nat.sub_diag, app_nil_r.
Qed.

(** The search passes a text none of whose code units can start a match. *)
Lemma exec_loop_pass (re : RegExp) (A : list (char * char)) (invert : bool)
    (R1 R : regex) (X : jstring) :
  pattern re = Seq (Seq (CharSet A invert) R1) R ->
  forall P p i,
    forallb (fun ch => negb (accepts (ignoreCase re) A invert ch)) P = true ->
    exec_loop re p (P ++ X) i = exec_loop re (last_read p P) X (i + List.length P).
Proof.
  intros Hpat. induction P as [|ch P IH]; intros p i HP.
  - cbn [app List.length last_read rev]. now rewrite Nat.add_0_r.
  - cbn [forallb] in HP. apply andb_true_iff in HP. destruct HP as [H1 H2].
    cbn [app exec_loop]. rewrite Hpat, !matcher_seq, matcher_charset.
    destruct (accepts (ignoreCase re) A invert ch); [discriminate|].
    rewrite IH by exact H2.
    rewrite last_read_cons. cbn [List.length].
    replace (i + S (List.length P))%nat with (S i + List.length P)%nat by lia.
    reflexivity.
Qed.

Lemma exec_loop_found (re : RegExp) (p : option char) (s : jstring) (i : nat)
    (y : MatchState) :
  matcher (ignoreCase re) (pattern re) (mkState p s i []) Some = Some y ->
  exec_loop re p s i = Some (mkMatch i y).
Proof. intros H. destruct s; cbn [exec_loop]; now rewrite H. Qed.

(** A sequence matches as its first items do, the rest of the items being
    part of what comes next. *)
Lemma matcher_seq_app (ic : bool) (l1 l2 : list regex) :
  forall x c,
    matcher ic (seq (l1 ++ l2)) x c
    = matcher ic (seq l1) x (fun y => matcher ic (seq l2) y c).
Proof.
  induction l1 as [|a l1 IH]; intros x c; [reflexivity|].
  cbn [app]. change (seq (a :: l1 ++ l2)) with (Seq a (seq (l1 ++ l2))).
  change (seq (a :: l1)) with (Seq a (seq l1)).
  rewrite !matcher_seq. apply matcher_agree. intros u y _. apply IH.
Qed.

(** [Name\s*:\s*([A-Za-z .@'_-]+?)] on the name line of the accused block:
    the group grows one code unit at a time, and what follows the group is
    tried after each of them. *)
Lemma accusedName_prefix (p : option char) (Q : jstring)
    (k : Continuation) (z : MatchState) :
  k (mkState (Some 85) (110 :: 107 :: 110 :: 111 :: 119 :: 110 :: 10 :: Q) 26
       [(1, (25, 26))%nat]) = None ->
  k (mkState (Some 110) (107 :: 110 :: 111 :: 119 :: 110 :: 10 :: Q) 27
       [(1, (25, 27))%nat]) = None ->
  k (mkState (Some 107) (110 :: 111 :: 119 :: 110 :: 10 :: Q) 28
       [(1, (25, 28))%nat]) = None ->
  k (mkState (Some 110) (111 :: 119 :: 110 :: 10 :: Q) 29
       [(1, (25, 29))%nat]) = None ->
  k (mkState (Some 111) (119 :: 110 :: 10 :: Q) 30 [(1, (25, 30))%nat]) = None ->
  k (mkState (Some 119) (110 :: 10 :: Q) 31 [(1, (25, 31))%nat]) = None ->
  k (mkState (Some 110) (10 :: Q) 32 [(1, (25, 32))%nat]) = Some z ->
  matcher true
    (seq [lit "Name"; star ws; lit ":"; star ws;
          Group 1 (lazy_plus (cls Pat.name_chars_at))])
    (mkState p (str "Name: Unknown" ++ LF :: Q) 19 []) k
  = Some z.
Proof.
  intros H1 H2 H3 H4 H5 H6 H7. vm_compute.
  rewrite H1, H2, H3, H4, H5, H6, H7. reflexivity.
Qed.

Lemma accusedName_at (p : option char) (Q : jstring) :
  matcher true (pattern Pat.accusedName)
    (mkState p (str "Name: Unknown" ++ LF :: Q) 19 []) Some
  = Some (mkState (Some 110) (LF :: Q) 32 [(1, (25, 32))%nat]).
Proof.
  change (pattern Pat.accusedName)
    with (seq ([lit "Name"; star ws; lit ":"; star ws;
                Group 1 (lazy_plus (cls Pat.name_chars_at))] ++ [Pat.stop_label])).
  rewrite matcher_seq_app.
  apply accusedName_prefix;
    change (seq [Pat.stop_label]) with (Seq Pat.stop_label Empty);
    rewrite matcher_seq;
    try (apply stop_label_no; reflexivity).
  now rewrite stop_label_newline.
Qed.

Lemma accusedName_lines (Q : jstring) :
  match_group Pat.accusedName (accused_lines ++ Q) 1 = Some (str "Unknown").
Proof.
  unfold match_group, exec, state0. cbn [prev rest endIndex].
  change (accused_lines ++ Q)
    with ((str "2. Accused Details" ++ [LF]) ++ str "Name: Unknown" ++ LF :: Q) at 1.
  rewrite (exec_loop_pass Pat.accusedName _ _ _ _ (str "Name: Unknown" ++ LF :: Q)
             eq_refl (str "2. Accused Details" ++ [LF]) None 0%nat eq_refl).
  change (0 + List.length (str "2. Accused Details" ++ [LF]))%nat with 19%nat.
  rewrite (exec_loop_found Pat.accusedName _ _ _ _ (accusedName_at _ Q)).
  reflexivity.
Qed.

Lemma entities_of_parseFIR (raw : jstring) :
  ~ blank raw ->
  let text := Extract.text raw in
  let flat := Extract.flat text in
  complainant (entities (parseFIR raw)) = or_else (Extract.complainant text flat) NA /\
  accused (entities (parseFIR raw)) = or_else (Extract.accused text flat) NA.
Proof.
  intros H. unfold parseFIR. rewrite (guard_not_blank raw H). now split.
Qed.

(** C8, as stated, fails: the complainant is read from the first block
    headed "1. Complainant Details", which need not be the one of the
    example. *)
Lemma earlier_complainant_block :
  let raw := str "1. Complainant Details" ++ [LF] ++ str "Name: Asha" ++ [LF]
               ++ parties_block in
  occurs parties_block raw /\
  complainant (entities (parseFIR raw)) = str "Asha" /\
  accused (entities (parseFIR raw)) = str "Unknown".
Proof.
  cbv zeta. split; [|split].
  - exists (str "1. Complainant Details" ++ [LF] ++ str "Name: Asha" ++ [LF]), [].
    now rewrite app_nil_r.
  - vm_compute. reflexivity.
  - vm_compute. reflexivity.
Qed.

Lemma complainant_of_parties (P Q flat : jstring) :
  test Pat.heading1 P = false ->
  Extract.complainant (P ++ parties_block ++ Q) flat = str "Rajesh Kumar".
Proof.
  intros H1. unfold Extract.complainant, Extract.complainantCaptured.
  rewrite (complainantBlock_parties _ _ H1), complainantName_parties.
  reflexivity.
Qed.

Lemma accused_of_parties (P Q flat : jstring) :
  test Pat.heading2 P = false ->
  Extract.accused (P ++ parties_block ++ Q) flat = str "Unknown".
Proof.
  intros H2. unfold Extract.accused, Extract.accusedCaptured.
  rewrite (accusedBlock_parties _ _ H2).
  destruct (accusedBlock_lines Q) as (Q' & ->).
  rewrite accusedName_lines. reflexivity.
Qed.

(** C8, amended: when neither the heading of the complainant block nor the
    heading of the accused block is found in the text before the example's
    block (with its line ends turned into LF, as the code searches it), then
    whatever surrounds the block the complainant is "Rajesh Kumar" and the
    accused is "Unknown". *)
Theorem parties_of_first_blocks (pre post : jstring) :
  test Pat.heading1 (Extract.text pre) = false ->
  test Pat.heading2 (Extract.text pre) = false ->
  let raw := pre ++ parties_block ++ post in
  complainant (entities (parseFIR raw)) = str "Rajesh Kumar" /\
  accused (entities (parseFIR raw)) = str "Unknown".
Proof.
  intros H1 H2 raw.
  assert (Hraw : ~ blank raw).
  { unfold raw. change (parties_block ++ post) with (49 :: tl parties_block ++ post).
    now apply not_blank_with. }
  destruct (entities_of_parseFIR raw Hraw) as [-> ->]. unfold raw.
  rewrite text_parties. rewrite text_unix_lines in H1, H2.
  rewrite (complainant_of_parties _ _ _ H1), (accused_of_parties _ _ _ H2).
  split; reflexivity.
Qed.

Lemma parties_of_first_blocks_witness :
  let raw := (str "FIR No. 12/2024, dated 1.2.2024" ++ [CR; LF]) ++ parties_block
               ++ str "3. Details of the incident" in
  complainant (entities (parseFIR raw)) = str "Rajesh Kumar" /\
  accused (entities (parseFIR raw)) = str "Unknown".
Proof.
  apply (parties_of_first_blocks (str "FIR No. 12/2024, dated 1.2.2024" ++ [CR; LF])
           (str "3. Details of the incident")).
  - vm_compute. reflexivity.
  - vm_compute. reflexivity.
Defined.

End Parties.

(** ** The two normalised copies of the input *)

Section Normalised.

Lemma unix_lines_no_cr (n : nat) :
  forall s, (List.length s <= n)%nat -> ~ In CR (unix_lines s).
Proof.
  induction n as [|n IH]; intros s Hn.
  - destruct s; [easy | simpl in Hn; lia].
  - destruct s as [|x s]; [easy|].
    cbn [unix_lines]. destruct (char_eqb x CR) eqn:Ex.
    + intros [H | H]; [discriminate|].
      destruct s as [|y s]; [easy|]. revert H.
      destruct (char_eqb y LF).
      * apply IH. cbn [List.length] in *. lia.
      * apply IH. cbn [List.length] in *. lia.
    + intros [H | H].
      * subst x. unfold char_eqb in Ex. now rewrite N.eqb_refl in Ex.
      * revert H. apply IH. cbn [List.length] in *. lia.
Qed.

Lemma unix_lines_same (s : jstring) : ~ In CR s -> unix_lines s = s.
Proof.
  induction s as [|x s IH]; intros H; [reflexivity|].
  cbn [unix_lines]. destruct (char_eqb x CR) eqn:Ex.
  - apply char_eqb_eq in Ex. subst x. exfalso. apply H. now left.
  - f_equal. apply IH. intros Hin. apply H. now right.
Qed.

Lemma unix_lines_shorter (n : nat) :
  forall s, (List.length s <= n)%nat ->
    (List.length (unix_lines s) <= List.length s)%nat.
Proof.
  induction n as [|n IH]; intros s Hn.
  - destruct s; [simpl; lia | simpl in Hn; lia].
  - destruct s as [|x s]; [simpl; lia|].
    cbn [unix_lines]. destruct (char_eqb x CR).
    + destruct s as [|y s]; [simpl; lia|].
      destruct (char_eqb y LF).
      * specialize (IH s). cbn [List.length] in *. lia.
      * specialize (IH (y :: s)). cbn [List.length] in *. lia.
    + specialize (IH s). cbn [List.length] in *. lia.
Qed.

(** X1: [text], the input with its line ends normalised, holds no carriage
    return; normalising it again changes nothing; and it is never longer
    than the input. *)
Theorem text_line_ends (raw : jstring) :
  ~ In CR (Extract.text raw) /\
  Extract.text (Extract.text raw) = Extract.text raw /\
  (List.length (Extract.text raw) <= List.length raw)%nat.
Proof.
  rewrite !text_unix_lines.
  pose proof (unix_lines_no_cr (List.length raw) raw (le_n _)) as H.
  split; [exact H|]. split.
  - now apply unix_lines_same.
  - now apply (unix_lines_shorter (List.length raw)).
Qed.

(** *** Parts of a text *)

Lemma occurs_pair_cons (a b c : char) (s : jstring) :
  occurs [a; b] (c :: s) ->
  (c = a /\ exists s', s = b :: s') \/ occurs [a; b] s.
Proof.
  intros (u & v & E). destruct u as [|u0 u]; cbn [app] in E.
  - injection E as -> ->. left. split; [reflexivity | now exists v].
  - injection E as _ ->. right. now exists u, v.
Qed.

Lemma occurs_part (w t s a b : jstring) :
  s = a ++ t ++ b -> occurs w t -> occurs w s.
Proof.
  intros -> (u & v & ->). exists (a ++ u), (v ++ b).
  now rewrite <- !app_assoc.
Qed.

Lemma trimStart_suffix (s : jstring) : exists a, s = a ++ trimStart s.
Proof.
  induction s as [|x s (a & IH)]; [now exists []|].
  cbn [trimStart]. destruct (is_ws x); [|now exists []].
  exists (x :: a). cbn [app]. now f_equal.
Qed.

Lemma trimEnd_prefix (s : jstring) : exists b, s = trimEnd s ++ b.
Proof.
  unfold trimEnd. destruct (trimStart_suffix (rev s)) as (a & E).
  exists (rev a). rewrite <- rev_app_distr, <- E. now rewrite rev_involutive.
Qed.

(** What [trim] returns is a part of its argument. *)
Lemma trim_part (s : jstring) : exists a b, s = a ++ trim s ++ b.
Proof.
  unfold trim. destruct (trimStart_suffix s) as (a & Ea).
  destruct (trimEnd_prefix (trimStart s)) as (b & Eb).
  exists a, b. now rewrite <- Eb.
Qed.

Lemma trimStart_clean (s : jstring) : starts_clean s -> trimStart s = s.
Proof. destruct s as [|x s]; [easy|]. cbn. now intros ->. Qed.

(** Trimming twice is trimming once. *)
Lemma trim_trim (s : jstring) : trim (trim s) = trim s.
Proof.
  unfold trim at 1.
  assert (Hc : starts_clean (trim s)).
  { unfold trim. apply starts_clean_trimEnd, trimStart_starts_clean. }
  rewrite (trimStart_clean _ Hc). unfold trim, trimEnd.
  rewrite rev_involutive. f_equal.
  apply trimStart_clean, trimStart_starts_clean.
Qed.

(** *** The flattened copy *)

Lemma squeeze_blank_spacing (s : jstring) :
  forall b,
    let out := squeeze_from (fun ch => char_eqb ch 32 || char_eqb ch 9) [32] b s in
    ~ occurs [32; 32] out /\ (b = true -> forall t, out <> 32 :: t) /\ ~ In TAB out.
Proof.
  induction s as [|x s IH]; intros b; cbv zeta.
  - cbn [squeeze_from]. split; [|split]; try easy.
    intros (u & v & E). destruct u; discriminate.
  - cbn [squeeze_from]. destruct (IH true) as (Ht1 & Ht2 & Ht3).
    destruct (IH false) as (Hf1 & _ & Hf3). cbv zeta in *.
    destruct (char_eqb x 32 || char_eqb x 9) eqn:Ex.
    + destruct b; cbn [app].
      * split; [exact Ht1|]. split; [intros _; now apply Ht2 | exact Ht3].
      * split; [|split; [discriminate|]].
        -- intros H. apply occurs_pair_cons in H as [(_ & s' & E) | H];
             [now apply (Ht2 eq_refl s') | now apply Ht1].
        -- intros [H | H]; [discriminate | now apply Ht3].
    + apply orb_false_iff in Ex as [E32 E9].
      split; [|split].
      * intros H. apply occurs_pair_cons in H as [(-> & _) | H];
          [discriminate | now apply Hf1].
      * intros _ t E. injection E as -> _. discriminate.
      * intros [H | H]; [|now apply Hf3].
        subst x. discriminate.
Qed.

Lemma flat_marks (text : jstring) :
  ~ In TAB (Extract.flat text) /\ ~ occurs [32; 32] (Extract.flat text).
Proof.
  rewrite flat_squeeze.
  destruct (squeeze_blank_spacing text false) as (H1 & _ & H3). cbv zeta in *.
  fold (squeeze (fun ch => char_eqb ch 32 || char_eqb ch 9) [32] text) in H1, H3.
  destruct (trim_part (squeeze (fun ch => char_eqb ch 32 || char_eqb ch 9) [32] text))
    as (a & b & E).
  split.
  - intros H. apply H3. rewrite E. apply in_or_app. right.
    apply in_or_app. now left.
  - intros H. apply H1. exact (occurs_part _ _ _ a b E H).
Qed.

(** X2: [flat], the copy of the text in which every run of spaces and tabs
    has become one space, holds no tab and no two spaces in a row, and
    trimming leaves it as it is. *)
Theorem flat_spacing (text : jstring) :
  ~ In TAB (Extract.flat text) /\
  ~ occurs (str "  ") (Extract.flat text) /\
  trimmed (Extract.flat text).
Proof.
  destruct (flat_marks text) as [H1 H2].
  split; [exact H1|]. split; [exact H2|].
  rewrite flat_squeeze. apply trim_trim.
Qed.

End Normalised.

(** ** The scalar fields *)

(** The body of group 1 is a repeated character class; the class holds
    the letters of both cases. *)
Ltac group_is_class :=
  let body := fresh "body" in
  let H := fresh "H" in
  intros body H; cbv in H; destruct H as [<- | []];
  eexists _, _, _; reflexivity.

Ltac has_letters := cbv; tauto.

Section Fields.

Lemma trimmed_NA : trimmed NA.
Proof. reflexivity. Qed.

Lemma trimmed_trim (s : jstring) : trimmed (trim s).
Proof. apply trim_trim. Qed.

Lemma trimmed_or_else (a b : jstring) : trimmed a -> trimmed b -> trimmed (or_else a b).
Proof. intros Ha Hb. unfold or_else. now destruct (truthy a). Qed.

(** [pick] returns its fallback or a trimmed text. *)
Lemma trimmed_pick (reArr : list RegExp) (text : jstring) (n : nat) (fb : jstring) :
  trimmed fb -> trimmed (pick reArr text n fb).
Proof.
  intros Hfb.
  destruct (pick_cases reArr text n fb) as [-> | (re & g & _ & _ & _ & ->)];
    [exact Hfb | apply trimmed_trim].
Qed.

Lemma trimmed_location (flat ps : jstring) : trimmed (Extract.location flat ps).
Proof.
  unfold Extract.location. cbv zeta.
  match goal with |- trimmed (if ?c then _ else _) => destruct c end;
    apply trimmed_trim.
Qed.

(** X3: every scalar field of the entities comes out with no white space
    before it and none after it: trimming any of them changes nothing. *)
Theorem scalars_trimmed (raw : jstring) :
  let e := entities (parseFIR raw) in
  trimmed (firNumber e) /\ trimmed (policeStation e) /\ trimmed (date e) /\
  trimmed (time e) /\ trimmed (complainant e) /\ trimmed (accused e) /\
  trimmed (location e) /\ trimmed (investigatingOfficer e).
Proof.
  cbv zeta. unfold parseFIR.
  destruct (negb (truthy raw) || negb (truthy (trim raw))).
  - cbn [empty entities firNumber policeStation date time complainant accused
         location investigatingOfficer].
    repeat split; apply trimmed_NA.
  - cbv zeta.
    cbn [entities firNumber policeStation date time complainant accused
         location investigatingOfficer].
    repeat split; apply trimmed_or_else; try apply trimmed_NA.
    + apply trimmed_pick, trimmed_NA.
    + apply trimmed_pick, trimmed_NA.
    + apply trimmed_pick, trimmed_NA.
    + apply trimmed_pick, trimmed_NA.
    + apply trimmed_trim.
    + apply trimmed_trim.
    + apply trimmed_location.
    + apply trimmed_trim.
Qed.

(** *** The alphabet of a captured value *)

(** A character set that holds the letters of both cases accepts the same
    code units with and without the [i] flag. *)
Lemma cs_mem_closed (ic : bool) (A : list (char * char)) (ch : char) :
  In (65, 90) A -> In (97, 122) A -> cs_mem ic A ch = in_ranges A ch.
Proof.
  intros Hup Hlo. unfold cs_mem.
  destruct (in_ranges A ch) eqn:E; [reflexivity|]. cbn [orb].
  assert (Hu : in_ranges A (to_upper ch) = false).
  { unfold to_upper. destruct (in_range 97 122 ch) eqn:E1; [|exact E].
    exfalso. unfold in_ranges in E.
    assert (H : existsb (fun p => in_range (fst p) (snd p) ch) A = true)
      by (apply existsb_exists; now exists (97, 122)).
    congruence. }
  assert (Hl : in_ranges A (to_lower ch) = false).
  { unfold to_lower. destruct (in_range 65 90 ch) eqn:E1; [|exact E].
    exfalso. unfold in_ranges in E.
    assert (H : existsb (fun p => in_range (fst p) (snd p) ch) A = true)
      by (apply existsb_exists; now exists (65, 90)).
    congruence. }
  rewrite Hu, Hl. now destruct ic.
Qed.

Lemma lang_quant_cs (ic : bool) (min : nat) (max : option nat) (greedy : bool)
    (A : list (char * char)) (u : jstring) :
  lang ic (Quant min max greedy (CharSet A false)) u ->
  Forall (fun ch => cs_mem ic A ch = true) u.
Proof.
  cbn [lang]. intros (us & -> & Hus & _).
  induction Hus as [|v us (ch & -> & Hch) _ IH]; [constructor|].
  cbn [List.concat app]. constructor; [|exact IH].
  now destruct (cs_mem ic A ch).
Qed.

Lemma made_of_part (A : list (char * char)) (s t a b : jstring) :
  s = a ++ t ++ b -> made_of A s -> made_of A t.
Proof.
  intros -> H. unfold made_of in *.
  apply Forall_app in H as [_ H]. now apply Forall_app in H as [H _].
Qed.

Lemma made_of_trim (A : list (char * char)) (s : jstring) :
  made_of A s -> made_of A (trim s).
Proof.
  destruct (trim_part s) as (a & b & E). now apply (made_of_part A s (trim s) a b).
Qed.

(** The text of a group whose body repeats one character set. *)
Lemma match_group_made_of (re : RegExp) (A : list (char * char)) (n : nat)
    (s g : jstring) :
  (forall body, In body (group_bodies (S n) (pattern re)) ->
     exists min max greedy, body = Quant min max greedy (CharSet A false)) ->
  In (65, 90) A -> In (97, 122) A ->
  match_group re s (S n) = Some g -> made_of A g.
Proof.
  intros Hb Hup Hlo Hm.
  apply match_group_lang in Hm as (body & Hin & HL).
  destruct (Hb body Hin) as (min & max & greedy & ->).
  apply lang_quant_cs in HL. unfold made_of.
  eapply Forall_impl; [|exact HL].
  intros ch Hch. cbv beta in Hch.
  now rewrite (cs_mem_closed _ A ch Hup Hlo) in Hch.
Qed.

Lemma made_of_pick (reArr : list RegExp) (A : list (char * char))
    (text fb : jstring) :
  Forall (fun re =>
    forall body, In body (group_bodies 1 (pattern re)) ->
      exists min max greedy, body = Quant min max greedy (CharSet A false)) reArr ->
  In (65, 90) A -> In (97, 122) A ->
  pick reArr text 1 fb = fb \/ made_of A (pick reArr text 1 fb).
Proof.
  intros Hb Hup Hlo.
  destruct (pick_cases reArr text 1 fb) as [-> | (re & g & Hin & Hm & _ & ->)];
    [now left | right].
  apply made_of_trim. rewrite Forall_forall in Hb.
  exact (match_group_made_of re A 0 text g (Hb re Hin) Hup Hlo Hm).
Qed.

(** The sentinel, or a text over the alphabet [A]. *)
Lemma made_of_or_NA (A : list (char * char)) (v : jstring) :
  v = NA \/ made_of A v -> or_else v NA = NA \/ made_of A (or_else v NA).
Proof.
  unfold or_else. intros [-> | H]; [now left|].
  destruct (truthy v); [now right | now left].
Qed.

Lemma made_of_captured (re : RegExp) (A : list (char * char)) (block v : jstring) :
  (forall body, In body (group_bodies 1 (pattern re)) ->
     exists min max greedy, body = Quant min max greedy (CharSet A false)) ->
  In (65, 90) A -> In (97, 122) A ->
  v = NA \/ made_of A v ->
  let captured := opt_or (match_group re block 1) v in
  or_else (trim captured) NA = NA \/ made_of A (or_else (trim captured) NA).
Proof.
  intros Hb Hup Hlo Hv. cbv zeta. apply made_of_or_NA.
  unfold opt_or. destruct (match_group re block 1) as [g|] eqn:Hm.
  - unfold or_else. destruct (truthy g).
    + right. apply made_of_trim.
      exact (match_group_made_of re A 0 block g Hb Hup Hlo Hm).
    + destruct Hv as [-> | Hv]; [now left | right; now apply made_of_trim].
  - destruct Hv as [-> | Hv]; [now left | right; now apply made_of_trim].
Qed.

(** X4: a FIR number, police station, complainant, accused or
    investigating officer that is not "N/A" is made of the code units of the
    character class of its capture group only: [[A-Za-z0-9/-]] for the FIR
    number, [[A-Za-z0-9 .,&'_-]] for the police station, [[A-Za-z .'_-]] for
    the complainant, [[A-Za-z .@'_-]] for the accused and [[A-Za-z .'-]] for
    the investigating officer. *)
Theorem fields_alphabet (raw : jstring) :
  let e := entities (parseFIR raw) in
  (firNumber e = NA \/ made_of Pat.fir_chars (firNumber e)) /\
  (policeStation e = NA \/ made_of Pat.area_chars (policeStation e)) /\
  (complainant e = NA \/ made_of Pat.name_chars (complainant e)) /\
  (accused e = NA \/ made_of Pat.name_chars_at (accused e)) /\
  (investigatingOfficer e = NA \/
   made_of Pat.person_chars (investigatingOfficer e)).
Proof.
  cbv zeta. unfold parseFIR.
  destruct (negb (truthy raw) || negb (truthy (trim raw))).
  - cbn [empty entities firNumber policeStation complainant accused
         investigatingOfficer]. repeat split; now left.
  - cbv zeta.
    cbn [entities firNumber policeStation complainant accused
         investigatingOfficer].
    split; [|split; [|split; [|split]]].
    + apply made_of_or_NA. unfold Extract.firNumber.
      apply made_of_pick; [|has_letters|has_letters].
      repeat constructor; group_is_class.
    + apply made_of_or_NA. unfold Extract.policeStation.
      apply made_of_pick; [|has_letters|has_letters].
      repeat constructor; group_is_class.
    + unfold Extract.complainant, Extract.complainantCaptured.
      apply made_of_captured; [group_is_class|has_letters|has_letters|].
      apply made_of_or_NA.
      apply made_of_pick; [|has_letters|has_letters].
      repeat constructor; group_is_class.
    + unfold Extract.accused, Extract.accusedCaptured.
      apply made_of_captured; [group_is_class|has_letters|has_letters|].
      apply made_of_or_NA.
      apply made_of_pick; [|has_letters|has_letters].
      repeat constructor; group_is_class.
    + unfold Extract.investigatingOfficer, Extract.investigatingOfficerCaptured.
      apply made_of_captured; [group_is_class|has_letters|has_letters|].
      apply made_of_or_NA. right. unfold Extract.ioInline.
      destruct (made_of_pick [Pat.io1; Pat.io2; Pat.io3] Pat.person_chars
                  (Extract.flat (Extract.text raw)) []) as [-> | E].
      * repeat constructor; group_is_class.
      * has_letters.
      * has_letters.
      * constructor.
      * exact E.
Qed.

(** *** The shape of a date and of a time *)

Lemma in_range_single (c x : char) : in_range c c x = true <-> x = c.
Proof. rewrite in_range_true. lia. Qed.

(** A code unit accepted by a one-character class is that character, or,
    with the [i] flag, one whose upper or lower case is. *)
Lemma cs_mem_single (ic : bool) (c ch : char) :
  cs_mem ic [(c, c)] ch = true ->
  ch = c \/ (ic = true /\ (to_upper ch = c \/ to_lower ch = c)).
Proof.
  unfold cs_mem, in_ranges. cbn [existsb fst snd]. rewrite !orb_false_r.
  intros H. apply orb_true_iff in H as [H | H].
  - left. now apply in_range_single.
  - right. apply andb_true_iff in H as [-> H]. split; [reflexivity|].
    apply orb_true_iff in H as [H | H]; [left | right]; now apply in_range_single.
Qed.

(** A code unit accepted by a class of characters that are not letters is
    one of them. *)
Lemma cs_mem_marks (ic : bool) (A : list (char * char)) (ch : char) :
  Forall (fun p => fst p = snd p /\ (fst p < 65 \/ 122 < fst p)) A ->
  cs_mem ic A ch = true -> In ch (map fst A).
Proof.
  intros HA H. unfold cs_mem in H.
  assert (Hin : forall x, in_ranges A x = true -> In x (map fst A)).
  { intros x Hx. unfold in_ranges in Hx. apply existsb_exists in Hx as (p & Hp & Hx).
    rewrite Forall_forall in HA. destruct (HA p Hp) as [E _].
    rewrite <- E in Hx. apply in_range_single in Hx. subst x. now apply in_map. }
  apply orb_true_iff in H as [H | H]; [now apply Hin|].
  apply andb_true_iff in H as [_ H].
  assert (Hnl : forall x, In x (map fst A) -> x < 65 \/ 122 < x).
  { intros x Hx. apply in_map_iff in Hx as (p & <- & Hp).
    rewrite Forall_forall in HA. now destruct (HA p Hp). }
  apply orb_true_iff in H as [H | H]; apply Hin in H.
  - unfold to_upper in H. destruct (in_range 97 122 ch) eqn:E; [|exact H].
    apply in_range_true in E. apply Hnl in H. lia.
  - unfold to_lower in H. destruct (in_range 65 90 ch) eqn:E; [|exact H].
    apply in_range_true in E. apply Hnl in H. lia.
Qed.

(** [[0-9]{a,b}] consumes between [a] and [b] decimal digits. *)
Lemma lang_times_digit (ic : bool) (a b : nat) (u : jstring) :
  (a <= b)%nat -> lang ic (times a b digit) u ->
  digits u /\ (a <= List.length u <= b)%nat.
Proof.
  intros Hab. cbn [lang times]. intros (us & -> & Hus & Hmin & Hmax).
  specialize (Hmin Hab).
  assert (H : digits (List.concat us) /\ List.length (List.concat us) = List.length us).
  { clear Hmin Hmax. induction Hus as [|v us Hv _ [IH1 IH2]]; [split; [constructor | reflexivity]|].
    unfold digit, cls in Hv. cbn [lang] in Hv. destruct Hv as (d & -> & Hd).
    cbn [List.concat app List.length]. split; [|now rewrite IH2].
    constructor; [|exact IH1].
    apply in_range_true. apply (digit_class ic).
    now destruct (cs_mem ic [rng "0" "9"] d). }
  destruct H as [H1 H2]. split; [exact H1 | lia].
Qed.

Lemma lang_mark (ic : bool) (A : list (char * char)) (u : jstring) :
  Forall (fun p => fst p = snd p /\ (fst p < 65 \/ 122 < fst p)) A ->
  lang ic (cls A) u -> exists ch, u = [ch] /\ In ch (map fst A).
Proof.
  intros HA. unfold cls. cbn [lang]. intros (ch & -> & H).
  exists ch. split; [reflexivity|]. apply (cs_mem_marks ic A ch HA).
  now destruct (cs_mem ic A ch).
Qed.

Lemma digits_not_ws (u : jstring) (d : char) :
  digits u -> In d u -> is_ws d = false.
Proof.
  intros H Hin. unfold digits in H. rewrite Forall_forall in H.
  apply digit_not_ws. apply in_range_true. now apply H.
Qed.

Lemma trimEnd_snoc (s : jstring) (d : char) :
  is_ws d = false -> trimEnd (s ++ [d]) = s ++ [d].
Proof.
  intros H. unfold trimEnd. rewrite rev_app_distr. cbn [rev app trimStart].
  rewrite H. cbn [rev]. now rewrite rev_involutive.
Qed.

(** A text that starts and ends with code units that are not white space
    is trimmed. *)
Lemma trimmed_ends (a d : char) (s : jstring) :
  is_ws a = false -> is_ws d = false -> trimmed ((a :: s) ++ [d]).
Proof.
  intros Ha Hd. unfold trimmed, trim. cbn [app trimStart]. rewrite Ha.
  exact (trimEnd_snoc (a :: s) d Hd).
Qed.

Lemma digits_last (u : jstring) :
  digits u -> u <> [] -> exists v d, u = v ++ [d] /\ is_ws d = false.
Proof.
  intros H Hne. destruct (exists_last Hne) as (v & d & ->).
  exists v, d. split; [reflexivity|].
  apply (digits_not_ws (v ++ [d]) d H), in_elt.
Qed.

(** The date found: the fallback, or a text of the shape of the group. *)
Lemma date_found (flat : jstring) :
  let d := Extract.date flat in
  d = NA \/
  exists dd s1 mm s2 yy,
    d = dd ++ [s1] ++ mm ++ [s2] ++ yy /\
    digits dd /\ (1 <= List.length dd <= 2)%nat /\
    digits mm /\ (1 <= List.length mm <= 2)%nat /\
    digits yy /\ (2 <= List.length yy <= 4)%nat /\
    In s1 (str "/-.") /\ In s2 (str "/-.").
Proof.
  cbv zeta. unfold Extract.date.
  destruct (pick_cases [Pat.date] flat 1 NA)
    as [-> | (re & g & Hin & Hm & _ & ->)]; [now left | right].
  destruct Hin as [<- | []].
  apply match_group_lang in Hm as (body & Hb & HL).
  cbn in Hb. destruct Hb as [<- | []].
  destruct HL as (dd & r1 & -> & Hdd & s1' & r2 & -> & Hs1 & mm & r3 & -> & Hmm
                  & s2' & r4 & -> & Hs2 & yy & r5 & -> & Hyy & ->).
  apply lang_times_digit in Hdd as [Hdd Ldd]; [|lia].
  apply lang_times_digit in Hmm as [Hmm Lmm]; [|lia].
  apply lang_times_digit in Hyy as [Hyy Lyy]; [|lia].
  apply (lang_mark true) in Hs1 as (s1 & -> & Hs1);
    [|repeat constructor; cbv; auto].
  apply (lang_mark true) in Hs2 as (s2 & -> & Hs2);
    [|repeat constructor; cbv; auto].
  rewrite app_nil_r.
  assert (Ht : trimmed (dd ++ [s1] ++ mm ++ [s2] ++ yy)).
  { destruct dd as [|d0 dd]; [simpl in Ldd; lia|].
    destruct (digits_last yy Hyy) as (v & d & -> & Hd);
      [intros ->; simpl in Lyy; lia|].
    replace ((d0 :: dd) ++ [s1] ++ mm ++ [s2] ++ v ++ [d])
      with ((d0 :: dd ++ [s1] ++ mm ++ [s2] ++ v) ++ [d])
      by (repeat (cbn [app]; rewrite <- ?app_assoc); reflexivity).
    apply trimmed_ends; [|exact Hd].
    apply (digits_not_ws (d0 :: dd) d0 Hdd). now left. }
  rewrite Ht. exists dd, s1, mm, s2, yy. repeat split; try assumption; lia.
Qed.

(** X5: a date that is not "N/A" is one or two digits, a separator, one or
    two digits, a separator and two to four digits, the separators being
    "/", "-" or "."; nothing else is checked of it. *)
Theorem date_shape (raw : jstring) :
  let d := date (entities (parseFIR raw)) in
  d = NA \/
  exists dd s1 mm s2 yy,
    d = dd ++ [s1] ++ mm ++ [s2] ++ yy /\
    digits dd /\ (1 <= List.length dd <= 2)%nat /\
    digits mm /\ (1 <= List.length mm <= 2)%nat /\
    digits yy /\ (2 <= List.length yy <= 4)%nat /\
    In s1 (str "/-.") /\ In s2 (str "/-.").
Proof.
  cbv zeta. unfold parseFIR.
  destruct (negb (truthy raw) || negb (truthy (trim raw))); [now left|].
  cbv zeta. cbn [entities date].
  rewrite (or_else_nonempty _ NA (date_nonempty _)).
  apply date_found.
Qed.

(** With or without the [i] flag, a code unit accepted by a one-character
    class is that character up to case. *)
Lemma cs_mem_single_upper (ic : bool) (c ch : char) :
  cs_mem ic [(c, c)] ch = true -> to_upper ch = to_upper c.
Proof.
  intros H. apply cs_mem_single in H as [-> | (_ & [H | H])]; [reflexivity| |].
  - unfold to_upper in H. destruct (in_range 97 122 ch) eqn:E1; [|now subst c].
    rewrite <- H. unfold to_upper. rewrite E1.
    apply in_range_true in E1.
    rewrite (in_range_false 97 122 (ch - 32)) by lia. reflexivity.
  - unfold to_lower in H. destruct (in_range 65 90 ch) eqn:E1; [|now subst c].
    apply in_range_true in E1. unfold to_upper.
    rewrite (in_range_false 97 122 ch) by lia.
    subst c. rewrite (proj2 (in_range_true 97 122 (ch + 32))) by lia. lia.
Qed.

Lemma upper_letter_not_ws (c ch : char) :
  65 <= c <= 90 -> to_upper ch = c -> is_ws ch = false.
Proof.
  intros Hc H. unfold to_upper in H.
  assert (Hch : 65 <= ch <= 122).
  { destruct (in_range 97 122 ch) eqn:E; [apply in_range_true in E|]; lia. }
  unfold is_ws, in_ranges, ws_ranges. cbn [existsb fst snd].
  rewrite !in_range_false by lia. reflexivity.
Qed.

(** A two-letter word of the pattern, read with the [i] flag. *)
Lemma lang_lit2 (a b : ascii) (u : jstring) :
  lang true (lit (String a (String b EmptyString))) u ->
  map to_upper u = map to_upper [N_of_ascii a; N_of_ascii b].
Proof.
  unfold lit, seq, str. cbn [list_ascii_of_string map fold_right lang].
  intros (u1 & r1 & -> & (x & -> & Hx) & u2 & r2 & -> & (y & -> & Hy) & ->).
  cbn [app map]. f_equal; [|f_equal].
  - apply (cs_mem_single_upper true). now destruct (cs_mem true [(N_of_ascii a, N_of_ascii a)] x).
  - apply (cs_mem_single_upper true). now destruct (cs_mem true [(N_of_ascii b, N_of_ascii b)] y).
Qed.

(** [(?:AM|PM|am|pm)?] consumes nothing, or two letters that read AM or PM
    whatever their case. *)
Lemma lang_ampm (u : jstring) :
  lang true Pat.ampm u ->
  u = [] \/ map to_upper u = str "AM" \/ map to_upper u = str "PM".
Proof.
  unfold Pat.ampm, opt. cbn [lang alt]. intros (us & -> & Hus & _ & Hmax).
  destruct us as [|v [|v' us]]; [now left | | simpl in Hmax; lia].
  right. cbn [List.concat]. rewrite app_nil_r.
  inversion Hus as [|? ? Hv _]; subst.
  destruct Hv as [H | [H | [H | H]]]; apply lang_lit2 in H; rewrite H;
    [left | right | left | right]; reflexivity.
Qed.

Lemma lang_hhmm (ic : bool) (u : jstring) :
  lang ic Pat.hhmm u ->
  exists hh sep mi,
    u = hh ++ [sep] ++ mi /\ digits hh /\ (1 <= List.length hh <= 2)%nat /\
    In sep (str ":.") /\ digits mi /\ List.length mi = 2%nat.
Proof.
  intros (hh & r1 & -> & Hhh & s' & r2 & -> & Hs & mi & r3 & -> & Hmi & ->).
  apply lang_times_digit in Hhh as [Hhh Lhh]; [|lia].
  apply lang_times_digit in Hmi as [Hmi Lmi]; [|lia].
  apply (lang_mark ic) in Hs as (sep & -> & Hs); [|repeat constructor; cbv; auto].
  rewrite app_nil_r. exists hh, sep, mi. repeat split; try assumption; lia.
Qed.

Lemma lang_star_ws (w : jstring) :
  lang true (star ws) w -> Forall (fun ch => is_ws ch = true) w.
Proof.
  unfold star, ws, cls. intros H. apply lang_quant_cs in H.
  eapply Forall_impl; [|exact H]. intros ch Hch. cbv beta in Hch.
  rewrite <- accepts_ws_ic. unfold accepts. now rewrite Hch.
Qed.

Lemma trimEnd_app_ws (a w : jstring) :
  Forall (fun ch => is_ws ch = true) w -> trimEnd (a ++ w) = trimEnd a.
Proof.
  intros H. unfold trimEnd. rewrite rev_app_distr, trimStart_app.
  rewrite trimStart_all_ws; [reflexivity|].
  now apply Forall_rev.
Qed.

(** A trimmed text followed by white space trims to itself. *)
Lemma trim_app_ws (a w : jstring) :
  trimmed a -> Forall (fun ch => is_ws ch = true) w -> trim (a ++ w) = a.
Proof.
  intros Ha Hw. destruct a as [|x a].
  - cbn [app]. now apply trim_all_ws.
  - assert (Hx : is_ws x = false).
    { pose proof (trimStart_starts_clean (x :: a)) as Hc.
      unfold trimmed, trim in Ha.
      assert (Hs : starts_clean (trimEnd (trimStart (x :: a))))
        by apply starts_clean_trimEnd, trimStart_starts_clean.
      rewrite Ha in Hs. exact Hs. }
    unfold trim. cbn [app trimStart]. rewrite Hx.
    change (x :: a ++ w) with ((x :: a) ++ w). rewrite (trimEnd_app_ws _ w Hw).
    unfold trimmed, trim in Ha. cbn [trimStart] in Ha. now rewrite Hx in Ha.
Qed.

Lemma hhmm_trimmed (hh mi : jstring) (sep : char) :
  digits hh -> (1 <= List.length hh)%nat -> digits mi -> List.length mi = 2%nat ->
  trimmed (hh ++ [sep] ++ mi).
Proof.
  intros Hhh Lhh Hmi Lmi.
  destruct hh as [|d0 hh]; [simpl in Lhh; lia|].
  destruct (digits_last mi Hmi) as (v & d & -> & Hd);
    [intros ->; simpl in Lmi; lia|].
  replace ((d0 :: hh) ++ [sep] ++ v ++ [d]) with ((d0 :: hh ++ [sep] ++ v) ++ [d])
    by (repeat (cbn [app]; rewrite <- ?app_assoc); reflexivity).
  apply trimmed_ends; [|exact Hd].
  apply (digits_not_ws (d0 :: hh) d0 Hhh). now left.
Qed.

(** The trimmed text of the group [hh:mm\s*(?:AM|PM|am|pm)?]. *)
Lemma clock_shape (g : jstring) :
  lang true (seq [Pat.hhmm; star ws; Pat.ampm]) g ->
  exists hh sep mi tail,
    trim g = hh ++ [sep] ++ mi ++ tail /\
    digits hh /\ (1 <= List.length hh <= 2)%nat /\ In sep (str ":.") /\
    digits mi /\ List.length mi = 2%nat /\
    (tail = [] \/
     exists w ap, tail = w ++ ap /\ Forall (fun ch => is_ws ch = true) w /\
                  (map to_upper ap = str "AM" \/ map to_upper ap = str "PM")).
Proof.
  intros (u & r1 & -> & Hu & w & r2 & -> & Hw & ap & r3 & -> & Hap & ->).
  apply lang_hhmm in Hu as (hh & sep & mi & -> & Hhh & Lhh & Hsep & Hmi & Lmi).
  apply lang_star_ws in Hw. apply lang_ampm in Hap. rewrite app_nil_r.
  pose proof (hhmm_trimmed hh mi sep Hhh (proj1 Lhh) Hmi Lmi) as Ht.
  destruct Hap as [-> | Hap].
  - rewrite app_nil_r. rewrite (trim_app_ws _ w Ht Hw).
    exists hh, sep, mi, []. rewrite app_nil_r. repeat split; try assumption; try lia.
    now left.
  - assert (Hlast : exists a m, ap = [a; m] /\ is_ws m = false).
    { destruct ap as [|a [|m [|x ap]]]; try (destruct Hap; discriminate).
      exists a, m. split; [reflexivity|].
      apply (upper_letter_not_ws 77 m); [lia|].
      destruct Hap as [Hap | Hap]; cbn [map] in Hap; now injection Hap. }
    destruct Hlast as (a & m & -> & Hm).
    assert (Hg : trimmed ((hh ++ [sep] ++ mi) ++ w ++ [a; m])).
    { destruct hh as [|d0 hh]; [simpl in Lhh; lia|].
      replace (((d0 :: hh) ++ [sep] ++ mi) ++ w ++ [a; m])
        with ((d0 :: hh ++ [sep] ++ mi ++ w ++ [a]) ++ [m])
        by (repeat (cbn [app]; rewrite <- ?app_assoc); reflexivity).
      apply trimmed_ends; [|exact Hm].
      apply (digits_not_ws (d0 :: hh) d0 Hhh). now left. }
    rewrite Hg. exists hh, sep, mi, (w ++ [a; m]).
    split; [now rewrite <- !app_assoc|].
    repeat split; try assumption; try lia.
    right. now exists w, [a; m].
Qed.

(** X6: a time that is not "N/A" is one or two digits, ":" or ".", and two
    digits, followed by nothing or by white space (possibly none) and the
    letters AM or PM in either case. *)
Theorem time_shape (raw : jstring) :
  let t := time (entities (parseFIR raw)) in
  t = NA \/
  exists hh sep mi tail,
    t = hh ++ [sep] ++ mi ++ tail /\
    digits hh /\ (1 <= List.length hh <= 2)%nat /\ In sep (str ":.") /\
    digits mi /\ List.length mi = 2%nat /\
    (tail = [] \/
     exists w ap, tail = w ++ ap /\ Forall (fun ch => is_ws ch = true) w /\
                  (map to_upper ap = str "AM" \/ map to_upper ap = str "PM")).
Proof.
  cbv zeta. unfold parseFIR.
  destruct (negb (truthy raw) || negb (truthy (trim raw))); [now left|].
  cbv zeta. cbn [entities time].
  rewrite (or_else_nonempty _ NA (time_nonempty _)).
  unfold Extract.time.
  destruct (pick_cases [Pat.time1; Pat.time2; Pat.time3]
              (Extract.flat (Extract.text raw)) 1 NA)
    as [-> | (re & g & Hin & Hm & _ & ->)]; [now left | right].
  destruct Hin as [<- | [<- | [<- | []]]];
    apply match_group_lang in Hm as (body & Hb & HL);
    cbn in Hb; destruct Hb as [<- | []].
  - now apply clock_shape.
  - now apply clock_shape.
  - apply lang_hhmm in HL as (hh & sep & mi & -> & Hhh & Lhh & Hsep & Hmi & Lmi).
    rewrite (hhmm_trimmed hh mi sep Hhh (proj1 Lhh) Hmi Lmi).
    exists hh, sep, mi, []. rewrite app_nil_r.
    repeat split; try assumption; try lia. now left.
Qed.

End Fields.

(** ** The citations listed in [sections] *)

Section CitationShape.

Lemma position_advance (s : jstring) (y : MatchState) (ch : char) (rest' : jstring) :
  position_of s y -> rest y = ch :: rest' ->
  position_of s (mkState (Some ch) rest' (S (endIndex y)) []).
Proof.
  intros (u & Hs & Hi & _) Hr. exists (u ++ [ch]).
  cbn [rest endIndex prev]. rewrite <- app_assoc, length_app, Hi. cbn [app List.length].
  rewrite <- Hr. split; [exact Hs|]. split; [lia|].
  unfold last_read. now rewrite rev_app_distr.
Qed.

(** Every match that [matchAll] enumerates is the result of [exec] at some
    position of the text. *)
Lemma scan_matches (re : RegExp) (s : jstring) :
  forall fuel x m,
    position_of s x -> In m (scan fuel re x) ->
    exists x', position_of s x' /\ exec re x' = Some m.
Proof.
  induction fuel as [|fuel IH]; intros x m Hx Hin; cbn [scan] in Hin; [easy|].
  destruct (exec re x) as [m0|] eqn:E; [|easy].
  destruct Hin as [<- | Hin]; [now exists x|].
  destruct (exec_sound re s x m0 Hx E) as (x0 & u0 & _ & _ & _ & _ & _ & _ & _ & Hy).
  destruct (Nat.eqb (endIndex (final m0)) (index m0)).
  - unfold advance in Hin. destruct (rest (final m0)) as [|ch rest'] eqn:Er; [easy|].
    apply (IH _ m (position_advance s _ ch rest' Hy Er) Hin).
  - apply (IH (restart (final m0)) m); [|exact Hin].
    destruct Hy as (u & H1 & H2 & H3). now exists u.
Qed.

Lemma cap_get_with (n k : nat) (v : nat * nat) caps :
  cap_get n ((k, v) :: caps) = if Nat.eqb k n then Some v else cap_get n caps.
Proof. reflexivity. Qed.

(** A pattern on every path of which the group [n] lies leaves it set. *)
Lemma span_sets (ic : bool) (n : nat) (r : regex) :
  always_sets n r = true ->
  forall x y, span ic r x y -> cap_get n (captures y) <> None.
Proof.
  induction r as [|A inv|r1 IH1 r2 IH2|r1 IH1 r2 IH2|min max greedy r IH
                 |k r IH|positive r IH| | |]; intros Hs x y H;
    cbn [always_sets] in Hs; try discriminate; cbn [span] in H.
  - destruct H as (w & H1 & H2).
    apply orb_true_iff in Hs as [Hs | Hs]; [now apply (IH2 Hs w y)|].
    apply andb_true_iff in Hs as [Hs Hg].
    destruct (groups r2) eqn:Eg; [|discriminate].
    rewrite (span_no_groups ic r2 Eg w y H2). now apply (IH1 Hs x w).
  - apply andb_true_iff in Hs as [Hs1 Hs2].
    destruct H as [H | H]; [now apply (IH1 Hs1 x y) | now apply (IH2 Hs2 x y)].
  - destruct H as (w & Hw & ->). cbn [with_captures captures].
    rewrite cap_get_with. destruct (Nat.eqb k n) eqn:Ek; [discriminate|].
    cbn [orb] in Hs. now apply (IH Hs x w).
Qed.

Lemma lang_plus_digit (ic : bool) (u : jstring) :
  lang ic (plus digit) u -> digits u /\ u <> [].
Proof.
  cbn [lang plus]. intros (us & -> & Hus & Hmin & _). specialize (Hmin I).
  destruct us as [|v us]; [simpl in Hmin; lia|].
  assert (H : digits (List.concat (v :: us))).
  { clear Hmin. induction Hus as [|w ws Hw _ IH]; [constructor|].
    unfold digit, cls in Hw. cbn [lang] in Hw. destruct Hw as (d & -> & Hd).
    cbn [List.concat app]. constructor; [|exact IH].
    apply in_range_true. apply (digit_class ic).
    now destruct (cs_mem ic [rng "0" "9"] d). }
  split; [exact H|].
  inversion Hus as [|? ? Hv _]; subst.
  unfold digit, cls in Hv. cbn [lang] in Hv. destruct Hv as (d & -> & _).
  discriminate.
Qed.

(** The citation built from a match of a pattern whose group 1 is [(\d+)],
    on every path. *)
Lemma ipc_shape (re : RegExp) (text : jstring) (m : Match) :
  always_sets 1 (pattern re) = true ->
  group_bodies 1 (pattern re) = [plus digit] ->
  In m (matchAll re text) ->
  exists ds, Extract.ipc text m = str "IPC " ++ ds /\ ds <> [] /\ digits ds.
Proof.
  intros Hsets Hbody Hin. unfold matchAll in Hin.
  destruct (scan_matches re text _ _ m (position_of_state0 text) Hin)
    as (x' & Hx' & E).
  destruct (exec_sound re text x' m Hx' E)
    as (x0 & u & Hx0 & Hc0 & _ & _ & Hspan & _ & _ & _).
  pose proof (span_sets _ 1 _ Hsets _ _ Hspan) as Hset.
  pose proof (span_captures _ _ text _ _ Hx0 Hspan) as Hcap.
  unfold Extract.ipc, group_text.
  destruct (cap_get 1 (captures (final m))) as [[i j]|] eqn:Eg; [|congruence].
  destruct (Hcap 1%nat i j Eg) as [H0 | (_ & body & Hb & HL)].
  - rewrite Hc0 in H0. discriminate.
  - rewrite Hbody in Hb. destruct Hb as [<- | []].
    apply lang_plus_digit in HL as [Hd Hne].
    exists (slice i j text). now repeat split.
Qed.

Lemma sections_entries (raw x : jstring) :
  In x (sections (entities (parseFIR raw))) ->
  exists ds, x = str "IPC " ++ ds /\ ds <> [] /\ digits ds.
Proof.
  unfold parseFIR.
  destruct (negb (truthy raw) || negb (truthy (trim raw))); [easy|].
  cbv zeta. cbn [entities sections]. rewrite sections_insertions. intros Hx.
  destruct (array_from_set_first_occurrences
              (map (Extract.ipc (Extract.text raw))
                 (matchAll Pat.ipcSection (Extract.text raw))
               ++ map (Extract.ipc (Extract.text raw))
                    (matchAll Pat.sectionIpc (Extract.text raw)))) as (_ & Hin & _).
  apply Hin in Hx. apply in_app_or in Hx as [Hx | Hx];
    apply in_map_iff in Hx as (m & <- & Hm).
  - now apply (ipc_shape Pat.ipcSection).
  - now apply (ipc_shape Pat.sectionIpc).
Qed.

(** X7: every entry of [sections] is "IPC " followed by one or more decimal
    digits; the capture group always takes part in a match, so the entry is
    never "IPC undefined". *)
Theorem sections_shape (raw : jstring) :
  Forall (fun x => exists ds, x = str "IPC " ++ ds /\ ds <> [] /\ digits ds)
    (sections (entities (parseFIR raw))).
Proof. apply Forall_forall. intros x. apply sections_entries. Qed.

End CitationShape.

(** ** Blocks between numbered headings *)

Section Between.

(** A pattern that starts with two literal code units. *)
Lemma matcher_two_literals (ic : bool) (a b : char) (R : regex)
    (x : MatchState) (c : Continuation) :
  (a < 65 \/ 122 < a) -> (b < 65 \/ 122 < b) ->
  matcher ic (Seq (Seq (cls [(a, a)]) Empty) (Seq (Seq (cls [(b, b)]) Empty) R)) x c
  = match rest x with
    | c1 :: c2 :: s =>
        if char_eqb c1 a && char_eqb c2 b then
          matcher ic R (mkState (Some c2) s (S (S (endIndex x))) (captures x)) c
        else None
    | _ => None
    end.
Proof.
  intros Ha Hb. destruct x as [p s i caps]. cbn [rest endIndex captures].
  rewrite !matcher_seq. unfold cls.
  destruct s as [|c1 s]; [reflexivity|].
  rewrite matcher_charset, (accepts_single ic a c1 Ha).
  destruct (char_eqb c1 a); [|now destruct s].
  rewrite matcher_empty, matcher_seq, matcher_seq.
  destruct s as [|c2 s]; [reflexivity|].
  rewrite matcher_charset, (accepts_single ic b c2 Hb).
  destruct (char_eqb c2 b); reflexivity.
Qed.

(** A pattern of two literal code units matches wherever they stand. *)
Lemma matcher_pair (re : RegExp) (a b : char) (p : option char) (s : jstring)
    (i : nat) :
  pattern re = Seq (Seq (cls [(a, a)]) Empty) (Seq (Seq (cls [(b, b)]) Empty) Empty) ->
  (a < 65 \/ 122 < a) -> (b < 65 \/ 122 < b) ->
  matcher (ignoreCase re) (pattern re) (mkState p (a :: b :: s) i []) Some <> None.
Proof.
  intros Hpat Ha Hb. rewrite Hpat, matcher_two_literals by assumption.
  cbn [rest]. unfold char_eqb. rewrite !N.eqb_refl. cbn [andb].
  rewrite matcher_empty. discriminate.
Qed.

Lemma occurs_nil (w : jstring) : w <> [] -> ~ occurs w [].
Proof.
  intros Hw (a & b & E). symmetry in E.
  apply app_eq_nil in E as [_ E]. apply app_eq_nil in E as [E _]. contradiction.
Qed.

(** What [sliceBetween] returns holds no end marker, when the end marker is
    a pattern of two literal code units. *)
Lemma sliceBetween_stops (text : jstring) (startRe endRe : RegExp) (a b : char) :
  pattern endRe = Seq (Seq (cls [(a, a)]) Empty) (Seq (Seq (cls [(b, b)]) Empty) Empty) ->
  (a < 65 \/ 122 < a) -> (b < 65 \/ 122 < b) ->
  ~ occurs [a; b] (Extract.sliceBetween text startRe endRe).
Proof.
  intros Hpat Ha Hb. unfold Extract.sliceBetween.
  destruct (search startRe text) as [s|]; [|apply occurs_nil; discriminate].
  cbv zeta. unfold search, exec, state0. cbn [prev rest endIndex].
  destruct (exec_loop endRe None (slice_from s text) 0) as [m|] eqn:E;
    cbn [option_map].
  - apply exec_loop_some in E as (u & v & Euv & Hi & _ & Hmin).
    cbn [Nat.add] in Hi. rewrite Hi, Euv. unfold slice. cbn [skipn].
    rewrite Nat.sub_0_r, firstn_app, firstn_all, Nat.sub_diag.
    cbn [firstn]. rewrite app_nil_r.
    intros (u1 & u3 & ->).
    specialize (Hmin u1 ([a; b] ++ u3) eq_refl).
    cbn [app] in Hmin.
    apply (matcher_pair endRe a b (last_read None u1) (u3 ++ v)
             (0 + List.length u1) Hpat Ha Hb).
    apply Hmin. discriminate.
  - intros (u1 & u3 & Eo).
    pose proof (exec_loop_none endRe None _ 0 E u1 ([a; b] ++ u3) Eo) as Hn.
    cbn [app] in Hn.
    now apply (matcher_pair endRe a b (last_read None u1) u3
                 (0 + List.length u1) Hpat Ha Hb).
Qed.

(** What [sliceBetween] returns is a part of the text. *)
Lemma sliceBetween_part (text : jstring) (startRe endRe : RegExp) :
  occurs (Extract.sliceBetween text startRe endRe) text.
Proof.
  unfold Extract.sliceBetween.
  destruct (search startRe text) as [s|]; [|now exists [], text].
  cbv zeta. unfold slice_from.
  destruct (search endRe (skipn s text)) as [e|].
  - exists (firstn s text), (skipn e (skipn s text)).
    unfold slice. cbn [skipn]. rewrite Nat.sub_0_r.
    now rewrite firstn_skipn, firstn_skipn.
  - exists (firstn s text), []. now rewrite app_nil_r, firstn_skipn.
Qed.

(** X8: each of the four numbered blocks is a part of the text, and none
    runs past the next marker: the complainant block holds no "2.", the
    accused block no "3.", the witness block no "6." and the block of the
    investigating officer no "8.". *)
Theorem blocks_bounded (text : jstring) :
  (occurs (Extract.complainantBlock text) text /\
   ~ occurs (str "2.") (Extract.complainantBlock text)) /\
  (occurs (Extract.accusedBlock text) text /\
   ~ occurs (str "3.") (Extract.accusedBlock text)) /\
  (occurs (Extract.witnessesBlock text) text /\
   ~ occurs (str "6.") (Extract.witnessesBlock text)) /\
  (occurs (Extract.ioBlock text) text /\
   ~ occurs (str "8.") (Extract.ioBlock text)).
Proof.
  unfold Extract.complainantBlock, Extract.accusedBlock, Extract.witnessesBlock,
    Extract.ioBlock.
  repeat split; try apply sliceBetween_part;
    apply sliceBetween_stops; (reflexivity || (left; reflexivity)).
Qed.

(** Where a pattern of two literal code units matches, they stand. *)
Lemma matcher_pair_inv (re : RegExp) (a b : char) (p : option char) (q : jstring)
    (i : nat) (y : MatchState) :
  pattern re = Seq (Seq (cls [(a, a)]) Empty) (Seq (Seq (cls [(b, b)]) Empty) Empty) ->
  (a < 65 \/ 122 < a) -> (b < 65 \/ 122 < b) ->
  matcher (ignoreCase re) (pattern re) (mkState p q i []) Some = Some y ->
  exists q', q = a :: b :: q'.
Proof.
  intros Hpat Ha Hb. rewrite Hpat, matcher_two_literals by assumption.
  cbn [rest]. destruct q as [|c1 [|c2 q']]; try discriminate.
  destruct (char_eqb c1 a) eqn:E1; [|discriminate].
  destruct (char_eqb c2 b) eqn:E2; [|discriminate].
  apply char_eqb_eq in E1, E2. subst. intros _. now exists q'.
Qed.

(** A block opens with the heading it was cut at: what [sliceBetween]
    returns is empty, or starts with the text that the start pattern
    matched, when that pattern cannot consume the first code unit of the end
    marker. *)
Lemma sliceBetween_heading (text : jstring) (startRe endRe : RegExp) (a b : char) :
  pattern endRe = Seq (Seq (cls [(a, a)]) Empty) (Seq (Seq (cls [(b, b)]) Empty) Empty) ->
  (a < 65 \/ 122 < a) -> (b < 65 \/ 122 < b) ->
  may_contain (ignoreCase startRe) (pattern startRe) a = false ->
  Extract.sliceBetween text startRe endRe = [] \/
  exists h more,
    Extract.sliceBetween text startRe endRe = h ++ more /\
    lang (ignoreCase startRe) (pattern startRe) h.
Proof.
  intros Hpat Ha Hb Hno. unfold Extract.sliceBetween, search.
  destruct (exec startRe (state0 text)) as [m|] eqn:E; cbn [option_map]; [|now left].
  right. cbv zeta.
  destruct (exec_sound startRe text _ m (position_of_state0 text) E)
    as (x0 & u & (w & Hw & Hi & _) & _ & Hidx & _ & _ & (Hr & _) & HL & _).
  assert (Hrest : slice_from (index m) text = u ++ rest (final m)).
  { unfold slice_from. rewrite <- Hidx, Hi, Hw, skipn_app, skipn_all, Nat.sub_diag.
    exact Hr. }
  rewrite Hrest. unfold exec, state0. cbn [prev rest endIndex].
  destruct (exec_loop endRe None (u ++ rest (final m)) 0) as [m'|] eqn:E';
    cbn [option_map].
  - apply exec_loop_some in E' as (p & q & Epq & Hi' & Hm' & _).
    cbn [Nat.add] in Hi'.
    destruct (matcher_pair_inv endRe a b _ q _ _ Hpat Ha Hb Hm') as (q' & ->).
    destruct (le_lt_dec (List.length u) (List.length p)) as [Hle | Hlt].
    + exists u, (firstn (List.length p - List.length u) (rest (final m))).
      split; [|exact HL]. rewrite Hi'. unfold slice. cbn [skipn].
      rewrite Nat.sub_0_r, firstn_app. f_equal. apply firstn_all2. lia.
    + exfalso. symmetry in Epq.
      destruct (app_eq_app_longer p (a :: b :: q') u (rest (final m)) Epq Hlt)
        as (c & Hc & -> & Ec).
      destruct c as [|c0 c]; [congruence|]. cbn [app] in Ec. injection Ec as <- _.
      pose proof (lang_may_contain _ _ _ HL) as HF. rewrite Forall_forall in HF.
      specialize (HF a (in_elt a p c)). congruence.
  - exists u, (rest (final m)). split; [reflexivity | exact HL].
Qed.

(** X16: each block that is not empty opens with its own heading: it starts
    with a text that the heading pattern consumes, so the heading line is
    part of what is searched in the block. *)
Theorem blocks_open_with_heading (text : jstring) :
  (Extract.complainantBlock text = [] \/
   exists h more, Extract.complainantBlock text = h ++ more /\
                  lang true (pattern Pat.heading1) h) /\
  (Extract.accusedBlock text = [] \/
   exists h more, Extract.accusedBlock text = h ++ more /\
                  lang true (pattern Pat.heading2) h) /\
  (Extract.witnessesBlock text = [] \/
   exists h more, Extract.witnessesBlock text = h ++ more /\
                  lang true (pattern Pat.heading5) h) /\
  (Extract.ioBlock text = [] \/
   exists h more, Extract.ioBlock text = h ++ more /\
                  lang true (pattern Pat.heading7) h).
Proof.
  unfold Extract.complainantBlock, Extract.accusedBlock, Extract.witnessesBlock,
    Extract.ioBlock.
  repeat split.
  - apply (sliceBetween_heading text Pat.heading1 (Pat.numbered "2") 50 46);
      (reflexivity || (left; reflexivity)).
  - apply (sliceBetween_heading text Pat.heading2 (Pat.numbered "3") 51 46);
      (reflexivity || (left; reflexivity)).
  - apply (sliceBetween_heading text Pat.heading5 (Pat.numbered "6") 54 46);
      (reflexivity || (left; reflexivity)).
  - apply (sliceBetween_heading text Pat.heading7 (Pat.numbered "8") 56 46);
      (reflexivity || (left; reflexivity)).
Qed.

End Between.

(** ** The overview line *)

Section Overview.

Lemma solid_intro (a d : char) (m : jstring) :
  is_ws a = false -> is_ws d = false -> solid (a :: m ++ [d]).
Proof.
  intros Ha Hd. split.
  - now exists a, (m ++ [d]).
  - now exists (a :: m), d.
Qed.

Lemma solid_trimmed (s : jstring) : solid s -> trimmed s.
Proof.
  intros [(a & t & -> & Ha) (p & d & E & Hd)].
  destruct p as [|a' p]; cbn [app] in E.
  - injection E as -> ->. unfold trimmed, trim. cbn [trimStart]. rewrite Ha.
    exact (trimEnd_snoc [] d Hd).
  - injection E as <- ->. exact (trimmed_ends a d p Ha Hd).
Qed.

(** A trimmed text that is not empty starts and ends with code units that
    are not white space. *)
Lemma trimmed_solid (s : jstring) : trimmed s -> s <> [] -> solid s.
Proof.
  intros Ht Hne. unfold trimmed, trim in Ht. split.
  - assert (Hc : starts_clean (trimEnd (trimStart s)))
      by apply starts_clean_trimEnd, trimStart_starts_clean.
    rewrite Ht in Hc. destruct s as [|a t]; [congruence|]. now exists a, t.
  - unfold trimEnd in Ht.
    pose proof (trimStart_starts_clean (rev (trimStart s))) as Hc.
    assert (E : trimStart (rev (trimStart s)) = rev s)
      by (rewrite <- Ht at 2; now rewrite rev_involutive).
    rewrite E in Hc.
    destruct (rev s) as [|d q] eqn:Er.
    + apply (f_equal (@rev _)) in Er. rewrite rev_involutive in Er. now subst s.
    + exists (rev q), d. split; [|exact Hc].
      apply (f_equal (@rev _)) in Er. rewrite rev_involutive in Er. exact Er.
Qed.

Lemma solid_after (w s : jstring) (a : char) :
  is_ws a = false -> solid s -> solid ((a :: w) ++ s).
Proof.
  intros Ha [_ (p & d & -> & Hd)].
  replace ((a :: w) ++ p ++ [d]) with (a :: (w ++ p) ++ [d])
    by (cbn [app]; now rewrite <- app_assoc).
  now apply solid_intro.
Qed.

(** *** Squeezing white space *)

Lemma squeeze_from_app (f : char -> bool) (l : jstring) (p : jstring) (d : char)
    (x : jstring) :
  f d = false ->
  forall b,
    squeeze_from f l b ((p ++ [d]) ++ x)
    = squeeze_from f l b (p ++ [d]) ++ squeeze_from f l false x.
Proof.
  intros Hd. induction p as [|c p IH]; intros b; cbn [app squeeze_from].
  - now rewrite Hd.
  - destruct (f c); rewrite IH; [now rewrite app_assoc | reflexivity].
Qed.

Lemma squeeze_from_head (f : char -> bool) (l : jstring) (a : char) (t : jstring)
    (b : bool) :
  f a = false -> squeeze_from f l b (a :: t) = a :: squeeze_from f l false t.
Proof. intros Ha. cbn [squeeze_from]. now rewrite Ha. Qed.

Lemma squeeze_from_last (f : char -> bool) (l : jstring) (p : jstring) (d : char) :
  f d = false ->
  forall b, exists q, squeeze_from f l b (p ++ [d]) = q ++ [d].
Proof.
  intros Hd. induction p as [|c p IH]; intros b; cbn [app squeeze_from].
  - rewrite Hd. now exists [].
  - destruct (f c).
    + destruct (IH true) as (q & ->).
      exists ((if b then [] else l) ++ q). now rewrite app_assoc.
    + destruct (IH false) as (q & ->). now exists (c :: q).
Qed.

Lemma squeeze_solid (s : jstring) : solid s -> solid (squeeze is_ws [32] s).
Proof.
  intros [(a & t & -> & Ha) (p & d & E & Hd)]. unfold squeeze. split.
  - rewrite (squeeze_from_head is_ws [32] a t false Ha). eauto.
  - rewrite E. destruct (squeeze_from_last is_ws [32] p d Hd false) as (q & ->).
    now exists q, d.
Qed.

Lemma join_head (sep a : jstring) (l : list jstring) :
  exists x, join sep (a :: l) = a ++ x.
Proof.
  destruct l as [|b l]; cbn [join]; [exists []; now rewrite app_nil_r | eauto].
Qed.

(** Squeezing a line of solid words joined by single spaces squeezes each
    word. *)
Lemma squeeze_join (parts : list jstring) :
  Forall solid parts ->
  squeeze is_ws [32] (join (str " ") parts)
  = join (str " ") (map (squeeze is_ws [32]) parts).
Proof.
  induction 1 as [|a parts Ha Hparts IH]; [reflexivity|].
  destruct parts as [|b parts]; [reflexivity|].
  change (join (str " ") (a :: b :: parts))
    with (a ++ str " " ++ join (str " ") (b :: parts)).
  change (join (str " ") (map (squeeze is_ws [32]) (a :: b :: parts)))
    with (squeeze is_ws [32] a ++ str " "
            ++ join (str " ") (map (squeeze is_ws [32]) (b :: parts))).
  rewrite <- IH. unfold squeeze.
  destruct Ha as [_ (p & d & -> & Hd)].
  rewrite (squeeze_from_app is_ws [32] p d _ Hd false). f_equal.
  inversion Hparts as [|? ? Hb _]; subst.
  destruct Hb as [(b0 & t & -> & Hb0) _].
  destruct (join_head (str " ") (b0 :: t) parts) as (x & ->).
  cbn [str list_ascii_of_string map app squeeze_from].
  change (is_ws (N_of_ascii " ")) with true. cbn [app].
  now rewrite Hb0.
Qed.

Lemma join_solid (parts : list jstring) :
  Forall solid parts -> parts <> [] -> solid (join (str " ") parts).
Proof.
  induction 1 as [|a parts Ha Hparts IH]; [congruence|]. intros _.
  destruct parts as [|b parts]; [exact Ha|].
  change (join (str " ") (a :: b :: parts))
    with (a ++ str " " ++ join (str " ") (b :: parts)).
  destruct Ha as [(a0 & t & -> & Ha0) _].
  destruct IH as [_ (p & d & -> & Hd)]; [discriminate|].
  replace ((a0 :: t) ++ str " " ++ p ++ [d])
    with (a0 :: (t ++ str " " ++ p) ++ [d])
    by (cbn [app]; now rewrite <- !app_assoc).
  now apply solid_intro.
Qed.

Lemma in_join (sep x : jstring) (l : list jstring) :
  In x l -> occurs x (join sep l).
Proof.
  induction l as [|a l IH]; [easy|]. intros [-> | Hin].
  - destruct (join_head sep x l) as (y & ->). now exists [], y.
  - destruct l as [|b l]; [easy|].
    change (join sep (a :: b :: l)) with (a ++ sep ++ join sep (b :: l)).
    destruct (IH Hin) as (u & v & ->). exists (a ++ sep ++ u), v.
    now rewrite <- !app_assoc.
Qed.

(** A text without white space is left as it is, whatever came before. *)
Lemma squeeze_from_no_ws (s : jstring) (b : bool) :
  Forall (fun ch => is_ws ch = false) s -> squeeze_from is_ws [32] b s = s.
Proof.
  intros H. revert b. induction H as [|a s Ha _ IH]; intros b; [reflexivity|].
  rewrite (squeeze_from_head is_ws [32] a s b Ha). now rewrite IH.
Qed.

(** A text whose white space is single spaces is left as it is. *)
Lemma squeeze_from_spaced (s : jstring) :
  Forall (fun ch => is_ws ch = true -> ch = 32) s ->
  ~ occurs [32; 32] s ->
  forall b, (b = true -> starts_clean s) -> squeeze_from is_ws [32] b s = s.
Proof.
  induction 1 as [|a s Ha Hs IH]; intros Hno b Hb; [reflexivity|].
  assert (Hno' : ~ occurs [32; 32] s).
  { intros (u & v & ->). apply Hno. now exists (a :: u), v. }
  cbn [squeeze_from]. destruct (is_ws a) eqn:Ea.
  - specialize (Ha eq_refl). subst a.
    destruct b; [specialize (Hb eq_refl); unfold starts_clean in Hb; congruence|].
    cbn [app]. f_equal. apply (IH Hno'). intros _.
    destruct s as [|c s]; [exact I|]. unfold starts_clean.
    destruct (is_ws c) eqn:Ec; [|reflexivity].
    exfalso. apply Hno. exists [], s.
    inversion Hs as [|? ? Hc _]; subst. now rewrite (Hc Ec).
  - f_equal. apply (IH Hno'). discriminate.
Qed.

(** *** Values that are parts of the flattened text *)

Lemma slice_part (i j : nat) (s : jstring) : occurs (slice i j s) s.
Proof.
  unfold slice. exists (firstn i s), (skipn (j - i) (skipn i s)).
  now rewrite !firstn_skipn.
Qed.

Lemma match_group_part (re : RegExp) (s : jstring) (n : nat) (g : jstring) :
  match_group re s n = Some g -> occurs g s.
Proof.
  unfold match_group, group_text. destruct (exec re (state0 s)) as [m|]; [|easy].
  destruct n as [|n].
  - intros E. injection E as <-. apply slice_part.
  - destruct (cap_get (S n) (captures (final m))) as [[i j]|]; [|easy].
    intros E. injection E as <-. apply slice_part.
Qed.

Lemma occurs_trans (a b c : jstring) : occurs a b -> occurs b c -> occurs a c.
Proof. intros H (u & v & E). exact (occurs_part a b c u v E H). Qed.

Lemma no_double_app (a b : jstring) :
  ~ occurs [32; 32] a -> ~ occurs [32; 32] b ->
  (forall t, b <> 32 :: t) -> ~ occurs [32; 32] (a ++ b).
Proof.
  intros Ha Hb Hhd. induction a as [|c a IH]; [exact Hb|].
  cbn [app]. intros H. apply occurs_pair_cons in H as [(-> & s' & E) | H].
  - destruct a as [|c' a]; cbn [app] in E; [now apply (Hhd s')|].
    injection E as -> _. apply Ha. now exists [], a.
  - apply IH; [|exact H]. intros (u & v & ->). apply Ha. now exists (c :: u), v.
Qed.

Lemma no_ws_spaced (v : jstring) :
  Forall (fun ch => is_ws ch = false) v ->
  Forall (fun ch => is_ws ch = true -> ch = 32) v /\ ~ occurs [32; 32] v.
Proof.
  intros H. split.
  - eapply Forall_impl; [|exact H]. intros ch Hch E. cbv beta in Hch. congruence.
  - intros (u & w & ->). apply Forall_app in H as [_ H].
    inversion H as [|? ? H32 _]. discriminate H32.
Qed.

(** A labelled value is written to the overview as it is when its white
    space is single spaces. *)
Lemma label_kept (lab v : jstring) :
  Forall (fun ch => is_ws ch = true -> ch = 32) lab -> ~ occurs [32; 32] lab ->
  Forall (fun ch => is_ws ch = true -> ch = 32) v -> ~ occurs [32; 32] v ->
  solid v ->
  squeeze is_ws [32] (lab ++ v) = lab ++ v.
Proof.
  intros Hl1 Hl2 Hv1 Hv2 [(a & t & -> & Ha) _]. unfold squeeze.
  apply squeeze_from_spaced; [| |discriminate].
  - now apply Forall_app.
  - apply no_double_app; [exact Hl2 | exact Hv2|].
    intros t' E. injection E as -> _. discriminate Ha.
Qed.

Ltac concrete_spaced :=
  repeat constructor; cbv; (reflexivity || discriminate).

Ltac concrete_no_double :=
  let H := fresh "H" in
  let E := fresh "E" in
  let E' := fresh "E" in
  intros H;
  repeat (apply occurs_pair_cons in H as [(E & ? & E') | H];
          [try discriminate E; try discriminate E'|]);
  revert H; apply occurs_nil; discriminate.

Lemma area_space (ch : char) :
  in_ranges Pat.area_chars ch = true -> is_ws ch = true -> ch = 32.
Proof.
  unfold in_ranges, Pat.area_chars, rng, one. cbn [existsb fst snd].
  repeat match goal with
         | |- context [N_of_ascii ?a] =>
             let v := eval vm_compute in (N_of_ascii a) in
             change (N_of_ascii a) with v
         end.
  rewrite !orb_true_iff, !in_range_true. intros H Hws.
  destruct (N.eq_dec ch 32) as [E | E]; [exact E|]. exfalso.
  assert (Hch : 38 <= ch <= 122) by lia.
  unfold is_ws, in_ranges, ws_ranges in Hws. cbn [existsb fst snd] in Hws.
  rewrite !in_range_false in Hws by lia. discriminate.
Qed.

Lemma fir_no_ws (ch : char) :
  in_ranges Pat.fir_chars ch = true -> is_ws ch = false.
Proof.
  unfold in_ranges, Pat.fir_chars, rng, one. cbn [existsb fst snd].
  repeat match goal with
         | |- context [N_of_ascii ?a] =>
             let v := eval vm_compute in (N_of_ascii a) in
             change (N_of_ascii a) with v
         end.
  rewrite !orb_true_iff, !in_range_true. intros H.
  assert (Hch : 45 <= ch <= 122) by lia.
  unfold is_ws, in_ranges, ws_ranges. cbn [existsb fst snd].
  rewrite !in_range_false by lia. reflexivity.
Qed.

(** What [pick] returns is the fallback or a part of the text. *)
Lemma pick_part (reArr : list RegExp) (text : jstring) (n : nat) (fb : jstring) :
  pick reArr text n fb = fb \/ occurs (pick reArr text n fb) text.
Proof.
  destruct (pick_cases reArr text n fb) as [-> | (re & g & _ & Hm & _ & ->)];
    [now left | right].
  apply (occurs_trans _ g); [|now apply (match_group_part re _ n)].
  destruct (trim_part g) as (a & b & E). now exists a, b.
Qed.

Lemma policeStation_spaced (text : jstring) :
  let ps := Extract.policeStation (Extract.flat text) in
  ps = NA \/
  (Forall (fun ch => is_ws ch = true -> ch = 32) ps /\ ~ occurs [32; 32] ps).
Proof.
  cbv zeta. unfold Extract.policeStation.
  destruct (made_of_pick [Pat.policeStation] Pat.area_chars (Extract.flat text) NA)
    as [E | Hm]; [repeat constructor; group_is_class | has_letters | has_letters
                 | now left |].
  destruct (pick_part [Pat.policeStation] (Extract.flat text) 1 NA) as [E | Hp];
    [now left | right].
  split.
  - eapply Forall_impl; [|exact Hm]. intros ch Hch. now apply area_space.
  - intros H. apply (proj2 (flat_marks text)). exact (occurs_trans _ _ _ H Hp).
Qed.

Lemma firNumber_spaced (flat : jstring) :
  let fir := Extract.firNumber flat in
  fir = NA \/
  (Forall (fun ch => is_ws ch = true -> ch = 32) fir /\ ~ occurs [32; 32] fir).
Proof.
  cbv zeta. unfold Extract.firNumber.
  destruct (made_of_pick [Pat.firNumber1; Pat.firNumber2] Pat.fir_chars flat NA)
    as [E | Hm]; [repeat constructor; group_is_class | has_letters | has_letters
                 | now left | right].
  apply no_ws_spaced. eapply Forall_impl; [|exact Hm].
  intros ch Hch. now apply fir_no_ws.
Qed.

Lemma date_spaced (flat : jstring) :
  let d := Extract.date flat in
  d = NA \/
  (Forall (fun ch => is_ws ch = true -> ch = 32) d /\ ~ occurs [32; 32] d).
Proof.
  cbv zeta.
  destruct (date_found flat)
    as [E | (dd & s1 & mm & s2 & yy & -> & Hdd & _ & Hmm & _ & Hyy & _ & H1 & H2)];
    [now left | right].
  apply no_ws_spaced.
  assert (Hd : forall u, digits u -> Forall (fun ch => is_ws ch = false) u).
  { intros u Hu. apply Forall_forall. intros ch Hch.
    exact (digits_not_ws u ch Hu Hch). }
  assert (Hs : forall c, In c (str "/-.") -> is_ws c = false).
  { intros c [<- | [<- | [<- | []]]]; reflexivity. }
  repeat (apply Forall_app; split); auto; constructor; auto.
Qed.

(** *** The words of the overview *)

Lemma solid_labelled (a : char) (w v : jstring) :
  is_ws a = false -> trimmed v -> truthy v = true -> solid ((a :: w) ++ v).
Proof.
  intros Ha Hv Ht. apply solid_after; [exact Ha|].
  apply trimmed_solid; [exact Hv | now apply truthy_true].
Qed.

Lemma found_truthy (v : jstring) : Extract.found v = true -> truthy v = true.
Proof. unfold Extract.found. now intros H%andb_true_iff. Qed.

(** The overview is its parts, each with its white space squeezed, joined
    by single spaces. *)
Lemma overview_words (ps loc fir d t : jstring) :
  trimmed ps -> trimmed fir -> trimmed d -> trimmed t ->
  Extract.overview ps loc fir d t =
    join (str " ")
      (map (squeeze is_ws [32])
         ([str "FIR registered"]
            ++ push_if (Extract.found ps) (str "at " ++ ps)
            ++ push_if (Extract.found loc && negb (jstring_eqb loc ps))
                 (str "(" ++ loc ++ str ")")
            ++ push_if (Extract.found fir) (str "FIR No: " ++ fir)
            ++ push_if (Extract.found d) (str "Date: " ++ d)
            ++ push_if (Extract.found t) (str "Time: " ++ t))).
Proof.
  intros Hps Hfir Hd Ht. unfold Extract.overview. cbv zeta.
  rewrite replace_spaces.
  assert (Hparts : Forall solid
            ([str "FIR registered"]
               ++ push_if (Extract.found ps) (str "at " ++ ps)
               ++ push_if (Extract.found loc && negb (jstring_eqb loc ps))
                    (str "(" ++ loc ++ str ")")
               ++ push_if (Extract.found fir) (str "FIR No: " ++ fir)
               ++ push_if (Extract.found d) (str "Date: " ++ d)
               ++ push_if (Extract.found t) (str "Time: " ++ t))).
  { repeat (apply Forall_app; split).
    - constructor; [|constructor].
      exact (solid_intro 70 100 (str "IR registere") eq_refl eq_refl).
    - destruct (Extract.found ps) eqn:E; [|constructor]. constructor; [|constructor].
      apply solid_labelled; [reflexivity | exact Hps | now apply found_truthy].
    - destruct (Extract.found loc && negb (jstring_eqb loc ps)); [|constructor].
      constructor; [|constructor].
      exact (solid_intro 40 41 loc eq_refl eq_refl).
    - destruct (Extract.found fir) eqn:E; [|constructor]. constructor; [|constructor].
      apply solid_labelled; [reflexivity | exact Hfir | now apply found_truthy].
    - destruct (Extract.found d) eqn:E; [|constructor]. constructor; [|constructor].
      apply solid_labelled; [reflexivity | exact Hd | now apply found_truthy].
    - destruct (Extract.found t) eqn:E; [|constructor]. constructor; [|constructor].
      apply solid_labelled; [reflexivity | exact Ht | now apply found_truthy]. }
  rewrite (squeeze_join _ Hparts).
  apply solid_trimmed. apply join_solid; [|discriminate].
  apply Forall_forall. intros x Hx. apply in_map_iff in Hx as (y & <- & Hy).
  apply squeeze_solid. rewrite Forall_forall in Hparts. now apply Hparts.
Qed.

Lemma overview_of_parseFIR (raw : jstring) :
  ~ blank raw ->
  let flat := Extract.flat (Extract.text raw) in
  let ps := Extract.policeStation flat in
  overview (parseFIR raw) =
    Extract.overview ps (Extract.location flat ps) (Extract.firNumber flat)
      (Extract.date flat) (Extract.time flat) /\
  policeStation (entities (parseFIR raw)) = or_else ps NA /\
  firNumber (entities (parseFIR raw)) = or_else (Extract.firNumber flat) NA /\
  date (entities (parseFIR raw)) = or_else (Extract.date flat) NA.
Proof.
  intros H. unfold parseFIR. rewrite (guard_not_blank raw H). now repeat split.
Qed.

Lemma entities_blank (raw : jstring) :
  blank raw ->
  policeStation (entities (parseFIR raw)) = NA /\
  firNumber (entities (parseFIR raw)) = NA /\
  date (entities (parseFIR raw)) = NA.
Proof. intros H. rewrite (blank_gives_empty raw H). now repeat split. Qed.

Lemma blank_dec (raw : jstring) : blank raw \/ ~ blank raw.
Proof.
  unfold blank. destruct (Forall_dec (fun ch => is_ws ch = true)
                            (fun ch => bool_dec (is_ws ch) true) raw); auto.
Qed.

(** A value that is not the sentinel once [|| "N/A"] is applied was found. *)
Lemma or_else_found (v : jstring) : or_else v NA <> NA -> Extract.found v = true /\ or_else v NA = v.
Proof.
  intros H. destruct (or_else_NA_cases v) as [[_ E] | [Hv E]]; [congruence|].
  split; [|exact E]. rewrite E in H. unfold Extract.found.
  apply andb_true_iff. split; [now apply truthy_true|].
  destruct (jstring_eqb v NA) eqn:Eq; [|reflexivity].
  now apply jstring_eqb_eq in Eq.
Qed.

Lemma overview_starts (raw : jstring) :
  overview (parseFIR raw) = str "FIR summary not available." \/
  exists more, overview (parseFIR raw) = str "FIR registered" ++ more.
Proof.
  destruct (blank_dec raw) as [Hb | Hb].
  - rewrite (blank_gives_empty raw Hb). now left.
  - destruct (overview_of_parseFIR raw Hb) as (-> & _).
    right. rewrite overview_words; try (apply trimmed_pick, trimmed_NA).
    cbn [app map].
    match goal with
    | |- exists more, join ?sep (?a :: ?l) = _ =>
        destruct (join_head sep a l) as (more & E)
    end.
    exists more. exact E.
Qed.

(** X9: the overview is one tidy line: its white space is single spaces
    between words, with none at either end; and it is the sentence for an
    empty input or starts with "FIR registered". *)
Theorem overview_line (raw : jstring) :
  tidy (overview (parseFIR raw)) /\
  (overview (parseFIR raw) = str "FIR summary not available." \/
   exists more, overview (parseFIR raw) = str "FIR registered" ++ more).
Proof.
  split; [|apply overview_starts].
  destruct (blank_dec raw) as [Hb | Hb].
  - rewrite (blank_gives_empty raw Hb). cbn [empty overview].
    replace (str "FIR summary not available.")
      with (trim (squeeze_from is_ws [32] false (str "FIR summary not available.")))
      by (vm_compute; reflexivity).
    apply tidy_trim. apply (loosely_spaced_squeeze _ false).
  - destruct (overview_of_parseFIR raw Hb) as (-> & _).
    unfold Extract.overview. cbv zeta. rewrite replace_spaces.
    apply tidy_trim. apply (loosely_spaced_squeeze _ false).
Qed.

(** A part that is pushed and that squeezing leaves alone stands in the
    overview as it is. *)
Lemma overview_has (ps loc fir d t x : jstring) :
  trimmed ps -> trimmed fir -> trimmed d -> trimmed t ->
  In x ([str "FIR registered"]
          ++ push_if (Extract.found ps) (str "at " ++ ps)
          ++ push_if (Extract.found loc && negb (jstring_eqb loc ps))
               (str "(" ++ loc ++ str ")")
          ++ push_if (Extract.found fir) (str "FIR No: " ++ fir)
          ++ push_if (Extract.found d) (str "Date: " ++ d)
          ++ push_if (Extract.found t) (str "Time: " ++ t)) ->
  squeeze is_ws [32] x = x ->
  occurs x (Extract.overview ps loc fir d t).
Proof.
  intros Hps Hfir Hd Ht Hin Hx. rewrite overview_words by assumption.
  apply in_join. rewrite <- Hx. now apply in_map.
Qed.

(** X10: the overview repeats the police station, the FIR number and the
    date of the entities as they are: when one of them is not "N/A", the
    overview holds "at ", "FIR No: " or "Date: " followed by it. *)
Theorem overview_mentions (raw : jstring) :
  let s := parseFIR raw in
  let e := entities s in
  (policeStation e <> NA -> occurs (str "at " ++ policeStation e) (overview s)) /\
  (firNumber e <> NA -> occurs (str "FIR No: " ++ firNumber e) (overview s)) /\
  (date e <> NA -> occurs (str "Date: " ++ date e) (overview s)).
Proof.
  cbv zeta. destruct (blank_dec raw) as [Hb | Hb].
  - destruct (entities_blank raw Hb) as (-> & -> & ->). repeat split; congruence.
  - destruct (overview_of_parseFIR raw Hb) as (-> & -> & -> & ->).
    set (flat := Extract.flat (Extract.text raw)).
    pose proof (trimmed_pick [Pat.policeStation] flat 1 NA trimmed_NA) as Tps.
    pose proof (trimmed_pick [Pat.firNumber1; Pat.firNumber2] flat 1 NA trimmed_NA)
      as Tfir.
    pose proof (trimmed_pick [Pat.date] flat 1 NA trimmed_NA) as Td.
    pose proof (trimmed_pick [Pat.time1; Pat.time2; Pat.time3] flat 1 NA trimmed_NA)
      as Tt.
    fold (Extract.policeStation flat) in Tps. fold (Extract.firNumber flat) in Tfir.
    fold (Extract.date flat) in Td. fold (Extract.time flat) in Tt.
    split; [|split]; intros H; apply or_else_found in H as [Hf ->].
    + apply overview_has; try assumption.
      * rewrite Hf. cbn [push_if]. apply in_or_app. right. now left.
      * destruct (policeStation_spaced (Extract.text raw)) as [E | [H1 H2]].
        -- fold flat in E. rewrite E in Hf. discriminate Hf.
        -- fold flat in H1, H2. apply label_kept; try assumption.
           ++ concrete_spaced.
           ++ concrete_no_double.
           ++ apply trimmed_solid; [exact Tps|].
              now apply truthy_true, found_truthy.
    + apply overview_has; try assumption.
      * rewrite Hf. cbn [push_if]. apply in_or_app. right.
        apply in_or_app. right. apply in_or_app. right. now left.
      * destruct (firNumber_spaced flat) as [E | [H1 H2]].
        -- rewrite E in Hf. discriminate Hf.
        -- apply label_kept; try assumption.
           ++ concrete_spaced.
           ++ concrete_no_double.
           ++ apply trimmed_solid; [exact Tfir|].
              now apply truthy_true, found_truthy.
    + apply overview_has; try assumption.
      * rewrite Hf. cbn [push_if]. apply in_or_app. right.
        apply in_or_app. right. apply in_or_app. right.
        apply in_or_app. right. now left.
      * destruct (date_spaced flat) as [E | [H1 H2]].
        -- rewrite E in Hf. discriminate Hf.
        -- apply label_kept; try assumption.
           ++ concrete_spaced.
           ++ concrete_no_double.
           ++ apply trimmed_solid; [exact Td|].
              now apply truthy_true, found_truthy.
Qed.

Lemma overview_mentions_witness :
  let s := parseFIR (str "Police Station: City Police Station, Date: 15/09/2024") in
  occurs (str "at " ++ str "City Police Station") (overview s) /\
  occurs (str "Date: " ++ str "15/09/2024") (overview s).
Proof.
  pose proof (overview_mentions
                (str "Police Station: City Police Station, Date: 15/09/2024")) as H.
  cbv zeta in H. destruct H as (H1 & _ & H3). split.
  - apply H1. vm_compute. discriminate.
  - apply H3. vm_compute. discriminate.
Defined.

End Overview.

(** ** Shortened values and the summary card *)

Section Card.

Lemma or_else_NA_nonempty (v : jstring) : or_else v NA <> [].
Proof. destruct (or_else_NA_cases v) as [[_ ->] | [H ->]]; [discriminate | exact H]. Qed.

Lemma short_cases (v : jstring) (n : nat) :
  ((n < List.length v)%nat /\ short v n = firstn n v ++ ellipsis) \/
  ((List.length v <= n)%nat /\ short v n = or_else v NA).
Proof.
  unfold short, slice. cbn [skipn]. rewrite Nat.sub_0_r.
  destruct (Nat.ltb n (List.length v)) eqn:E.
  - apply Nat.ltb_lt in E. left. split; [exact E|].
    destruct v as [|a v]; [simpl in E; lia | reflexivity].
  - apply Nat.ltb_ge in E. right. split; [exact E|]. now rewrite andb_false_r.
Qed.

Lemma short_nonempty (v : jstring) (n : nat) : short v n <> [].
Proof.
  destruct (short_cases v n) as [[_ ->] | [_ ->]].
  - intros E. apply app_eq_nil in E as [_ E]. discriminate.
  - apply or_else_NA_nonempty.
Qed.

Lemma short_length (v : jstring) (n : nat) :
  (List.length (short v n) <= Nat.max (n + 1) 3)%nat.
Proof.
  destruct (short_cases v n) as [[H ->] | [H ->]].
  - rewrite length_app, length_firstn. cbn [ellipsis List.length]. lia.
  - destruct (or_else_NA_cases v) as [[_ ->] | [_ ->]]; [cbn; lia | lia].
Qed.

(** X11: [short(v, n)] is never empty and never longer than [n + 1] code
    units (or the three of "N/A"), and its first [n] code units are those
    of [v], or of "N/A" when [v] is empty. *)
Theorem short_bounds (v : jstring) (n : nat) :
  short v n <> [] /\
  (List.length (short v n) <= Nat.max (n + 1) 3)%nat /\
  firstn n (short v n) = firstn n (or_else v NA).
Proof.
  split; [apply short_nonempty|]. split; [apply short_length|].
  destruct (short_cases v n) as [[H ->] | [H ->]]; [|reflexivity].
  rewrite firstn_app, length_firstn.
  replace (n - Nat.min n (List.length v))%nat with 0%nat by lia.
  cbn [firstn]. rewrite app_nil_r, firstn_firstn, Nat.min_id.
  destruct v as [|a v]; [simpl in H; lia | reflexivity].
Qed.

(** X12: shortening twice to the same length of at least 3 is shortening
    once. *)
Theorem short_idempotent (v : jstring) (n : nat) :
  (3 <= n)%nat -> short (short v n) n = short v n.
Proof.
  intros Hn. destruct (short_cases v n) as [[H E] | [H E]].
  - destruct (short_cases (short v n) n) as [[H' E'] | [H' E']].
    + rewrite E'. rewrite E at 1.
      rewrite firstn_app, length_firstn.
      replace (n - Nat.min n (List.length v))%nat with 0%nat by lia.
      cbn [firstn]. now rewrite app_nil_r, firstn_firstn, Nat.min_id.
    + rewrite E, length_app, length_firstn in H'. cbn [ellipsis List.length] in H'. lia.
  - destruct (short_cases (short v n) n) as [[H' E'] | [H' E']].
    + exfalso. rewrite E in H'.
      destruct (or_else_NA_cases v) as [[_ E1] | [_ E1]]; rewrite E1 in H';
        [cbn in H'; lia | lia].
    + rewrite E'. apply or_else_nonempty. apply short_nonempty.
Qed.

Lemma short_idempotent_witness :
  short (short (str "Rajesh Kumar") 6) 6 = short (str "Rajesh Kumar") 6.
Proof. apply short_idempotent. lia. Defined.

(** *** What the card shows *)

Lemma texts_items (l : list jstring) (i : nat) :
  flat_map texts (mapi_from (fun b i => Elem "li" None (Some i) [Text b]) i l) = l.
Proof.
  revert i. induction l as [|b l IH]; intros i; [reflexivity|].
  cbn [mapi_from flat_map texts app]. now rewrite IH.
Qed.

Lemma overview_nonempty (raw : jstring) : overview (parseFIR raw) <> [].
Proof.
  destruct (overview_starts raw) as [-> | (more & ->)]; discriminate.
Qed.

Lemma keyPoints_nonempty (raw : jstring) :
  Forall (fun t => t <> []) (keyPoints (parseFIR raw)).
Proof.
  unfold parseFIR.
  destruct (negb (truthy raw) || negb (truthy (trim raw))); [constructor|].
  cbv zeta. cbn [keyPoints]. unfold Extract.keyPoints.
  repeat constructor; discriminate.
Qed.

Lemma join_nonempty (sep a : jstring) (l : list jstring) :
  a <> [] -> join sep (a :: l) <> [].
Proof.
  intros Ha. destruct (join_head sep a l) as (x & ->).
  intros E. now apply app_eq_nil in E as [E _].
Qed.

Lemma sections_tile_nonempty (raw : jstring) :
  match sections (entities (parseFIR raw)) with
  | [] => str "N/A"
  | _ :: _ => join (str ", ") (sections (entities (parseFIR raw)))
  end <> [].
Proof.
  destruct (sections (entities (parseFIR raw))) as [|a l] eqn:E; [discriminate|].
  apply join_nonempty.
  destruct (sections_entries raw a) as (ds & -> & _); [rewrite E; now left|].
  discriminate.
Qed.

Lemma witnesses_entries (raw w : jstring) :
  In w (witnesses (entities (parseFIR raw))) -> w <> [].
Proof.
  unfold parseFIR.
  destruct (negb (truthy raw) || negb (truthy (trim raw))); [easy|].
  cbv zeta. cbn [entities witnesses]. unfold Extract.witnesses. intros Hw.
  destruct (array_from_set_first_occurrences
              (Extract.witnessesPushed (Extract.text raw)
                 (Extract.flat (Extract.text raw)))) as (_ & Hin & _).
  apply Hin in Hw. now apply witnessesPushed_cleaned in Hw.
Qed.

(** The timeline is empty exactly when neither a date nor a time was found;
    it has one entry otherwise, whose event is "FIR registered". *)
Lemma timeline_shown (raw : jstring) :
  let s := parseFIR raw in
  (jstring_eqb (date (entities s)) NA && jstring_eqb (time (entities s)) NA = true /\
   timeline s = []) \/
  (jstring_eqb (date (entities s)) NA && jstring_eqb (time (entities s)) NA = false /\
   exists t, timeline s = [Timeline.mk t (str "FIR registered")]).
Proof.
  cbv zeta. unfold parseFIR.
  destruct (negb (truthy raw) || negb (truthy (trim raw))); [now left|].
  cbv zeta. cbn [entities timeline date time].
  rewrite (or_else_nonempty _ NA (date_nonempty _)),
    (or_else_nonempty _ NA (time_nonempty _)).
  unfold Extract.timeline.
  destruct (jstring_eqb (Extract.date _) NA), (jstring_eqb (Extract.time _) NA);
    cbn [negb orb andb]; [now left | right | right | right];
    (split; [reflexivity | eexists; reflexivity]).
Qed.

(** X13: the card never shows an empty text: every heading, label, value,
    key point and timeline cell it renders holds at least one code unit. *)
Theorem card_texts_nonempty (summaryText : jstring) :
  Forall (fun t => t <> []) (texts (SummaryCard summaryText)).
Proof.
  unfold SummaryCard. cbv zeta. cbn [texts flat_map app tile].
  unfold mapi. rewrite texts_items.
  repeat first [ apply Forall_nil
               | apply Forall_cons
               | apply Forall_app; split ];
    try discriminate; try apply short_nonempty.
  - apply overview_nonempty.
  - apply keyPoints_nonempty.
  - apply sections_tile_nonempty.
  - destruct (witnesses (entities (parseFIR summaryText))) as [|w ws] eqn:E;
      [constructor|].
    cbn [flat_map texts tile app]. repeat constructor; try discriminate.
    apply join_nonempty. apply (witnesses_entries summaryText). rewrite E. now left.
  - destruct (timeline_shown summaryText) as [[_ ->] | [_ (t & ->)]];
      [constructor|].
    cbn [flat_map texts mapi_from app Timeline.time Timeline.event].
    repeat constructor; try discriminate. apply short_nonempty.
Qed.

(** X14: the card always has the sections Overview, Key Points and
    Extracted Entities, in this order, and after them the section Timeline
    exactly when the date or the time of the entities is not "N/A". *)
Theorem card_sections (summaryText : jstring) :
  let e := entities (parseFIR summaryText) in
  titles (SummaryCard summaryText) =
    [str "Overview"; str "Key Points"; str "Extracted Entities"]
      ++ (if jstring_eqb (date e) NA && jstring_eqb (time e) NA then []
          else [str "Timeline"]).
Proof.
  cbv zeta. unfold SummaryCard, titles. cbv zeta.
  rewrite flat_map_app. cbn [flat_map app String.eqb Ascii.eqb Bool.eqb andb].
  do 3 f_equal.
  destruct (timeline_shown summaryText) as [[-> ->] | [-> (t & ->)]]; reflexivity.
Qed.

Lemma short_120 (v : jstring) : (List.length (short v 120) <= 121)%nat.
Proof. pose proof (short_length v 120). lia. Qed.

Lemma short_40 (v : jstring) : (List.length (short v 40) <= 121)%nat.
Proof. pose proof (short_length v 40). lia. Qed.

(** X15: the grid of the card holds the nine tiles of the entities in a
    fixed order, and a tenth, Witnesses, exactly when a witness was found;
    no tile shows an empty value, and apart from the lists of sections and
    of witnesses no tile shows more than 121 code units. *)
Theorem card_tiles (summaryText : jstring) :
  let e := entities (parseFIR summaryText) in
  let ts := tiles (SummaryCard summaryText) in
  map fst ts =
    [str "Complainant:"; str "Accused:"; str "Sections:"; str "Location:";
     str "Police Station:"; str "FIR No:"; str "Date:"; str "Time:";
     str "Investigating Officer:"]
      ++ match witnesses e with [] => [] | _ :: _ => [str "Witnesses:"] end /\
  Forall (fun lv =>
            snd lv <> [] /\
            (fst lv = str "Sections:" \/ fst lv = str "Witnesses:" \/
             (List.length (snd lv) <= 121)%nat)) ts.
Proof.
  cbv zeta. unfold SummaryCard, tiles. cbv zeta. cbn [app].
  cbn [flat_map tile_of tile app map fst].
  split.
  - do 9 f_equal.
    destruct (witnesses (entities (parseFIR summaryText))); reflexivity.
  - repeat (apply Forall_cons; cbn [fst snd]).
    + split; [apply short_nonempty | right; right; apply short_120].
    + split; [apply short_nonempty | right; right; apply short_120].
    + split; [apply sections_tile_nonempty | now left].
    + split; [apply short_nonempty | right; right; apply short_120].
    + split; [apply short_nonempty | right; right; apply short_120].
    + split; [apply short_nonempty | right; right; apply short_40].
    + split; [apply short_nonempty | right; right; apply short_40].
    + split; [apply short_nonempty | right; right; apply short_40].
    + split; [apply short_nonempty | right; right; apply short_120].
    + destruct (witnesses (entities (parseFIR summaryText))) as [|w ws] eqn:E;
        [constructor|].
      cbn [flat_map tile_of tile app]. constructor; [|constructor].
      cbn [fst snd]. split; [|right; now left].
      apply join_nonempty. apply (witnesses_entries summaryText). rewrite E. now left.
Qed.

End Card.

(** ** The location follows the police station *)

Section Location.

Lemma in_occurs (ch : char) (w s : jstring) : occurs w s -> In ch w -> In ch s.
Proof. intros (a & b & ->) H. apply in_or_app. right. apply in_or_app. now left. Qed.

Lemma in_trim (ch : char) (s : jstring) : In ch (trim s) -> In ch s.
Proof.
  destruct (trim_part s) as (a & b & E). intros H.
  apply (in_occurs ch (trim s) s); [now exists a, b | exact H].
Qed.

Lemma in_slice (ch : char) (i j : nat) (s : jstring) : In ch (slice i j s) -> In ch s.
Proof. apply in_occurs, slice_part. Qed.

Lemma in_slice_from (ch : char) (i : nat) (s : jstring) :
  In ch (slice_from i s) -> In ch s.
Proof.
  unfold slice_from. intros H. rewrite <- (firstn_skipn i s).
  apply in_or_app. now right.
Qed.

(** [replace] invents no code unit: what it returns is made of code units of
    the subject and of the literal parts of the replacement. *)
Lemma substitution_chars (ch : char) (s : jstring) (m : Match) (t : list repl_item) :
  In ch (substitution s m t) ->
  In ch s \/ exists l, In (RLit l) t /\ In ch l.
Proof.
  unfold substitution. rewrite in_flat_map. intros ([l | n] & Hit & Hch).
  - right. now exists l.
  - left. destruct (group_text s m n) as [g|] eqn:E; [|contradiction].
    apply (in_occurs ch g s); [|exact Hch].
    destruct n; cbn [group_text] in E.
    + injection E as <-. apply slice_part.
    + destruct (cap_get (S n) (captures (final m))) as [[i j]|]; [|discriminate].
      injection E as <-. apply slice_part.
Qed.

Lemma replace_matches_chars (ch : char) (s : jstring) (t : list repl_item)
    (ms : list Match) :
  forall next,
    In ch (replace_matches s t next ms) ->
    In ch s \/ exists l, In (RLit l) t /\ In ch l.
Proof.
  induction ms as [|m ms IH]; intros next; cbn [replace_matches].
  - intros H. left. now apply in_slice_from in H.
  - intros H. apply in_app_or in H as [H | H].
    + left. now apply in_slice in H.
    + apply in_app_or in H as [H | H].
      * now apply substitution_chars in H.
      * now apply IH in H.
Qed.

Lemma replace_chars (ch : char) (re : RegExp) (t : list repl_item) (s : jstring) :
  In ch (replace re t s) ->
  In ch s \/ exists l, In (RLit l) t /\ In ch l.
Proof.
  unfold replace. destruct (global re).
  - apply replace_matches_chars.
  - destruct (exec re (state0 s)); [apply replace_matches_chars | now left].
Qed.

(** A group whose pattern cannot consume a code unit does not hold it. *)
Lemma match_group_avoids (ch : char) (re : RegExp) (s : jstring) (n : nat)
    (g : jstring) :
  forallb (fun body => negb (may_contain (ignoreCase re) body ch))
    (group_bodies (S n) (pattern re)) = true ->
  match_group re s (S n) = Some g -> ~ In ch g.
Proof.
  intros Hall Hg Hin.
  destruct (match_group_lang re s n g Hg) as (body & Hb & HL).
  rewrite forallb_forall in Hall. specialize (Hall body Hb).
  apply lang_may_contain in HL. rewrite Forall_forall in HL.
  rewrite (HL ch Hin) in Hall. discriminate.
Qed.

Lemma pick_avoids (ch : char) (reArr : list RegExp) (text fb : jstring) (n : nat) :
  forallb (fun re =>
    forallb (fun body => negb (may_contain (ignoreCase re) body ch))
      (group_bodies (S n) (pattern re))) reArr = true ->
  ~ In ch fb -> ~ In ch (pick reArr text (S n) fb).
Proof.
  intros Hall Hfb. induction reArr as [|re reArr IH]; cbn [pick]; [exact Hfb|].
  cbn [forallb] in Hall. apply andb_true_iff in Hall as [Hre Hall].
  destruct (match_group re text (S n)) as [g|] eqn:E; [|now apply IH].
  destruct (truthy g); [|now apply IH].
  intros H. apply in_trim in H. now apply (match_group_avoids ch re text n g).
Qed.

(** The whole match is a text of the pattern. *)
Lemma match_whole_lang (re : RegExp) (s g : jstring) :
  match_group re s 0 = Some g -> lang (ignoreCase re) (pattern re) g.
Proof.
  unfold match_group. destruct (exec re (state0 s)) as [m|] eqn:E; [|discriminate].
  cbn [group_text]. intros [= <-].
  destruct (exec_sound re s _ m (position_of_state0 s) E)
    as (x0 & u & Hp & _ & Hidx & _ & _ & Hr & HL & _).
  destruct (reads_slice s u x0 (final m) Hp Hr) as [Hs _].
  rewrite <- Hidx, Hs. exact HL.
Qed.

Lemma trimStart_keeps (c : char) (s : jstring) :
  In c s -> is_ws c = false -> In c (trimStart s).
Proof.
  intros Hin Hc. induction s as [|a s IH]; [contradiction|].
  cbn [trimStart]. destruct (is_ws a) eqn:Ea; [|exact Hin].
  destruct Hin as [-> | Hin]; [congruence | now apply IH].
Qed.

Lemma trim_keeps (c : char) (s : jstring) :
  In c s -> is_ws c = false -> In c (trim s).
Proof.
  intros Hin Hc. unfold trim, trimEnd. rewrite <- in_rev.
  apply trimStart_keeps; [|exact Hc]. rewrite <- in_rev.
  now apply trimStart_keeps.
Qed.

(** A text of a pattern that opens, after a word boundary, with a capital
    letter [c] of either case. *)
Lemma lang_opens (c : char) (r1 r : regex) (g : jstring) :
  in_range 65 90 c = true ->
  lang true (Seq WordB (Seq (Seq (CharSet [(c, c)] false) r1) r)) g ->
  exists a, In a g /\ is_ws a = false.
Proof.
  intros Hc. unfold in_range in Hc. apply andb_true_iff in Hc as [Hlo Hhi].
  apply N.leb_le in Hlo, Hhi. assert (Hc : 65 <= c <= 90) by lia. cbn [lang].
  intros (u1 & v1 & -> & -> & u2 & v2 & -> & (u3 & v3 & -> & (x & -> & Hx) & _) & _).
  exists x. split; [now left|].
  apply (upper_letter_not_ws (to_upper c) x).
  - unfold to_upper.
    destruct (in_range 97 122 c) eqn:E; [|exact Hc].
    unfold in_range in E. apply andb_true_iff in E as [E _].
    apply N.leb_le in E. lia.
  - apply (cs_mem_single_upper true).
    now destruct (cs_mem true [(c, c)] x).
Qed.

(** The whole match of a local name, trimmed: not empty, and without [/]. *)
Lemma local_name (re : RegExp) (c : char) (r1 r : regex) (flat g : jstring) :
  ignoreCase re = true ->
  pattern re = Seq WordB (Seq (Seq (CharSet [(c, c)] false) r1) r) ->
  in_range 65 90 c = true ->
  may_contain true (pattern re) 47 = false ->
  match_group re flat 0 = Some g ->
  truthy g = true /\ trim g <> [] /\ trim g <> NA.
Proof.
  intros Hic Hpat Hc Hno Hg. apply match_whole_lang in Hg. rewrite Hic in Hg.
  assert (Hs : ~ In 47 g).
  { intros H. apply lang_may_contain in Hg. rewrite Forall_forall in Hg.
    rewrite (Hg 47 H) in Hno. discriminate. }
  rewrite Hpat in Hg. destruct (lang_opens c r1 r g Hc Hg) as (a & Ha & Hws).
  pose proof (trim_keeps a g Ha Hws) as Ht.
  repeat split.
  - destruct g; [contradiction | reflexivity].
  - intros E. rewrite E in Ht. contradiction.
  - intros E. apply Hs, in_trim. rewrite E. right. now left.
Qed.

Lemma or_else_left (a b : jstring) : truthy a = true -> or_else a b = a.
Proof. unfold or_else. now intros ->. Qed.

(** With a police station at hand, a location is always reported. *)
Lemma location_found (flat ps : jstring) :
  truthy ps = true -> ps <> NA -> trimmed ps ->
  Extract.location flat ps <> [] /\ Extract.location flat ps <> NA.
Proof.
  intros Hps Hna Htr. unfold Extract.location. cbv zeta.
  set (first :=
    or_else (pick [Pat.location1; Pat.location2; Pat.policeStation; Pat.location4]
               flat 1 []) []).
  set (second :=
    if negb (truthy first) || test Pat.reportWord first
    then trim (opt_or (match_group Pat.locality flat 1) []) else first).
  set (cleaned := trim _).
  assert (H1 : ~ In 47 first).
  { unfold first, or_else.
    destruct (truthy (pick _ flat 1 [])); [|now intros []].
    apply pick_avoids; [reflexivity | now intros []]. }
  assert (H2 : ~ In 47 second).
  { unfold second. destruct (negb (truthy first) || test Pat.reportWord first);
      [|exact H1].
    intros H. apply in_trim in H. unfold opt_or in H.
    destruct (match_group Pat.locality flat 1) as [g|] eqn:E; [|contradiction].
    unfold or_else in H. destruct (truthy g); [|contradiction].
    now apply (match_group_avoids 47 Pat.locality flat 0 g). }
  assert (H3 : ~ In 47 cleaned).
  { unfold cleaned. intros H. apply in_trim in H.
    apply replace_chars in H as [H | (l & [Hl | [Hl | [Hl | [Hl | []]]]] & Hin)];
      try discriminate.
    - apply replace_chars in H as [H | (l & [Hl | []] & Hin)].
      + apply replace_chars in H as [H | (l & [] & _)].
        apply H2. unfold or_else in H. now destruct (truthy second).
      + injection Hl as <-. vm_compute in Hin. intuition discriminate.
    - injection Hl as <-. vm_compute in Hin. intuition discriminate.
    - injection Hl as <-. vm_compute in Hin. intuition discriminate. }
  destruct (truthy cleaned) eqn:Ec; cbn [negb].
  - split.
    + intros E. rewrite E in Ec. discriminate.
    + intros E. apply H3. rewrite E. right. now left.
  - destruct (match_group Pat.bharathiNagar flat 0) as [bn|] eqn:Eb; cbn [opt_or].
    + destruct (local_name Pat.bharathiNagar 66 _ _ flat bn eq_refl eq_refl
                  eq_refl eq_refl Eb) as (Ht & Hn & Hs).
      rewrite (or_else_left _ _ Ht). now split.
    + destruct (match_group Pat.rsPuram flat 0) as [rs|] eqn:Er; cbn [opt_or].
      * destruct (local_name Pat.rsPuram 82 _ _ flat rs eq_refl eq_refl
                    eq_refl eq_refl Er) as (Ht & Hn & Hs).
        rewrite (or_else_left _ _ Ht). now split.
      * rewrite (or_else_left _ _ Hps), Htr. split; [|exact Hna].
        intros E. rewrite E in Hps. discriminate.
Qed.

(** X17: a summary that names a police station names a location too: the
    location is "N/A" only when the police station is. *)
Theorem location_with_station (raw : jstring) :
  let e := entities (parseFIR raw) in
  policeStation e <> NA -> location e <> NA.
Proof.
  cbv zeta. unfold parseFIR.
  destruct (negb (truthy raw) || negb (truthy (trim raw))).
  - cbn [empty entities policeStation location]. congruence.
  - cbv zeta. cbn [entities policeStation location]. intros H.
    apply or_else_found in H as [Hf E].
    set (flat := Extract.flat (Extract.text raw)) in *.
    set (ps := Extract.policeStation flat) in *.
    destruct (location_found flat ps) as [Hl Hn].
    + now apply found_truthy.
    + unfold Extract.found in Hf. apply andb_true_iff in Hf as [_ Hf].
      intros Eq. rewrite Eq in Hf. discriminate.
    + apply trimmed_pick, trimmed_NA.
    + unfold or_else. destruct (Extract.location flat ps); [congruence | exact Hn].
Qed.

Lemma location_with_station_witness :
  let e := entities (parseFIR (str "Police Station: Gandhipuram")) in
  policeStation e <> NA /\ location e <> NA.
Proof.
  cbv zeta. split.
  - vm_compute. discriminate.
  - apply (location_with_station (str "Police Station: Gandhipuram")).
    vm_compute. discriminate.
Defined.

End Location.

(** ** The cleanup of names, against its description *)

Section Cleanup.




























End Cleanup.

(** ** Where the names of the witnesses stand *)

Section Places.











Lemma position_bound (s : jstring) (x : MatchState) :
  position_of s x -> (endIndex x <= List.length s)%nat.
Proof. intros (u & -> & -> & _). rewrite length_app. lia. Qed.










End Places.

(** ** The cleanup of the names returned *)

Section NamesReturned.





End NamesReturned.

(** ** The order of the lists *)

Section ListOrder.



End ListOrder.

(** ** The heap plays no part *)

Section OnTheHeap.

Lemma returns_ret (A : Type) (a : A) : Run.returns (Obj.ret a) a.
Proof. intros h. reflexivity. Qed.

Lemma returns_bind (A B : Type) (m : Obj.M A) (f : A -> Obj.M B) (a : A) (b : B) :
  Run.returns m a -> Run.returns (f a) b -> Run.returns (Obj.bind m f) b.
Proof.
  intros Hm Hf h. unfold Obj.bind. specialize (Hm h).
  destruct (m h) as [a' h']. cbn [fst] in Hm. subst a'. apply Hf.
Qed.

(** What a Obj.literal evaluates to. *)
Lemma returns_literal (B : Type) (re : RegExp) (f : Obj.RegExpObject -> Obj.M B) (b : B) :
  (forall R, Obj.source R = re -> Obj.sticky R = false -> Run.returns (f R) b) ->
  Run.returns (Obj.bind (Obj.literal re) f) b.
Proof. intros H h. unfold Obj.bind, Obj.literal, Obj.alloc. now apply H. Qed.

Lemma returns_literals (B : Type) (res : list RegExp) (f : list Obj.RegExpObject -> Obj.M B)
    (b : B) :
  (forall Rs, map Obj.source Rs = res -> Forall (fun R => Obj.sticky R = false) Rs ->
     Run.returns (f Rs) b) ->
  Run.returns (Obj.bind (Obj.literals res) f) b.
Proof.
  revert f. induction res as [|re res IH]; intros f H.
  - intros h. cbn. apply H; constructor.
  - intros h. cbn [Obj.literals].
    assert (E : Obj.bind (Obj.bind (Obj.literal re)
                          (fun R => Obj.bind (Obj.literals res)
                                      (fun Rs => Obj.ret (R :: Rs)))) f h
                = Obj.bind (Obj.literal re)
                    (fun R => Obj.bind (Obj.literals res) (fun Rs => f (R :: Rs))) h).
    { unfold Obj.bind. destruct (Obj.literal re h) as [R h1].
      destruct (Obj.literals res h1) as [Rs h2]. reflexivity. }
    rewrite E. apply returns_literal. intros R HR Hy. apply IH.
    intros Rs HRs Hys. apply H; [cbn [map]; now rewrite HR, HRs | now constructor].
Qed.

(** Without the flags [g] and [y] the heap is neither read nor written. *)
Lemma exec_plain (R : Obj.RegExpObject) (S : jstring) (h : Obj.Heap) :
  global (Obj.source R) = false -> Obj.sticky R = false ->
  Obj.RegExpBuiltinExec R S h = (exec (Obj.source R) (state0 S), h).
Proof.
  intros Hg Hy. unfold Obj.RegExpBuiltinExec. rewrite Hg, Hy. cbn [orb].
  unfold Obj.bind, Obj.ret. cbn [Nat.ltb Nat.leb]. rewrite state_at_0.
  now destruct (exec (Obj.source R) (state0 S)).
Qed.

Lemma test_plain (R : Obj.RegExpObject) (S : jstring) :
  global (Obj.source R) = false -> Obj.sticky R = false ->
  Run.returns (Obj.test R S) (test (Obj.source R) S).
Proof.
  intros Hg Hy h. unfold Obj.test, Obj.bind. rewrite exec_plain by assumption.
  reflexivity.
Qed.

Lemma match_plain (R : Obj.RegExpObject) (S : jstring) (n : nat) :
  global (Obj.source R) = false -> Obj.sticky R = false ->
  Run.returns (Obj.match_at S R n) (match_group (Obj.source R) S n).
Proof.
  intros Hg Hy h. unfold Obj.match_at, Obj.bind. rewrite Hg, exec_plain by assumption.
  reflexivity.
Qed.

Lemma search_plain (R : Obj.RegExpObject) (S : jstring) :
  global (Obj.source R) = false -> Obj.sticky R = false ->
  Run.returns (Obj.search S R) (search (Obj.source R) S).
Proof.
  intros Hg Hy h. unfold Obj.search, Obj.bind, Obj.getLastIndex.
  destruct (Nat.eqb (Obj.lastIndexOf h (Obj.address R)) 0).
  - cbn [Obj.ret]. rewrite exec_plain by assumption.
    destruct (Nat.eqb _ _); reflexivity.
  - cbn [Obj.setLastIndex]. rewrite exec_plain by assumption.
    destruct (Nat.eqb _ _); reflexivity.
Qed.

(** Under the flag [g] the search starts at [lastIndex] and leaves there
    the end of the match, or 0. *)
Lemma exec_global (R : Obj.RegExpObject) (S : jstring) (h : Obj.Heap) :
  global (Obj.source R) = true -> Obj.sticky R = false ->
  Obj.RegExpBuiltinExec R S h =
    if Nat.ltb (List.length S) (Obj.lastIndexOf h (Obj.address R)) then
      (None, snd (Obj.setLastIndex R 0 h))
    else
      match exec (Obj.source R) (state_at S (Obj.lastIndexOf h (Obj.address R))) with
      | None => (None, snd (Obj.setLastIndex R 0 h))
      | Some m => (Some m, snd (Obj.setLastIndex R (endIndex (final m)) h))
      end.
Proof.
  intros Hg Hy. unfold Obj.RegExpBuiltinExec. rewrite Hg, Hy. cbn [orb].
  unfold Obj.bind, Obj.ret, Obj.getLastIndex.
  destruct (Nat.ltb _ _); [reflexivity|].
  now destruct (exec (Obj.source R) _).
Qed.

Lemma lastIndex_set (R : Obj.RegExpObject) (v : nat) (h : Obj.Heap) :
  Obj.lastIndexOf (snd (Obj.setLastIndex R v h)) (Obj.address R) = v.
Proof. cbn. now rewrite Nat.eqb_refl. Qed.

Lemma collect_past (R : Obj.RegExpObject) (S : jstring) (fuel : nat) (h : Obj.Heap) :
  global (Obj.source R) = true -> Obj.sticky R = false ->
  (List.length S < Obj.lastIndexOf h (Obj.address R))%nat ->
  fst (Obj.collect fuel R S h) = [].
Proof.
  intros Hg Hy Hlt. destruct fuel as [|fuel]; [reflexivity|].
  cbn [Obj.collect]. unfold Obj.bind at 1. rewrite exec_global by assumption.
  apply Nat.ltb_lt in Hlt. now rewrite Hlt.
Qed.

(** The loop over the matches of a regex with the flag [g] enumerates what
    [scan] enumerates from the index in [lastIndex]. *)
Lemma collect_scan (R : Obj.RegExpObject) (S : jstring) :
  global (Obj.source R) = true -> Obj.sticky R = false ->
  forall fuel h,
    (Obj.lastIndexOf h (Obj.address R) <= List.length S)%nat ->
    fst (Obj.collect fuel R S h)
    = scan fuel (Obj.source R) (state_at S (Obj.lastIndexOf h (Obj.address R))).
Proof.
  intros Hg Hy. induction fuel as [|fuel IH]; intros h Hle; [reflexivity|].
  cbn [Obj.collect scan]. unfold Obj.bind at 1. rewrite exec_global by assumption.
  replace (Nat.ltb (List.length S) (Obj.lastIndexOf h (Obj.address R))) with false
    by (symmetry; apply Nat.ltb_ge; exact Hle).
  destruct (exec (Obj.source R) (state_at S (Obj.lastIndexOf h (Obj.address R)))) as [m|] eqn:E;
    [|reflexivity].
  destruct (exec_sound (Obj.source R) S _ m (state_at_position S _ Hle) E)
    as (_ & _ & _ & _ & _ & _ & _ & _ & _ & Hpos).
  pose proof (position_bound S _ Hpos) as Hb.
  set (h1 := snd (Obj.setLastIndex R (endIndex (final m)) h)).
  assert (H1 : Obj.lastIndexOf h1 (Obj.address R) = endIndex (final m))
    by apply lastIndex_set.
  destruct (Nat.eqb (endIndex (final m)) (index m)).
  - unfold Obj.bind at 1 2. unfold Obj.getLastIndex at 1. rewrite H1.
    set (h2 := snd (Obj.setLastIndex R (Datatypes.S (endIndex (final m))) h1)).
    assert (H2 : Obj.lastIndexOf h2 (Obj.address R) = Datatypes.S (endIndex (final m)))
      by apply lastIndex_set.
    change (Obj.setLastIndex R (Datatypes.S (endIndex (final m))) h1) with (tt, h2).
    unfold Obj.bind, Obj.ret. 
    destruct (Obj.collect fuel R S h2) as [ms h3] eqn:Ec. cbn [fst]. f_equal.
    change ms with (fst (ms, h3)). rewrite <- Ec.
    unfold advance. destruct (rest (final m)) as [|ch rest'] eqn:Er.
    + apply collect_past; try assumption. rewrite H2.
      destruct Hpos as (u & Hs & Hi & _). rewrite Er, app_nil_r in Hs. subst u. lia.
    + pose proof (position_advance S _ ch rest' Hpos Er) as Hp'.
      rewrite IH.
      * rewrite H2. f_equal.
        pose proof (position_restart S _ Hp') as Hr.
        unfold restart, with_captures in Hr. cbn [prev rest endIndex] in Hr.
        now rewrite Hr.
      * rewrite H2. exact (position_bound S _ Hp').
  - unfold Obj.bind, Obj.ret.
    destruct (Obj.collect fuel R S h1) as [ms h3] eqn:Ec. cbn [fst]. f_equal.
    change ms with (fst (ms, h3)). rewrite <- Ec.
    rewrite IH by (rewrite H1; exact Hb).
    now rewrite H1, <- (position_restart S _ Hpos).
Qed.

Lemma replace_returns (R : Obj.RegExpObject) (S : jstring) (t : list repl_item) :
  Obj.sticky R = false ->
  Run.returns (Obj.replace S R t) (replace (Obj.source R) t S).
Proof.
  intros Hy h. unfold Obj.replace, replace.
  destruct (global (Obj.source R)) eqn:Hg.
  - unfold Obj.bind at 1. cbn [Obj.setLastIndex].
    set (h1 := Obj.mkHeap _ _). unfold Obj.bind, Obj.ret.
    pose proof (collect_scan R S Hg Hy (List.length S + 2) h1) as H.
    assert (H0 : Obj.lastIndexOf h1 (Obj.address R) = 0%nat)
      by (unfold h1; cbn; now rewrite Nat.eqb_refl).
    rewrite H0, state_at_0 in H. specialize (H (Nat.le_0_l _)).
    destruct (Obj.collect (List.length S + 2) R S h1) as [ms h2]. cbn [fst] in H |- *.
    now rewrite H.
  - unfold Obj.bind. rewrite exec_plain by assumption. reflexivity.
Qed.

(** [matchAll] on a Obj.literal: the copy starts where the new object stands,
    at 0. *)
Lemma matchAll_literal (re : RegExp) (S : jstring) :
  global re = true ->
  Run.returns (Obj.bind (Obj.literal re) (fun R => Obj.matchAll S R))
    (matchAll re S).
Proof.
  intros Hg h. unfold Obj.bind at 1, Obj.literal, Obj.alloc at 1.
  unfold Obj.matchAll, Obj.bind, Obj.alloc, Obj.getLastIndex, Obj.setLastIndex.
  cbn [Obj.source Obj.sticky Obj.address Obj.next Obj.lastIndexOf].
  set (matcher := Obj.mkObject (Datatypes.S (Obj.next h)) re false).
  set (h3 := Obj.mkHeap _ _).
  assert (H0 : Obj.lastIndexOf h3 (Obj.address matcher) = 0%nat).
  { unfold h3, matcher. cbn [Obj.lastIndexOf Obj.address]. rewrite Nat.eqb_refl.
    replace (Nat.eqb (Obj.next h) (Datatypes.S (Obj.next h))) with false
      by (symmetry; apply Nat.eqb_neq; lia).
    now rewrite Nat.eqb_refl. }
  pose proof (collect_scan matcher S Hg eq_refl (List.length S + 2) h3) as H.
  rewrite H0, state_at_0 in H. exact (H (Nat.le_0_l _)).
Qed.

(** Under the flag [y] the pattern is tried at [lastIndex] only. *)
Lemma exec_sticky (R : Obj.RegExpObject) (S : jstring) (h : Obj.Heap) :
  Obj.sticky R = true ->
  (Obj.lastIndexOf h (Obj.address R) <= List.length S)%nat ->
  Obj.RegExpBuiltinExec R S h =
    match matcher (ignoreCase (Obj.source R)) (pattern (Obj.source R))
            (state_at S (Obj.lastIndexOf h (Obj.address R))) Some with
    | None => (None, snd (Obj.setLastIndex R 0 h))
    | Some y => (Some (mkMatch (Obj.lastIndexOf h (Obj.address R)) y),
                 snd (Obj.setLastIndex R (endIndex y) h))
    end.
Proof.
  intros Hy Hle. unfold Obj.RegExpBuiltinExec. rewrite Hy, orb_true_r.
  unfold Obj.bind, Obj.ret, Obj.getLastIndex.
  replace (Nat.ltb (List.length S) (Obj.lastIndexOf h (Obj.address R))) with false
    by (symmetry; apply Nat.ltb_ge; exact Hle).
  now destruct (matcher _ _ _ Some).
Qed.

Lemma state_at_rest (S : jstring) (q : nat) :
  (q < List.length S)%nat ->
  exists ch rest', rest (state_at S q) = ch :: rest'.
Proof.
  intros Hq. cbn [state_at rest]. destruct (skipn q S) as [|ch rest'] eqn:E.
  - apply (f_equal (@List.length _)) in E. rewrite length_skipn in E. simpl in E. lia.
  - now exists ch, rest'.
Qed.

Lemma split_loop_returns (R : Obj.RegExpObject) (S : jstring) :
  Obj.sticky R = true ->
  forall fuel p q h,
    (q <= List.length S)%nat ->
    fst (Obj.split_loop fuel R S p q h)
    = split_loop fuel (Obj.source R) S p (state_at S q).
Proof.
  intros Hy. induction fuel as [|fuel IH]; intros p q h Hq; [reflexivity|].
  cbn [Obj.split_loop split_loop].
  destruct (Nat.ltb q (List.length S)) eqn:Hlt.
  - apply Nat.ltb_lt in Hlt.
    destruct (state_at_rest S q Hlt) as (ch & rest' & Er).
    unfold advance. rewrite Er.
    pose proof (state_at_position S q Hq) as Hpos.
    pose proof (position_advance S _ ch rest' Hpos Er) as Hp'.
    pose proof (position_restart S _ Hp') as Hx'.
    unfold restart, with_captures in Hx'. cbn [prev rest endIndex state_at] in Hx'.
    change (endIndex (state_at S q)) with q.
    change (restart (state_at S q)) with (state_at S q).
    rewrite Hx'.
    unfold Obj.bind at 1. cbn [Obj.setLastIndex].
    set (h1 := Obj.mkHeap _ _).
    assert (H1 : Obj.lastIndexOf h1 (Obj.address R) = q)
      by (unfold h1; cbn; now rewrite Nat.eqb_refl).
    unfold Obj.bind at 1. rewrite exec_sticky by (assumption || (rewrite H1; exact Hq)).
    rewrite H1.
    destruct (matcher (ignoreCase (Obj.source R)) (pattern (Obj.source R)) (state_at S q) Some)
      as [y|] eqn:Em.
    + apply matcher_span in Em as (y' & Hs & [= ->]).
      apply span_reads in Hs as (u & Hr & _).
      pose proof (reads_position S u _ _ Hpos Hr) as Hy'.
      pose proof (position_bound S _ Hy') as Hb.
      unfold Obj.bind at 1, Obj.getLastIndex. rewrite lastIndex_set.
      rewrite (Nat.min_l _ _ Hb).
      destruct (Nat.eqb (endIndex y) p).
      * apply IH. lia.
      * unfold Obj.bind, Obj.ret.
        pose proof (IH (endIndex y) (endIndex y)
                      (snd (Obj.setLastIndex R (endIndex y) h1)) Hb) as H.
        destruct (Obj.split_loop fuel R S (endIndex y) (endIndex y) _) as [ps h2].
        cbn [fst] in H |- *. now rewrite H, (position_restart S _ Hy').
    + apply IH. lia.
  - apply Nat.ltb_ge in Hlt. unfold advance. cbn [state_at rest].
    now rewrite skipn_all2 by exact Hlt.
Qed.

Lemma split_returns (R : Obj.RegExpObject) (S : jstring) :
  Run.returns (Obj.split S R) (split (Obj.source R) S).
Proof.
  intros h. unfold Obj.split, split, Obj.bind at 1, Obj.alloc.
  set (splitter := Obj.mkObject (Obj.next h) (Obj.source R) true). set (h1 := Obj.mkHeap _ _).
  assert (H0 : Obj.lastIndexOf h1 (Obj.address splitter) = 0%nat)
    by (unfold h1, splitter; cbn; now rewrite Nat.eqb_refl).
  destruct S as [|ch S].
  - unfold Obj.bind. rewrite exec_sticky by (reflexivity || (rewrite H0; cbn; lia)).
    rewrite H0. unfold exec, state_at, state0. cbn [firstn skipn prev rest endIndex exec_loop].
    cbn [Obj.source splitter].
    now destruct (matcher _ _ _ Some).
  - rewrite (split_loop_returns splitter (ch :: S) eq_refl) by lia.
    now rewrite state_at_0.
Qed.

(** The same for the object that a Obj.literal made. *)
Lemma match_literal (R : Obj.RegExpObject) (re : RegExp) (S : jstring) (n : nat) :
  Obj.source R = re -> Obj.sticky R = false -> global re = false ->
  Run.returns (Obj.match_at S R n) (match_group re S n).
Proof. intros <- Hy Hg. now apply match_plain. Qed.

Lemma test_literal (R : Obj.RegExpObject) (re : RegExp) (S : jstring) :
  Obj.source R = re -> Obj.sticky R = false -> global re = false ->
  Run.returns (Obj.test R S) (test re S).
Proof. intros <- Hy Hg. now apply test_plain. Qed.

Lemma replace_literal (R : Obj.RegExpObject) (re : RegExp) (S : jstring)
    (t : list repl_item) :
  Obj.source R = re -> Obj.sticky R = false ->
  Run.returns (Obj.replace S R t) (replace re t S).
Proof. intros <- Hy. now apply replace_returns. Qed.

Lemma split_literal (R : Obj.RegExpObject) (re : RegExp) (S : jstring) :
  Obj.source R = re -> Run.returns (Obj.split S R) (split re S).
Proof. intros <-. apply split_returns. Qed.

(** *** The extractors *)

Ltac run_lit := apply returns_literal; intros ? ? ?.

Ltac run_op :=
  first [ eapply replace_literal; eassumption
        | eapply match_literal; [eassumption | eassumption | reflexivity]
        | eapply test_literal; [eassumption | eassumption | reflexivity]
        | eapply split_literal; eassumption ].

Ltac run_step := eapply returns_bind; [run_op|].

Lemma pick_returns (Rs : list Obj.RegExpObject) (text : jstring) (group : nat)
    (fb : jstring) :
  Forall (fun R => global (Obj.source R) = false /\ Obj.sticky R = false) Rs ->
  Run.returns (Run.pick Rs text group fb) (pick (map Obj.source Rs) text group fb).
Proof.
  induction 1 as [|R Rs [Hg Hy] _ IH]; [apply returns_ret|].
  cbn [Run.pick pick map].
  apply (returns_bind _ _ _ _ (match_group (Obj.source R) text group));
    [now apply match_plain|].
  destruct (match_group (Obj.source R) text group) as [g|]; [|exact IH].
  destruct (truthy g); [apply returns_ret | exact IH].
Qed.

Lemma pick_objects (Rs : list Obj.RegExpObject) (res : list RegExp) (text : jstring)
    (group : nat) (fb : jstring) :
  map Obj.source Rs = res -> Forall (fun R => Obj.sticky R = false) Rs ->
  forallb (fun re => negb (global re)) res = true ->
  Run.returns (Run.pick Rs text group fb) (pick res text group fb).
Proof.
  intros <- Hy Hg. apply pick_returns.
  rewrite forallb_forall in Hg. rewrite Forall_forall in Hy |- *.
  intros R HR. split; [|now apply Hy].
  apply negb_true_iff, Hg, in_map, HR.
Qed.

Lemma pick_literals (res : list RegExp) (text : jstring) (group : nat) (fb : jstring) :
  forallb (fun re => negb (global re)) res = true ->
  Run.returns (Obj.bind (Obj.literals res) (fun reArr => Run.pick reArr text group fb))
    (pick res text group fb).
Proof.
  intros Hg. apply returns_literals. intros Rs HRs Hy. now apply pick_objects.
Qed.

Lemma text_returns (raw : jstring) : Run.returns (Run.text raw) (Extract.text raw).
Proof.
  unfold Run.text, Extract.text. apply returns_literal. intros R <- Hy.
  now apply replace_returns.
Qed.

Lemma flat_returns (text : jstring) : Run.returns (Run.flat text) (Extract.flat text).
Proof.
  unfold Run.flat, Extract.flat. apply returns_literal. intros R <- Hy.
  eapply returns_bind; [now apply replace_returns | apply returns_ret].
Qed.

Lemma sliceBetween_returns (text : jstring) (a b : Obj.RegExpObject) :
  global (Obj.source a) = false -> Obj.sticky a = false ->
  global (Obj.source b) = false -> Obj.sticky b = false ->
  Run.returns (Run.sliceBetween text a b)
    (Extract.sliceBetween text (Obj.source a) (Obj.source b)).
Proof.
  intros Ha Hya Hb Hyb. unfold Run.sliceBetween, Extract.sliceBetween.
  eapply returns_bind; [now apply search_plain|].
  destruct (search (Obj.source a) text) as [s|]; [|apply returns_ret].
  eapply returns_bind; [now apply search_plain | apply returns_ret].
Qed.

Lemma block_returns (text : jstring) (startRe endRe : RegExp) :
  global startRe = false -> global endRe = false ->
  Run.returns (Run.block text startRe endRe) (Extract.sliceBetween text startRe endRe).
Proof.
  intros Ha Hb. unfold Run.block.
  apply returns_literal. intros a <- Hya. apply returns_literal. intros b <- Hyb.
  now apply sliceBetween_returns.
Qed.

Lemma captured_returns (block : jstring) (name : RegExp) (inline : Obj.M jstring)
    (i : jstring) :
  global name = false -> Run.returns inline i ->
  Run.returns (Run.captured block name inline)
    (trim (opt_or (match_group name block 1) (or_else i NA))).
Proof.
  intros Hg Hi. unfold Run.captured. apply returns_literal. intros R <- Hy.
  eapply returns_bind; [now apply match_plain|].
  apply (returns_bind _ _ _ _ (opt_or (match_group (Obj.source R) block 1) (or_else i NA)));
    [|apply returns_ret].
  destruct (match_group (Obj.source R) block 1) as [g|]; cbn [opt_or].
  - destruct (truthy g) eqn:Et.
    + rewrite (or_else_left g _ Et). apply returns_ret.
    + replace (or_else g (or_else i NA)) with (or_else i NA)
        by (unfold or_else at 2; now rewrite Et).
      eapply returns_bind; [exact Hi | apply returns_ret].
  - eapply returns_bind; [exact Hi | apply returns_ret].
Qed.

Lemma complainant_returns (text flat : jstring) :
  Run.returns (Run.complainant text flat) (Extract.complainant text flat).
Proof.
  unfold Run.complainant, Run.complainantBlock.
  eapply returns_bind; [now apply block_returns|].
  apply captured_returns; [reflexivity | now apply pick_literals].
Qed.

Lemma accused_returns (text flat : jstring) :
  Run.returns (Run.accused text flat) (Extract.accused text flat).
Proof.
  unfold Run.accused, Run.accusedBlock.
  eapply returns_bind; [now apply block_returns|].
  apply captured_returns; [reflexivity | now apply pick_literals].
Qed.

Lemma investigatingOfficer_returns (text flat : jstring) :
  Run.returns (Run.investigatingOfficer text flat)
    (Extract.investigatingOfficer text flat).
Proof.
  unfold Run.investigatingOfficer, Run.ioBlock, Run.ioInline.
  eapply returns_bind; [now apply block_returns|].
  eapply returns_bind; [now apply pick_literals|].
  apply captured_returns; [reflexivity | apply returns_ret].
Qed.

Lemma cleanPerson_returns (s : jstring) :
  Run.returns (Run.cleanPerson s) (Extract.cleanPerson s).
Proof.
  unfold Run.cleanPerson, Extract.cleanPerson.
  run_lit. run_step. run_lit. run_step. run_lit. run_step. apply returns_ret.
Qed.

Lemma for_each_returns (A : Type) (l : list A) (body : A -> Obj.M (list jstring))
    (g : A -> list jstring) :
  (forall a, Run.returns (body a) (g a)) ->
  Run.returns (Obj.for_each l body) (flat_map g l).
Proof.
  intros H. induction l as [|a l IH]; [apply returns_ret|].
  cbn [Obj.for_each flat_map].
  eapply returns_bind; [apply H|].
  eapply returns_bind; [exact IH | apply returns_ret].
Qed.

Lemma witnessesOfBlock_returns (block : jstring) :
  Run.returns (Run.witnessesOfBlock block) (Extract.witnessesOfBlock block).
Proof.
  unfold Run.witnessesOfBlock, Extract.witnessesOfBlock.
  apply for_each_returns. intros line. run_lit. run_step.
  destruct (match_group Pat.witnessLine line 1) as [g|]; [|apply returns_ret].
  destruct (truthy g); [|apply returns_ret].
  eapply returns_bind; [apply cleanPerson_returns | apply returns_ret].
Qed.

Lemma witnessesInline_returns (flat : jstring) :
  Run.returns (Run.witnessesInline flat) (Extract.witnessesInline flat).
Proof.
  unfold Run.witnessesInline, Extract.witnessesInline.
  run_lit. run_step. cbv zeta.
  destruct (truthy (opt_or (match_group Pat.witnessInline flat 1) []));
    [|apply returns_ret].
  run_lit. run_step. apply for_each_returns. intros chunk.
  run_lit. run_step.
  eapply returns_bind; [apply cleanPerson_returns | apply returns_ret].
Qed.

Lemma witnesses_returns (text flat : jstring) :
  Run.returns (Run.witnesses text flat) (Extract.witnesses text flat).
Proof.
  unfold Run.witnesses, Run.witnessesBlock, Extract.witnesses, Extract.witnessesPushed.
  eapply returns_bind; [now apply block_returns|].
  eapply returns_bind; [apply witnessesOfBlock_returns|].
  cbv zeta. fold (Extract.witnessesBlock text).
  destruct (Extract.witnessesOfBlock (Extract.witnessesBlock text)) as [|a pushed].
  - eapply returns_bind; [apply witnessesInline_returns | apply returns_ret].
  - eapply returns_bind; apply returns_ret.
Qed.

Lemma sections_returns (text : jstring) :
  Run.returns (Run.sections text) (Extract.sections text).
Proof.
  unfold Run.sections, Extract.sections. cbv zeta. intros h.
  pose proof (matchAll_literal Pat.ipcSection text eq_refl h) as H1.
  unfold Obj.bind at 1. unfold Obj.bind at 1 in H1.
  destruct (Obj.literal Pat.ipcSection h) as [R1 h1].
  unfold Obj.bind at 1. destruct (Obj.matchAll text R1 h1) as [ms1 h2].
  cbn [fst] in H1. subst ms1.
  pose proof (matchAll_literal Pat.sectionIpc text eq_refl h2) as H2.
  unfold Obj.bind at 1. unfold Obj.bind at 1 in H2.
  destruct (Obj.literal Pat.sectionIpc h2) as [R2 h3].
  unfold Obj.bind. destruct (Obj.matchAll text R2 h3) as [ms2 h4].
  cbn [fst] in H2. subst ms2. reflexivity.
Qed.

Lemma location_returns (flat policeStation : jstring) :
  Run.returns (Run.location flat policeStation) (Extract.location flat policeStation).
Proof.
  unfold Run.location, Extract.location. cbv zeta.
  apply returns_literals. intros reArr HreArr Hys.
  eapply returns_bind; [now apply (pick_objects reArr _ flat 1 [] HreArr Hys)|].
  set (first := or_else (pick _ flat 1 []) []).
  apply (returns_bind _ _ _ _
           (negb (truthy first) || test Pat.reportWord first)).
  { destruct (truthy first); cbn [negb orb]; [|apply returns_ret].
    run_lit. run_op. }
  apply (returns_bind _ _ _ _
           (if negb (truthy first) || test Pat.reportWord first
            then trim (opt_or (match_group Pat.locality flat 1) []) else first)).
  { destruct (negb (truthy first) || test Pat.reportWord first);
      [|apply returns_ret].
    run_lit. run_step. apply returns_ret. }
  run_lit. run_step. run_lit. run_step. run_lit. run_step.
  destruct (negb (truthy _)); [|apply returns_ret].
  run_lit. run_step. run_lit. run_step. apply returns_ret.
Qed.

Lemma overview_returns (policeStation location firNumber date time : jstring) :
  Run.returns (Run.overview policeStation location firNumber date time)
    (Extract.overview policeStation location firNumber date time).
Proof.
  unfold Run.overview, Extract.overview. cbv zeta.
  run_lit. run_step. apply returns_ret.
Qed.

(** On every heap [parseFIR] returns what the function of the text alone
    returns. *)
Lemma parseFIR_returns (raw : jstring) : Run.returns (Run.parseFIR raw) (parseFIR raw).
Proof.
  unfold Run.parseFIR, parseFIR.
  destruct (negb (truthy raw) || negb (truthy (trim raw))); [apply returns_ret|].
  cbv zeta.
  eapply returns_bind; [apply text_returns|].
  eapply returns_bind; [apply flat_returns|].
  eapply returns_bind; [now apply pick_literals|].
  eapply returns_bind; [now apply pick_literals|].
  eapply returns_bind; [now apply pick_literals|].
  eapply returns_bind; [now apply pick_literals|].
  eapply returns_bind; [apply complainant_returns|].
  eapply returns_bind; [apply accused_returns|].
  eapply returns_bind; [apply witnesses_returns|].
  eapply returns_bind; [apply investigatingOfficer_returns|].
  eapply returns_bind; [apply sections_returns|].
  eapply returns_bind; [apply location_returns|].
  eapply returns_bind; [apply overview_returns|].
  apply returns_ret.
Qed.

(** C3: [parseFIR] is a function of its input alone.  The only objects
    with a state that it shares with the methods it calls are the RegExp
    objects; whatever objects earlier calls have left on the heap, and in
    whatever state, a call returns the same summary, and so do two calls
    on the same input made one after the other; that summary is the one
    the function of the text alone computes. *)
Theorem parseFIR_deterministic (raw : jstring) (h1 h2 : Obj.Heap) :
  fst (Run.parseFIR raw h1) = fst (Run.parseFIR raw h2) /\
  fst (Run.parseFIR raw (snd (Run.parseFIR raw h1))) = fst (Run.parseFIR raw h1) /\
  fst (Run.parseFIR raw h1) = parseFIR raw.
Proof.
  pose proof (parseFIR_returns raw) as H. split; [|split].
  - now rewrite (H h1), (H h2).
  - now rewrite (H (snd (Run.parseFIR raw h1))), (H h1).
  - apply H.
Qed.

End OnTheHeap.
